(** * S3 Lens Unity Viewer: identifier resolution and cache

    A shallow embedding of the service worker (background.js) and of the
    type tie-break of the content script (content.js), with the properties
    of the resolution cache, the SQL statement executor, the typed resolver
    and the lookup handler.

    Conventions of the embedding.
    - JavaScript strings are [string]; the program only ever inspects the
      ASCII range (hex digits, dashes, slashes), so [toLowerCase] maps
      [A-Z] to [a-z] and leaves every other character alone.
    - Objects used as dictionaries ([results], [cached], [uuidCache]) are
      [gmap string _]; a JavaScript object holds one value per key, so the
      order in which [Object.entries] lists them is immaterial. On the
      object literal [results] the key [__proto__] names the prototype,
      not an entry: see [assign]. The resolver therefore never returns an
      entry under that key, and none reaches the cache.
    - [Date.now()] is an input: every function that reads the clock takes
      the instant as an argument (epoch milliseconds, an integer).
    - [console.log] is dropped; [console.error] inside the resolver is kept
      as a log, because it is the only place a statement failure goes.
    - The endpoint is an input: for each call of [executeSql] it fixes the
      answer to the POST and the answers to the successive GETs. [fetch]
      is taken to resolve and the body of a delivered answer to parse; a
      row of [data_array] is an array of strings and nulls. *)

From Stdlib Require Import ZArith NArith Ascii String DecimalString List Lia.
From stdpp Require Import base option list gmap strings fin_maps.

Local Open Scope Z_scope.

(** ** Strings *)

Module Js.

Definition is_upper (c : ascii) : bool :=
  let n := N_of_ascii c in ((65 <=? n) && (n <=? 90))%N.

Definition lower_char (c : ascii) : ascii :=
  if is_upper c then ascii_of_N (N_of_ascii c + 32) else c.

(** [String.prototype.toLowerCase] on ASCII text. *)
Fixpoint toLowerCase (s : string) : string :=
  match s with
  | EmptyString => EmptyString
  | String c s' => String (lower_char c) (toLowerCase s')
  end.

(** The character class [[0-9a-f]]. *)
Definition is_hex (c : ascii) : bool :=
  let n := N_of_ascii c in
  (((48 <=? n) && (n <=? 57)) || ((97 <=? n) && (n <=? 102)))%N.

(** [[0-9a-f]{n}] at the head of [s]: the rest of the string, if any. *)
Fixpoint hexes (n : nat) (s : string) : option string :=
  match n with
  | O => Some s
  | S n' =>
      match s with
      | String c s' => if is_hex c then hexes n' s' else None
      | EmptyString => None
      end
  end.

Definition dash (s : string) : option string :=
  match s with
  | String "-"%char s' => Some s'
  | _ => None
  end.

(** [String.prototype.startsWith]. *)
Fixpoint startsWith (p s : string) : bool :=
  match p, s with
  | EmptyString, _ => true
  | String a p', String b s' => if Ascii.eqb a b then startsWith p' s' else false
  | String _ _, EmptyString => false
  end.

Fixpoint drop (n : nat) (s : string) : string :=
  match n, s with
  | O, _ => s
  | S n', String _ s' => drop n' s'
  | S _, EmptyString => EmptyString
  end.

(** [s.replace(pat, rep)] with a string pattern: the first occurrence
    only. *)
Fixpoint replace (pat rep s : string) : string :=
  if startsWith pat s then rep +:+ drop (String.length pat) s
  else match s with
       | EmptyString => EmptyString
       | String c s' => String c (replace pat rep s')
       end.

(** [Array.prototype.join]. *)
Fixpoint join (sep : string) (l : list string) : string :=
  match l with
  | [] => ""
  | [x] => x
  | x :: rest => x +:+ sep +:+ join sep rest
  end.

(** Decimal rendering of a number inside a template literal. *)
Definition show_N (n : N) : string := NilEmpty.string_of_uint (N.to_uint n).

End Js.

(** The pattern [/^[0-9a-f]{8}-[0-9a-f]{4}-[0-9a-f]{4}-[0-9a-f]{4}-[0-9a-f]{12}$/],
    shared by both scripts ([UUID_RE] in background.js, [UUID_PATTERN] in
    content.js). *)
Definition UUID_RE_test (s : string) : bool :=
  let rest :=
    s1 ← Js.hexes 8 s; s2 ← Js.dash s1;
    s3 ← Js.hexes 4 s2; s4 ← Js.dash s3;
    s5 ← Js.hexes 4 s4; s6 ← Js.dash s5;
    s7 ← Js.hexes 4 s6; s8 ← Js.dash s7;
    Js.hexes 12 s8 in
  match rest with
  | Some EmptyString => true
  | _ => false
  end.

(** ** Data model *)

(** A value read from a result row or put in a template literal. *)
Inductive Value :=
| VStr (s : string)
| VNull
| VUndefined.

(** [`${v}`] *)
Definition template (v : Value) : string :=
  match v with
  | VStr s => s
  | VNull => "null"
  | VUndefined => "undefined"
  end.

(** [{ uuid, type }], as sent by the content script. *)
Record TypedUuid := { uuid : string; type : string }.

(** [{ type, fullName }], a resolved name. *)
Record Resolved := { r_type : string; fullName : Value }.

(** [{ data, cachedAt }], one cache entry. *)
Record CacheEntry := { data : Resolved; cachedAt : Z }.

(** [chrome.storage.local]: every key may be absent. *)
Record Storage := {
  stored_workspaceUrl : option string;
  stored_warehouseId : option string;
  stored_patToken : option string;
  stored_uuidCache : option (gmap string CacheEntry);
  stored_cacheUpdatedAt : option Z
}.

Record Config := {
  workspaceUrl : string;
  warehouseId : string;
  patToken : string;
  uuidCache : gmap string CacheEntry;
  cacheUpdatedAt : option Z
}.

Definition CACHE_TTL_MS : Z := 24 * 60 * 60 * 1000.

(** [x || ""] on a string that may be absent. *)
Definition or_empty (x : option string) : string := default ""%string x.

Definition getConfig (stored : Storage) : Config :=
  {| workspaceUrl := or_empty (stored_workspaceUrl stored);
     warehouseId := or_empty (stored_warehouseId stored);
     patToken := or_empty (stored_patToken stored);
     uuidCache := default ∅ (stored_uuidCache stored);
     cacheUpdatedAt :=
       match stored_cacheUpdatedAt stored with
       | Some t => if t =? 0 then None else Some t
       | None => None
       end |}.

(** ** Resolution cache *)

(** One turn of the loop of [getCachedResults]. *)
Definition cache_step (uuidCache : gmap string CacheEntry) (now : Z)
    (acc : gmap string Resolved * list TypedUuid) (item : TypedUuid)
  : gmap string Resolved * list TypedUuid :=
  let key := Js.toLowerCase (uuid item) in
  match uuidCache !! key with
  | Some entry =>
      if bool_decide (now - cachedAt entry < CACHE_TTL_MS)
      then (<[key := data entry]> acc.1, acc.2)
      else (acc.1, acc.2 ++ [item])
  | None => (acc.1, acc.2 ++ [item])
  end.

(** [getCachedResults]: the pair [{ cached, uncached }]. *)
Definition getCachedResults (stored : Storage) (now : Z)
    (typedUuids : list TypedUuid) : gmap string Resolved * list TypedUuid :=
  foldl (cache_step (uuidCache (getConfig stored)) now) (∅, []) typedUuids.

(** [setStorage({ uuidCache, cacheUpdatedAt })]: the other keys stay. *)
Definition setStorage_cache (stored : Storage)
    (c : gmap string CacheEntry) (t : option Z) : Storage :=
  {| stored_workspaceUrl := stored_workspaceUrl stored;
     stored_warehouseId := stored_warehouseId stored;
     stored_patToken := stored_patToken stored;
     stored_uuidCache := Some c;
     stored_cacheUpdatedAt := t |}.

(** [updateCache]: the storage after the call. *)
Definition updateCache (stored : Storage) (now : Z)
    (newResults : gmap string Resolved) : Storage :=
  let uuidCache' :=
    foldl (fun c e => <[e.1 := {| data := e.2; cachedAt := now |}]> c)
          (uuidCache (getConfig stored)) (map_to_list newResults) in
  setStorage_cache stored uuidCache' (Some now).

(** The [clearCache] action. *)
Definition clearCache (stored : Storage) : Storage :=
  setStorage_cache stored ∅ None.

(** ** The SQL statement API *)

(** The part of a statement response the program reads:
    [{ status: { state, error: { message } }, statement_id,
       result: { data_array } }]. Every level may be absent. *)
Record StatusError := { message : option string }.
Record Status := { state : option string; status_error : option StatusError }.
Record StatementResult := { data_array : option (list (list Value)) }.
Record Data := {
  status : option Status;
  statement_id : Value;
  result : option StatementResult
}.

(** What [fetch] resolves to: [ok], [status], the body as [text()] and as
    [json()]. *)
Record Response := {
  ok : bool;
  http_status : N;
  text : string;
  json : Data
}.

(** The endpoint's side of one call of [executeSql]: the answer to the
    POST, then the answers to the successive GETs on the statement, in
    the order they are requested (the URL polled, which carries
    [statement_id], is left out). *)
Record Exchange := { submitResp : Response; pollResps : list Response }.

(** How an asynchronous call ends. [Pending]: the endpoint has not (yet)
    brought the statement to a terminal state, so the call is still
    awaiting; the source has no deadline of its own. *)
Inductive Outcome (A : Type) :=
| Returned (a : A)
| Thrown (msg : string)
| Pending.
Arguments Returned {A} a.
Arguments Thrown {A} msg.
Arguments Pending {A}.

Definition state_is (st : Status) (s : string) : bool :=
  match state st with
  | Some x => String.eqb x s
  | None => false
  end.

(** [data.status && (data.status.state === "PENDING" ||
                     data.status.state === "RUNNING")] *)
Definition still_running (d : Data) : bool :=
  match status d with
  | Some st => state_is st "PENDING" || state_is st "RUNNING"
  | None => false
  end.

(** [data.result?.data_array] *)
Definition rows_of (d : Data) : option (list (list Value)) :=
  result d ≫= data_array.

Section Executor.

(** [JSON.stringify] on the status object of a response, which carries
    more fields than [Status] keeps. *)
Variable JSON_stringify : Status → string.

(** [data.status.error?.message || JSON.stringify(data.status)] *)
Definition errMsg (st : Status) : string :=
  match status_error st ≫= message with
  | Some m => if String.eqb m "" then JSON_stringify st else m
  | None => JSON_stringify st
  end.

(** The [while] loop of [executeSql]; the count is the number of GET
    requests issued so far. *)
Fixpoint poll (d : Data) (resps : list Response) (n : nat)
  : Outcome Data * nat :=
  if still_running d then
    match resps with
    | [] => (Pending, n)
    | pollResp :: rest =>
        if ok pollResp then poll (json pollResp) rest (S n)
        else (Thrown ("SQL poll failed (" +:+ Js.show_N (http_status pollResp)
                        +:+ "): " +:+ text pollResp), S n)
    end
  else (Returned d, n).

(** [executeSql], against the endpoint's answers: how the call ends and
    how many times it polled. *)
Definition executeSql (ex : Exchange) : Outcome Data * nat :=
  let submit := submitResp ex in
  if ok submit then
    match poll (json submit) (pollResps ex) 0 with
    | (Returned d, n) =>
        match status d with
        | Some st =>
            if state_is st "FAILED"
            then (Thrown ("SQL failed: " +:+ errMsg st), n)
            else (Returned d, n)
        | None => (Returned d, n)
        end
    | other => other
    end
  else (Thrown ("SQL submit failed (" +:+ Js.show_N (http_status submit)
                  +:+ "): " +:+ text submit), 0%nat).

End Executor.

(** ** Typed resolver *)

(** The arguments of one call of [executeSql]. *)
Record SqlCall := {
  call_workspaceUrl : string;
  call_patToken : string;
  call_warehouseId : string;
  call_sql : string
}.

(** What a run of the resolver has done so far: the [results] object it
    fills in place, the executor calls it has issued (oldest first) and
    the lines it has sent to [console.error]. *)
Record RState := {
  results : gmap string Resolved;
  calls : list SqlCall;
  console_error : list string
}.

Definition M (A : Type) : Type := RState → Outcome A * RState.

Definition ret {A} (a : A) : M A := λ s, (Returned a, s).

Definition throw {A} (msg : string) : M A := λ s, (Thrown msg, s).

Definition bind {A B} (m : M A) (k : A → M B) : M B :=
  λ s, match m s with
       | (Returned a, s') => k a s'
       | (Thrown msg, s') => (Thrown msg, s')
       | (Pending, s') => (Pending, s')
       end.

Notation "'let*' x ':=' m 'in' k" := (bind m (λ x, k))
  (at level 10, x name, m at level 100, k at level 200).

(** [try { m } catch (err) { h(err.message) }]: what [m] did to the state
    before it threw stays done. *)
Definition try_catch {A} (m : M A) (h : string → M A) : M A :=
  λ s, match m s with
       | (Thrown msg, s') => h msg s'
       | other => other
       end.

(** [for (const x of l) { body(x) }] *)
Fixpoint for_each {A} (l : list A) (body : A → M unit) : M unit :=
  match l with
  | [] => ret tt
  | x :: rest => let* _ := body x in for_each rest body
  end.

(** [obj[key] = value] on an object literal, [value] being an object.
    The key [__proto__] is the accessor inherited from
    [Object.prototype]: the assignment replaces the prototype of [obj] and
    gives it no entry of its own. What the program reads of [results]
    afterwards ([Object.entries], the spread, [Object.keys]) sees own
    entries only. *)
Definition assign {V} (key : string) (value : V) (obj : gmap string V)
  : gmap string V :=
  if String.eqb key "__proto__" then obj else <[key := value]> obj.

(** [results[key] = value] *)
Definition set_result (key : string) (value : Resolved) : M unit :=
  λ s, (Returned tt,
        {| results := assign key value (results s);
           calls := calls s;
           console_error := console_error s |}).

Definition get_results : M (gmap string Resolved) :=
  λ s, (Returned (results s), s).

(** [console.error(...)], the arguments joined as the console shows
    them. *)
Definition log_error (line : string) : M unit :=
  λ s, (Returned tt,
        {| results := results s;
           calls := calls s;
           console_error := console_error s ++ [line] |}).

Definition newline : string := String "010"%char "".

(** The three statements, as the template literals spell them. *)
Definition table_condition (u : TypedUuid) : string :=
  "'tables/" +:+ uuid u +:+ "'".

Definition table_sql (conditions : string) : string :=
  Js.join newline
    [ "";
      "        SELECT table_catalog, table_schema, table_name, storage_sub_directory";
      "        FROM system.information_schema.tables";
      "        WHERE storage_sub_directory IN (" +:+ conditions +:+ ")";
      "      " ]%string.

Definition schema_sql (uuid : string) : string :=
  Js.join newline
    [ "";
      "          SELECT DISTINCT table_catalog, table_schema";
      "          FROM system.information_schema.tables";
      "          WHERE storage_path LIKE '%/schemas/" +:+ uuid +:+ "/%'";
      "          LIMIT 1";
      "        " ]%string.

Definition catalog_sql (uuid : string) : string :=
  Js.join newline
    [ "";
      "          SELECT DISTINCT table_catalog";
      "          FROM system.information_schema.tables";
      "          WHERE storage_path LIKE '%/catalogs/" +:+ uuid +:+ "/%'";
      "          LIMIT 1";
      "        " ]%string.

(** The body of the loop over the rows of the table query. Reading
    [replace] off a missing or null [subDir] is a TypeError. *)
Definition table_row (row : list Value) : M unit :=
  let catalog := nth 0 row VUndefined in
  let schema := nth 1 row VUndefined in
  let table := nth 2 row VUndefined in
  match nth 3 row VUndefined with
  | VStr subDir =>
      let uuid := Js.toLowerCase (Js.replace "tables/" "" subDir) in
      set_result uuid
        {| r_type := "table";
           fullName := VStr (template catalog +:+ "." +:+ template schema
                               +:+ "." +:+ template table) |}
  | VNull => throw "Cannot read properties of null (reading 'replace')"
  | VUndefined => throw "Cannot read properties of undefined (reading 'replace')"
  end.

Section Resolver.

Variable JSON_stringify : Status → string.

(** The endpoint: its answers to the [n]-th executor call of a run,
    given the arguments of that call. *)
Variable net : nat → SqlCall → Exchange.

(** [await executeSql(workspaceUrl, patToken, warehouseId, sql)] *)
Definition call_executeSql (workspaceUrl patToken warehouseId sql : string)
  : M Data :=
  λ s, let c := {| call_workspaceUrl := workspaceUrl;
                   call_patToken := patToken;
                   call_warehouseId := warehouseId;
                   call_sql := sql |} in
       ((executeSql JSON_stringify (net (length (calls s)) c)).1,
        {| results := results s;
           calls := calls s ++ [c];
           console_error := console_error s |}).

Definition resolve_tables (config : Config) (tableUuids : list TypedUuid)
  : M unit :=
  let conditions := Js.join ", " (map table_condition tableUuids) in
  try_catch
    (let sql := table_sql conditions in
     let* result := call_executeSql (workspaceUrl config) (patToken config)
                      (warehouseId config) sql in
     match rows_of result with
     | Some rows => for_each rows table_row
     | None => ret tt
     end)
    (λ err, log_error ("[S3 Lens BG] Table lookup failed: " +:+ err)).

Definition resolve_schema (config : Config) (u : TypedUuid) : M unit :=
  let uuid := uuid u in
  try_catch
    (let sql := schema_sql uuid in
     let* result := call_executeSql (workspaceUrl config) (patToken config)
                      (warehouseId config) sql in
     match rows_of result with
     | Some (row :: _) =>
         let catalog := nth 0 row VUndefined in
         let schema := nth 1 row VUndefined in
         set_result uuid
           {| r_type := "schema";
              fullName := VStr (template catalog +:+ "." +:+ template schema) |}
     | _ => ret tt
     end)
    (λ err, log_error ("[S3 Lens BG] Schema lookup failed for " +:+ uuid
                         +:+ " : " +:+ err)).

Definition resolve_catalog (config : Config) (u : TypedUuid) : M unit :=
  let uuid := uuid u in
  try_catch
    (let sql := catalog_sql uuid in
     let* result := call_executeSql (workspaceUrl config) (patToken config)
                      (warehouseId config) sql in
     match rows_of result with
     | Some (row :: _) =>
         let catalog := nth 0 row VUndefined in
         set_result uuid {| r_type := "catalog"; fullName := catalog |}
     | _ => ret tt
     end)
    (λ err, log_error ("[S3 Lens BG] Catalog lookup failed for " +:+ uuid
                         +:+ " : " +:+ err)).

Definition has_type (t : string) (u : TypedUuid) : bool :=
  String.eqb (type u) t.

(** [resolveUuids(typedUuids, config)] *)
Definition resolveUuids (typedUuids : list TypedUuid) (config : Config)
  : M (gmap string Resolved) :=
  if (length typedUuids =? 0)%nat then get_results else
  let validUuids := List.filter (λ u, UUID_RE_test (uuid u)) typedUuids in
  if (length validUuids =? 0)%nat then get_results else
  let tableUuids := List.filter (has_type "table") validUuids in
  let schemaUuids := List.filter (has_type "schema") validUuids in
  let catalogUuids := List.filter (has_type "catalog") validUuids in
  let* _ := if (0 <? length tableUuids)%nat
            then resolve_tables config tableUuids else ret tt in
  let* _ := if (0 <? length schemaUuids)%nat
            then for_each schemaUuids (resolve_schema config) else ret tt in
  let* _ := if (0 <? length catalogUuids)%nat
            then for_each catalogUuids (resolve_catalog config) else ret tt in
  get_results.

(** ** The lookup handler *)

(** The answer to a [lookupUuids] message: [{ matches, error }]. *)
Record LookupResult := {
  matches : gmap string Resolved;
  error : option string
}.

(** What handling the message left behind. *)
Record Effects := {
  storage : Storage;
  sql_calls : list SqlCall;
  error_log : list string
}.

(** [const results = {}] and nothing done yet. *)
Definition fresh_run : RState :=
  {| results := ∅; calls := []; console_error := [] |}.

(** The [lookupUuids] case of [handleMessage]. [now_split] is the clock
    read by [getCachedResults], [now_merge] the one read by
    [updateCache]. *)
Definition lookupUuids (stored : Storage) (now_split now_merge : Z)
    (uuids : list TypedUuid) : Outcome LookupResult * Effects :=
  let quiet := {| storage := stored; sql_calls := []; error_log := [] |} in
  let typedUuids :=
    map (λ u, {| uuid := Js.toLowerCase (uuid u); type := type u |}) uuids in
  if (length typedUuids =? 0)%nat
  then (Returned {| matches := ∅; error := None |}, quiet)
  else
    let '(cached, uncached) := getCachedResults stored now_split typedUuids in
    if (0 <? length uncached)%nat then
      let config := getConfig stored in
      if String.eqb (patToken config) ""
      then (Returned {| matches := cached;
                        error := Some "No PAT token configured"%string |}, quiet)
      else
        match resolveUuids uncached config fresh_run with
        | (Returned freshResults, s) =>
            (Returned {| matches := freshResults ∪ cached; error := None |},
             {| storage := updateCache stored now_merge freshResults;
                sql_calls := calls s;
                error_log := console_error s |})
        | (Thrown msg, s) =>
            (Returned {| matches := cached; error := Some msg |},
             {| storage := stored;
                sql_calls := calls s;
                error_log := console_error s
                               ++ ["[S3 Lens BG] Resolution failed: " +:+ msg] |})
        | (Pending, s) =>
            (Pending,
             {| storage := stored;
                sql_calls := calls s;
                error_log := console_error s |})
        end
    else (Returned {| matches := (∅ : gmap string Resolved) ∪ cached;
                      error := None |}, quiet).

End Resolver.

(** ** The content script: parsing paths and choosing a type *)

Module Content.

Definition UUID_PATTERN_test : string → bool := UUID_RE_test.

(** [text.substring(text.indexOf(pat))], when [pat] occurs in [text]. *)
Fixpoint from_indexOf (pat text : string) : option string :=
  if Js.startsWith pat text then Some text
  else match text with
       | EmptyString => None
       | String _ rest => from_indexOf pat rest
       end.

(** [text.includes(pat)] *)
Definition includes (pat text : string) : bool :=
  match from_indexOf pat text with Some _ => true | None => false end.

(** [text.split("/")], with the segment being read as accumulator. *)
Fixpoint split_slash (text seg : string) : list string :=
  match text with
  | EmptyString => [seg]
  | String c rest =>
      if Ascii.eqb c "/" then seg :: split_slash rest ""
      else split_slash rest (seg +:+ String c "")
  end.

(** The class [[0-9a-f-]] under the [i] flag. *)
Definition keeps (c : ascii) : bool :=
  Js.is_hex (Js.lower_char c) || Ascii.eqb c "-".

(** [uuid.replace(/[^0-9a-f-]/gi, "")] *)
Fixpoint clean (s : string) : string :=
  match s with
  | EmptyString => EmptyString
  | String c rest => if keeps c then String c (clean rest) else clean rest
  end.

(** The loop [for (let i = 1; i < segments.length; i += 2)], on the
    segments from index 1 on. *)
Fixpoint parse_pairs (segments : list string) : list TypedUuid :=
  match segments with
  | kind :: uuid :: rest =>
      let cleanUuid := Js.toLowerCase (clean uuid) in
      let found :=
        if String.eqb uuid "" then []
        else if negb (UUID_PATTERN_test cleanUuid) then []
        else if String.eqb kind "tables" then [{| uuid := cleanUuid; type := "table" |}]
        else if String.eqb kind "schemas" then [{| uuid := cleanUuid; type := "schema" |}]
        else if String.eqb kind "catalogs" then [{| uuid := cleanUuid; type := "catalog" |}]
        else [] in
      found ++ parse_pairs rest
  | _ => []
  end.

(** [parseUnityPath]: [None] is [null]. *)
Definition parseUnityPath (text : string) : option (list TypedUuid) :=
  match from_indexOf "__unitystorage/" text with
  | None => None
  | Some pathPart =>
      let segments := split_slash pathPart "" in
      let results := parse_pairs (tl segments) in
      if (0 <? length results)%nat then Some results else None
  end.

Definition typePriority (type : string) : nat :=
  if String.eqb type "table" then 3
  else if String.eqb type "schema" then 2
  else if String.eqb type "catalog" then 1
  else 0.

(** A JavaScript [Map] from uuid to type, in insertion order. *)
Fixpoint Map_get (m : list (string * string)) (k : string) : option string :=
  match m with
  | [] => None
  | (k', v) :: rest => if String.eqb k' k then Some v else Map_get rest k
  end.

(** [m.set(k, v)]: a key already there keeps its place. *)
Fixpoint Map_set (m : list (string * string)) (k v : string)
  : list (string * string) :=
  match m with
  | [] => [(k, v)]
  | (k', v') :: rest =>
      if String.eqb k' k then (k', v) :: rest else (k', v') :: Map_set rest k v
  end.

(** The inner loop of [findUnityElements] on one parsed occurrence. *)
Definition keep_most_specific (typedUuids : list (string * string))
    (p : TypedUuid) : list (string * string) :=
  let replace :=
    match Map_get typedUuids (uuid p) with
    | None => true
    | Some existing =>
        String.eqb existing ""
        || (typePriority existing <? typePriority (type p))%nat
    end in
  if replace then Map_set typedUuids (uuid p) (type p) else typedUuids.

(** A [span.s3-util-word-break-all] of the page. *)
Record Span := { annotated : bool; textContent : string }.

Record Found := {
  elements : list (Span * list TypedUuid);
  typedUuids : list (string * string)
}.

Definition scan_span (acc : Found) (span : Span) : Found :=
  if annotated span then acc
  else
    let text := textContent span in
    if negb (includes "__unitystorage" text) then acc
    else match parseUnityPath text with
         | None => acc
         | Some parsed =>
             {| elements := elements acc ++ [(span, parsed)];
                typedUuids := foldl keep_most_specific (typedUuids acc) parsed |}
         end.

(** [findUnityElements], on the spans of the page in document order. *)
Definition findUnityElements (spans : list Span) : Found :=
  foldl scan_span {| elements := []; typedUuids := [] |} spans.

(** What [scan] sends to the background as [uuids], if it sends. *)
Definition scan_request (spans : list Span) : option (list TypedUuid) :=
  let found := findUnityElements spans in
  if (length (elements found) =? 0)%nat || (length (typedUuids found) =? 0)%nat
  then None
  else Some (map (λ e, {| uuid := e.1; type := e.2 |}) (typedUuids found)).

(** Vocabulary of the statements about the scanner. *)

(** What a span of the page contributes: the occurrences parsed out of
    its text, unless it is already annotated or has no unity path. *)
Definition parsed_of (span : Span) : list TypedUuid :=
  if annotated span then []
  else if negb (includes "__unitystorage" (textContent span)) then []
  else default [] (parseUnityPath (textContent span)).

(** All the parsed occurrences of a page, in document order. *)
Definition occurrences (spans : list Span) : list TypedUuid :=
  concat (map parsed_of spans).

(** What the map holds while the occurrences are folded in: under each
    uuid seen, a type that was seen with it and that no type seen with
    it outranks. *)
Definition most_specific (m : list (string * string)) (seen : list TypedUuid) : Prop :=
  NoDup (map fst m)
  ∧ (∀ u t, Map_get m u = Some t →
       {| uuid := u; type := t |} ∈ seen
       ∧ ∀ occ, occ ∈ seen → uuid occ = u →
           (typePriority (type occ) ≤ typePriority t)%nat)
  ∧ (∀ occ, occ ∈ seen → is_Some (Map_get m (uuid occ))).

End Content.

(** ** Vocabulary of the statements *)

(** The request key of an item: the cache is indexed by lower-cased uuid. *)
Definition cache_key (item : TypedUuid) : string := Js.toLowerCase (uuid item).

(** The test [entry && now - entry.cachedAt < CACHE_TTL_MS] of
    [getCachedResults] on one item. *)
Definition is_hit (c : gmap string CacheEntry) (now : Z) (item : TypedUuid) : bool :=
  match c !! cache_key item with
  | Some entry => bool_decide (now - cachedAt entry < CACHE_TTL_MS)
  | None => false
  end.

(** A response that keeps the loop going: delivered, and PENDING or
    RUNNING. *)
Definition keeps_polling (r : Response) : Prop :=
  ok r = true ∧ still_running (json r) = true.

(** The call the resolver makes for a statement. *)
Definition sql_call (config : Config) (sql : string) : SqlCall :=
  {| call_workspaceUrl := workspaceUrl config;
     call_patToken := patToken config;
     call_warehouseId := warehouseId config;
     call_sql := sql |}.

(** The number of places of [text] at which [pat] starts. *)
Fixpoint occurrences_of (pat text : string) : nat :=
  ((if Js.startsWith pat text then 1 else 0)
   + match text with
     | EmptyString => 0
     | String _ rest => occurrences_of pat rest
     end)%nat.

(** The identifiers that pass [UUID_RE], and those of one type. *)
Definition valid_uuids (l : list TypedUuid) : list TypedUuid :=
  List.filter (λ u, UUID_RE_test (uuid u)) l.

Definition of_type (t : string) (l : list TypedUuid) : list TypedUuid :=
  List.filter (has_type t) l.

Definition table_statement (tableUuids : list TypedUuid) : string :=
  table_sql (Js.join ", " (map table_condition tableUuids)).

(** The executor calls of a run that is not left pending: one for the
    table group if there is one, then one per schema id, then one per
    catalog id. *)
Definition expected_calls (config : Config) (typedUuids : list TypedUuid)
  : list SqlCall :=
  let valid := valid_uuids typedUuids in
  (if (0 <? length (of_type "table" valid))%nat
   then [sql_call config (table_statement (of_type "table" valid))] else [])
  ++ map (λ u, sql_call config (schema_sql (uuid u))) (of_type "schema" valid)
  ++ map (λ u, sql_call config (catalog_sql (uuid u))) (of_type "catalog" valid).

(** How an entry of the result map comes out of the data returned by a
    call: from a row of the table statement, or from the first row of the
    statement made for a schema or catalog id that was asked. *)
Inductive derived (asked : list TypedUuid) (c : SqlCall) (d : Data)
    (k : string) (v : Resolved) : Prop :=
| derived_table rows row subDir :
    call_sql c = table_statement (of_type "table" asked) →
    rows_of d = Some rows →
    row ∈ rows →
    nth 3 row VUndefined = VStr subDir →
    k = Js.toLowerCase (Js.replace "tables/" "" subDir) →
    v = {| r_type := "table";
           fullName := VStr (template (nth 0 row VUndefined) +:+ "."
                               +:+ template (nth 1 row VUndefined) +:+ "."
                               +:+ template (nth 2 row VUndefined)) |} →
    derived asked c d k v
| derived_schema u row rest :
    u ∈ of_type "schema" asked →
    k = uuid u →
    call_sql c = schema_sql k →
    rows_of d = Some (row :: rest) →
    v = {| r_type := "schema";
           fullName := VStr (template (nth 0 row VUndefined) +:+ "."
                               +:+ template (nth 1 row VUndefined)) |} →
    derived asked c d k v
| derived_catalog u row rest :
    u ∈ of_type "catalog" asked →
    k = uuid u →
    call_sql c = catalog_sql k →
    rows_of d = Some (row :: rest) →
    v = {| r_type := "catalog"; fullName := nth 0 row VUndefined |} →
    derived asked c d k v.

(** The entry a row of the table statement gives rise to. *)
Definition table_entry (row : list Value) : Resolved :=
  {| r_type := "table";
     fullName := VStr (template (nth 0 row VUndefined) +:+ "."
                         +:+ template (nth 1 row VUndefined) +:+ "."
                         +:+ template (nth 2 row VUndefined)) |}.

Definition table_key (subDir : string) : string :=
  Js.toLowerCase (Js.replace "tables/" "" subDir).

(** The request as the handler normalises it. *)
Definition normalise (uuids : list TypedUuid) : list TypedUuid :=
  map (λ u, {| uuid := Js.toLowerCase (uuid u); type := type u |}) uuids.

Section RunVocabulary.

Variable JSON_stringify : Status → string.
Variable net : nat → SqlCall → Exchange.
Variable config : Config.
Variable asked : list TypedUuid.

(** How the [n]-th call of the run ends. *)
Definition exec (n : nat) (c : SqlCall) : Outcome Data :=
  (executeSql JSON_stringify (net n c)).1.

(** An entry of [results] is accounted for by a call that returned. *)
Definition produced (s : RState) (k : string) (v : Resolved) : Prop :=
  ∃ n c d, calls s !! n = Some c ∧ exec n c = Returned d ∧ derived asked c d k v.

(** A message went to [console.error], behind some heading. *)
Definition logged (lines : list string) (msg : string) : Prop :=
  ∃ line heading, line ∈ lines ∧ line = heading +:+ msg.

(** What holds of the state all along a run: the results come from
    calls that returned, and every call that threw is in the log. *)
Definition run_inv (s : RState) : Prop :=
  (∀ k v, results s !! k = Some v → produced s k v)
  ∧ (∀ n c msg, calls s !! n = Some c → exec n c = Thrown msg →
       logged (console_error s) msg).

(** What a part of the resolver does, given the calls it is to make:
    it makes them, in order, up to one that is left pending if any; it
    never throws; it keeps [run_inv]. *)
Record step_spec (expected : list SqlCall) (s : RState)
    (o : Outcome unit) (s' : RState) : Prop := {
  step_calls : ∃ issued, calls s' = calls s ++ issued
                 ∧ issued `prefix_of` expected
                 ∧ (o = Returned tt → issued = expected);
  step_outcome : o = Returned tt ∨ (o = Pending ∧ ∃ n c, exec n c = Pending);
  step_inv : run_inv s → run_inv s'
}.

Definition meets (m : M unit) (expected : list SqlCall) : Prop :=
  ∀ s o s', m s = (o, s') → step_spec expected s o s'.

(** The three groups in sequence, before the final [return results]. *)
Definition resolve_groups (valid : list TypedUuid) : M unit :=
  let* _ := if (0 <? length (of_type "table" valid))%nat
            then resolve_tables JSON_stringify net config (of_type "table" valid)
            else ret tt in
  let* _ := if (0 <? length (of_type "schema" valid))%nat
            then for_each (of_type "schema" valid)
                   (resolve_schema JSON_stringify net config)
            else ret tt in
  if (0 <? length (of_type "catalog" valid))%nat
  then for_each (of_type "catalog" valid)
         (resolve_catalog JSON_stringify net config)
  else ret tt.

End RunVocabulary.

(** ** Sample data for the closed examples *)

Definition empty_storage : Storage :=
  {| stored_workspaceUrl := None; stored_warehouseId := None;
     stored_patToken := None; stored_uuidCache := None;
     stored_cacheUpdatedAt := None |}.

Definition table_uuid : string := "02001227-e40c-4d05-b79a-9dcab2964056".
Definition schema_uuid : string := "d3eaf7c7-0e77-4d45-970b-5b9e69dbae5b".

Definition a_table : Resolved :=
  {| r_type := "table"; fullName := VStr "main.sales.orders" |}.
Definition a_schema : Resolved :=
  {| r_type := "schema"; fullName := VStr "main.sales" |}.

Definition catalog_uuid : string := "7c9e6679-7425-40de-944b-e07fc1f90ae7".

Definition stringify_stub (st : Status) : string := "{}".

Definition answer (st : string) (err : option StatusError)
    (rows : option (list (list Value))) : Response :=
  {| ok := true; http_status := 200; text := "";
     json := {| status := Some {| state := Some st; status_error := err |};
                statement_id := VStr "01ef-statement";
                result := (λ r, {| data_array := Some r |}) <$> rows |} |}.

Definition pending_answer : Response := answer "PENDING" None None.
Definition running_answer : Response := answer "RUNNING" None None.
Definition failed_answer (x : string) : Response :=
  answer "FAILED" (Some {| message := Some x |}) None.
Definition succeeded_answer (rows : list (list Value)) : Response :=
  answer "SUCCEEDED" None (Some rows).

(** An endpoint on which every statement is PENDING, then RUNNING, then
    FAILED with message [x]. *)
Definition failing_net (n : nat) (c : SqlCall) : Exchange :=
  {| submitResp := pending_answer;
     pollResps := [running_answer; failed_answer "x"] |}.

(** An endpoint on which every statement succeeds at once: the first with
    a table row, the others with a catalog and schema name. *)
Definition answering_net (n : nat) (c : SqlCall) : Exchange :=
  match n with
  | O => {| submitResp :=
              succeeded_answer
                [[VStr "main"; VStr "sales"; VStr "orders";
                  VStr ("tables/" +:+ table_uuid)]];
            pollResps := [] |}
  | S _ => {| submitResp := succeeded_answer [[VStr "main"; VStr "sales"]];
              pollResps := [] |}
  end.

(** A configured extension whose cache knows one schema. *)
Definition configured_storage : Storage :=
  {| stored_workspaceUrl := Some "https://example.cloud.databricks.com"%string;
     stored_warehouseId := Some "warehouse-1"%string;
     stored_patToken := Some "dapi-token"%string;
     stored_uuidCache := Some {[ schema_uuid := {| data := a_schema; cachedAt := 0 |} ]};
     stored_cacheUpdatedAt := Some 0 |}.

(** The same without a token. *)
Definition tokenless_storage : Storage :=
  {| stored_workspaceUrl := Some "https://example.cloud.databricks.com"%string;
     stored_warehouseId := Some "warehouse-1"%string;
     stored_patToken := None;
     stored_uuidCache := Some {[ schema_uuid := {| data := a_schema; cachedAt := 0 |} ]};
     stored_cacheUpdatedAt := Some 0 |}.

Definition table_item : TypedUuid := {| uuid := table_uuid; type := "table" |}.
Definition schema_item : TypedUuid := {| uuid := schema_uuid; type := "schema" |}.
Definition catalog_item : TypedUuid := {| uuid := catalog_uuid; type := "catalog" |}.

Definition table_call : SqlCall :=
  sql_call (getConfig configured_storage) (table_statement [table_item]).

Definition injected_item : TypedUuid :=
  {| uuid := "x') OR ('1'='1"; type := "table" |}.

(** A page on which one identifier is declared as a catalog by one path
    and as a table by another. *)
Definition a_page : list Content.Span :=
  [ {| Content.annotated := false;
       Content.textContent := "my-bucket/__unitystorage/catalogs/" +:+ table_uuid |};
    {| Content.annotated := false;
       Content.textContent := "my-bucket/__unitystorage/schemas/" +:+ schema_uuid
                        +:+ "/tables/" +:+ table_uuid |} ].

(** ** The other actions of the service worker *)

(** [s.replace(/\/+$/, "")]: the string without its trailing slashes. *)
Fixpoint strip_trailing_slashes (s : string) : string :=
  match s with
  | EmptyString => EmptyString
  | String c rest =>
      match strip_trailing_slashes rest with
      | EmptyString => if Ascii.eqb c "/" then EmptyString else String c EmptyString
      | kept => String c kept
      end
  end.

(** The [url] of [executeSql], to which the statement is posted, and the
    URL it polls. *)
Definition statements_url (workspaceUrl : string) : string :=
  strip_trailing_slashes workspaceUrl +:+ "/api/2.0/sql/statements".

Definition poll_url (workspaceUrl : string) (statement_id : Value) : string :=
  statements_url workspaceUrl +:+ "/" +:+ template statement_id.

(** A message to the service worker, by its [action]. The fields of
    [saveConfig] may be [undefined], and so may [uuids]. *)
Inductive Message :=
| GetConfig
| SaveConfig (workspaceUrl warehouseId patToken : option string)
| TestConnection
| ClearCache
| LookupUuids (uuids : option (list TypedUuid))
| OtherAction (action : string).

(** What the handler answers. *)
Inductive Reply :=
| ConfigReply (workspaceUrl warehouseId : string) (hasToken : bool)
    (cacheSize : nat) (cacheUpdatedAt : option Z)
| SuccessReply
| LookupReply (r : LookupResult)
| ErrorReply (error : string).

(** [setStorage(updates)] of the [saveConfig] action: a key that is not
    in [updates] stays. *)
Definition setStorage_config (stored : Storage)
    (workspaceUrl warehouseId patToken : option string) : Storage :=
  {| stored_workspaceUrl :=
       match workspaceUrl with Some w => Some w | None => stored_workspaceUrl stored end;
     stored_warehouseId :=
       match warehouseId with Some w => Some w | None => stored_warehouseId stored end;
     stored_patToken :=
       match patToken with Some p => Some p | None => stored_patToken stored end;
     stored_uuidCache := stored_uuidCache stored;
     stored_cacheUpdatedAt := stored_cacheUpdatedAt stored |}.

Section Handler.

Variable JSON_stringify : Status → string.
Variable net : nat → SqlCall → Exchange.

(** [`${JSON.stringify(result.status)}`] *)
Definition stringify_status (st : option Status) : string :=
  match st with
  | Some s => JSON_stringify s
  | None => "undefined"
  end.

(** [result.status?.state === "SUCCEEDED" &&
     result.result?.data_array?.[0]?.[0] === "1"] *)
Definition is_ok_row (result : Data) : bool :=
  match status result with
  | Some st => state_is st "SUCCEEDED"
  | None => false
  end
  && match rows_of result with
     | Some (row :: _) =>
         match nth 0 row VUndefined with
         | VStr cell => String.eqb cell "1"
         | _ => false
         end
     | _ => false
     end.

(** [testConnection(config)]: how it ends, and the call it made. *)
Definition testConnection (config : Config) : Outcome unit * list SqlCall :=
  let c := sql_call config "SELECT 1 AS ok" in
  (match (executeSql JSON_stringify (net 0 c)).1 with
   | Returned result =>
       if is_ok_row result then Returned tt
       else Thrown ("Unexpected response: " +:+ stringify_status (status result))
   | Thrown msg => Thrown msg
   | Pending => Pending
   end, [c]).

(** [handleMessage(message)] *)
Definition handleMessage (message : Message) (stored : Storage)
    (now_split now_merge : Z) : Outcome Reply * Effects :=
  let quiet := {| storage := stored; sql_calls := []; error_log := [] |} in
  match message with
  | GetConfig =>
      let config := getConfig stored in
      (Returned (ConfigReply (workspaceUrl config) (warehouseId config)
                   (negb (String.eqb (patToken config) ""))
                   (size (uuidCache config)) (cacheUpdatedAt config)),
       quiet)
  | SaveConfig workspaceUrl warehouseId patToken =>
      (Returned SuccessReply,
       {| storage := setStorage_config stored
                       (strip_trailing_slashes <$> workspaceUrl)
                       warehouseId patToken;
          sql_calls := []; error_log := [] |})
  | TestConnection =>
      let run := testConnection (getConfig stored) in
      (match run.1 with
       | Returned _ => Returned SuccessReply
       | Thrown msg => Thrown msg
       | Pending => Pending
       end,
       {| storage := stored; sql_calls := run.2; error_log := [] |})
  | ClearCache =>
      (Returned SuccessReply,
       {| storage := clearCache stored; sql_calls := []; error_log := [] |})
  | LookupUuids uuids =>
      let run := lookupUuids JSON_stringify net stored now_split now_merge
                   (default [] uuids) in
      (match run.1 with
       | Returned r => Returned (LookupReply r)
       | Thrown msg => Thrown msg
       | Pending => Pending
       end, run.2)
  | OtherAction action => (Thrown ("Unknown action: " +:+ action), quiet)
  end.

(** The [onMessage] listener: what it passes to [sendResponse], if the
    handler settles. A rejection becomes [{ error }]. *)
Definition onMessage (message : Message) (stored : Storage)
    (now_split now_merge : Z) : option Reply * Effects :=
  let run := handleMessage message stored now_split now_merge in
  match run.1 with
  | Returned reply => (Some reply, run.2)
  | Thrown msg =>
      (Some (ErrorReply msg),
       {| storage := storage run.2;
          sql_calls := sql_calls run.2;
          error_log := error_log run.2
                         ++ ["[S3 Lens BG] Handler error: " +:+ msg] |})
  | Pending => (None, run.2)
  end.

End Handler.

(** ** The content script: badges *)

Module Annotate.
Import Content.

(** The [span] made by [createBadge]: its class, [data-type], text and
    tooltip. *)
Record Badge := {
  badge_className : string;
  badge_type : string;
  badge_textContent : Value;
  badge_title : string
}.

Definition createBadge (info : Resolved) : Badge :=
  {| badge_className := "s3-lens-badge";
     badge_type := r_type info;
     badge_textContent := fullName info;
     badge_title := "Unity Catalog " +:+ r_type info +:+ ": "
                      +:+ template (fullName info) |}.

(** One turn of the loop that looks for the best match of an element. *)
Definition better_match (matchMap : gmap string Resolved)
    (bestMatch : option Resolved) (p : TypedUuid) : option Resolved :=
  match matchMap !! uuid p with
  | None => bestMatch
  | Some info =>
      match bestMatch with
      | None => Some info
      | Some best =>
          if (typePriority (r_type best) <? typePriority (r_type info))%nat
          then Some info else Some best
      end
  end.

Definition bestMatch (matchMap : gmap string Resolved)
    (parsed : list TypedUuid) : option Resolved :=
  foldl (better_match matchMap) None parsed.

(** The body of the loop of [annotateElements]: the element afterwards,
    and the badge inserted after it, if any. *)
Definition annotate_element (matchMap : gmap string Resolved)
    (e : Span * list TypedUuid) : Span * option Badge :=
  if annotated e.1 then (e.1, None)
  else match bestMatch matchMap e.2 with
       | Some info =>
           ({| annotated := true; textContent := textContent e.1 |},
            Some (createBadge info))
       | None => (e.1, None)
       end.

Definition annotateElements (elements : list (Span * list TypedUuid))
    (matchMap : gmap string Resolved) : list (Span * option Badge) :=
  map (annotate_element matchMap) elements.

(** The body of [scan] once a response has come: the elements found,
    annotated from [response.matches] when there is one. *)
Definition scan (spans : list Span)
    (respond : list TypedUuid → option Reply) : list (Span * option Badge) :=
  let found := findUnityElements spans in
  match scan_request spans with
  | None => []
  | Some uuidsWithTypes =>
      match respond uuidsWithTypes with
      | Some (LookupReply response) =>
          annotateElements (elements found) (matches response)
      | _ => map (λ e, (e.1, None)) (elements found)
      end
  end.

End Annotate.

(** ** The popup *)

Module Popup.

(** White space, as [String.prototype.trim] sees it in ASCII. *)
Definition is_space (c : ascii) : bool :=
  let n := N_of_ascii c in (((9 <=? n) && (n <=? 13)) || (n =? 32))%N.

Fixpoint trimStart (s : string) : string :=
  match s with
  | EmptyString => EmptyString
  | String c rest => if is_space c then trimStart rest else s
  end.

Fixpoint trimEnd (s : string) : string :=
  match s with
  | EmptyString => EmptyString
  | String c rest =>
      match trimEnd rest with
      | EmptyString => if is_space c then EmptyString else String c EmptyString
      | kept => String c kept
      end
  end.

Definition trim (s : string) : string := trimEnd (trimStart s).

(** What a click on Save does with the three fields: it shows an error,
    or sends a message. *)
Inductive SaveClick :=
| ShowError (text : string)
| Send (message : Message).

Definition save_click (workspace_url pat_token warehouse_id : string)
  : SaveClick :=
  let wsUrl := trim workspace_url in
  let warehouse := trim warehouse_id in
  let pat := trim pat_token in
  if String.eqb wsUrl "" then ShowError "Workspace URL is required"
  else if String.eqb warehouse "" then ShowError "Warehouse ID is required"
  else Send (SaveConfig (Some wsUrl) (Some warehouse)
               (if String.eqb pat "" then None else Some pat)).

(** The text shown once the answer to that message has come. *)
Definition save_message (result : Reply) : string :=
  match result with
  | ErrorReply error =>
      if String.eqb error "" then "Configuration saved" else error
  | _ => "Configuration saved"
  end.

(** The text shown after a click on Test Connection. *)
Definition test_message (result : Reply) : string :=
  match result with
  | ErrorReply error =>
      if String.eqb error "" then "Connection successful!"
      else "Connection failed: " +:+ error
  | _ => "Connection successful!"
  end.

End Popup.

(** ** Vocabulary of the further statements *)

(** What the loop over the rows of the table statement writes for rows
    whose [storage_sub_directory] is a string. *)
Definition table_rows_written (rows : list (list Value))
    (results : gmap string Resolved) : gmap string Resolved :=
  foldl (λ m row,
           match nth 3 row VUndefined with
           | VStr subDir => assign (table_key subDir) (table_entry row) m
           | _ => m
           end) results rows.

(** A part of the resolver that leaves [results] as it was under the key
    [__proto__]. *)
Definition keeps_proto {A} (m : M A) : Prop :=
  ∀ s, results (m s).2 !! "__proto__"%string = results s !! "__proto__"%string.

(** A statement that returns and matches nothing: no [data_array], or an
    empty one. *)
Definition no_rows (d : Data) : Prop :=
  rows_of d = None ∨ rows_of d = Some [].

(** An element as [findUnityElements] records it: a span not yet
    annotated, with what [parseUnityPath] reads in its text. *)
Definition scannable (e : Content.Span * list TypedUuid) : Prop :=
  Content.annotated e.1 = false
  ∧ Content.includes "__unitystorage" (Content.textContent e.1) = true
  ∧ Content.parseUnityPath (Content.textContent e.1) = Some e.2.

(** An element for which the matches hold nothing. *)
Definition unbadged (matchMap : gmap string Resolved)
    (e : Content.Span * list TypedUuid) : bool :=
  match Annotate.bestMatch matchMap e.2 with
  | Some _ => false
  | None => true
  end.

(** Every character of a string passes a test. *)
Fixpoint all_chars (f : ascii → bool) (s : string) : bool :=
  match s with
  | EmptyString => true
  | String c rest => f c && all_chars f rest
  end.

(** A character other than the slash. *)
Definition not_slash (c : ascii) : bool := negb (Ascii.eqb c "/").

(** ** More sample data *)

(** An answer the endpoint rejects. *)
Definition rejected_answer : Response :=
  {| ok := false; http_status := 403; text := "Forbidden";
     json := json pending_answer |}.

(** An endpoint on which every statement succeeds and matches nothing. *)
Definition empty_net (n : nat) (c : SqlCall) : Exchange :=
  {| submitResp := succeeded_answer []; pollResps := [] |}.

Definition good_row : list Value :=
  [VStr "main"; VStr "sales"; VStr "orders"; VStr ("tables/" +:+ table_uuid)].
Definition null_row : list Value :=
  [VStr "main"; VStr "sales"; VStr "returns"; VNull].
Definition late_row : list Value :=
  [VStr "main"; VStr "sales"; VStr "stock"; VStr ("tables/" +:+ catalog_uuid)].
Definition proto_row : list Value :=
  [VStr "main"; VStr "sales"; VStr "odd"; VStr "tables/__proto__"].

(** An answer in a terminal state that is neither SUCCEEDED nor FAILED. *)
Definition canceled_answer : Response := answer "CANCELED" None None.

(** An endpoint whose table statement returns a row with a null
    [storage_sub_directory] after two full rows, of which the second is
    filed under [__proto__], and before another full row. *)
Definition null_subdir_net (n : nat) (c : SqlCall) : Exchange :=
  {| submitResp := succeeded_answer [good_row; proto_row; null_row; late_row];
     pollResps := [] |}.

(** What the first lookup of the table on [answering_net] leaves. *)
Definition first_result : LookupResult :=
  {| matches := {[ table_uuid := a_table ]}; error := None |}.

Definition first_effects : Effects :=
  {| storage := updateCache configured_storage 2000 {[ table_uuid := a_table ]};
     sql_calls := [table_call];
     error_log := [] |}.

(** The storage [first_effects] leaves, with the token since removed. *)
Definition later_storage : Storage :=
  {| stored_workspaceUrl := stored_workspaceUrl (storage first_effects);
     stored_warehouseId := stored_warehouseId (storage first_effects);
     stored_patToken := Some ""%string;
     stored_uuidCache := stored_uuidCache (storage first_effects);
     stored_cacheUpdatedAt := stored_cacheUpdatedAt (storage first_effects) |}.

(** The matches of a lookup that resolved the table and the schema. *)
Definition a_matchMap : gmap string Resolved :=
  {[ table_uuid := a_table; schema_uuid := a_schema ]}.

(** The span of [a_page] that names a schema and a table. *)
Definition a_span : Content.Span :=
  {| Content.annotated := false;
     Content.textContent := "my-bucket/__unitystorage/schemas/" +:+ schema_uuid
                              +:+ "/tables/" +:+ table_uuid |}.

(** * Properties *)

(** ** Resolution cache *)

(** Case analysis on every decision the goal branches on. *)
Ltac split_decides :=
  repeat match goal with
         | |- context [@decide ?P ?d] => destruct (@decide P d)
         end.

(** Contradictions between membership facts on a list and on its tail. *)
Ltac membership :=
  repeat match goal with
         | H : _ ∧ _ |- _ => destruct H
         | H : _ ∈ _ :: _ |- _ => apply elem_of_cons in H as [?|?]
         end;
  subst;
  match goal with
  | H : ¬ _ |- _ =>
      apply H; split; eauto using list_elem_of_here, list_elem_of_further
  | _ => idtac
  end;
  try tauto.

Section CacheFacts.

Variables (c : gmap string CacheEntry) (now : Z).

Lemma cache_step_hit acc item entry :
  c !! cache_key item = Some entry →
  now - cachedAt entry < CACHE_TTL_MS →
  cache_step c now acc item = (<[cache_key item := data entry]> acc.1, acc.2).
Proof.
  intros Hc Hage. unfold cache_step. fold (cache_key item).
  rewrite Hc. by rewrite bool_decide_eq_true_2.
Qed.

Lemma cache_step_miss acc item :
  is_hit c now item = false →
  cache_step c now acc item = (acc.1, acc.2 ++ [item]).
Proof.
  unfold is_hit, cache_step. fold (cache_key item).
  destruct (c !! cache_key item) as [entry|]; [|done].
  by intros ->.
Qed.

Lemma is_hit_true item :
  is_hit c now item = true ↔
  ∃ entry, c !! cache_key item = Some entry ∧ now - cachedAt entry < CACHE_TTL_MS.
Proof.
  unfold is_hit. destruct (c !! cache_key item) as [entry|].
  - rewrite bool_decide_eq_true. split; [eauto|].
    intros (e & He & ?). by simplify_eq.
  - split; [done|]. by intros (? & ? & ?).
Qed.

Lemma is_hit_same_key i j :
  cache_key i = cache_key j → is_hit c now i = is_hit c now j.
Proof. unfold is_hit. by intros ->. Qed.

(** The miss list is the requested list without its hits, in order. *)
Lemma split_misses l acc :
  (foldl (cache_step c now) acc l).2
  = acc.2 ++ List.filter (λ i, negb (is_hit c now i)) l.
Proof.
  revert acc. induction l as [|item l IH]; intros acc; simpl.
  - by rewrite app_nil_r.
  - rewrite IH. destruct (is_hit c now item) eqn:Hhit; simpl.
    + apply is_hit_true in Hhit as (entry & Hc & Hage).
      by rewrite (cache_step_hit _ _ _ Hc Hage).
    + rewrite (cache_step_miss _ _ Hhit). simpl. by rewrite <- app_assoc.
Qed.

(** The hit map holds, under each requested key with a live entry, the
    data of that entry, and nothing else new. *)
Lemma split_hits l acc k :
  (foldl (cache_step c now) acc l).1 !! k
  = match c !! k with
    | Some entry =>
        if decide (k ∈ map cache_key l ∧ now - cachedAt entry < CACHE_TTL_MS)
        then Some (data entry) else acc.1 !! k
    | None => acc.1 !! k
    end.
Proof.
  revert acc. induction l as [|item l IH]; intros acc; cbn [foldl map].
  - destruct (c !! k); [|done]. case_decide as H; [|done].
    destruct H as [H _]. by apply elem_of_nil in H.
  - rewrite IH. destruct (is_hit c now item) eqn:Hhit.
    + apply is_hit_true in Hhit as (entry & Hc & Hage).
      rewrite (cache_step_hit _ _ _ Hc Hage). cbn [fst snd].
      destruct (decide (cache_key item = k)) as [<-|Hne].
      * rewrite Hc, lookup_insert_eq.
        split_decides; try done; exfalso; membership.
      * rewrite lookup_insert_ne by done.
        destruct (c !! k) as [e|]; [|done].
        split_decides; try done; exfalso; membership.
    + rewrite (cache_step_miss _ _ Hhit). cbn [fst snd].
      destruct (c !! k) as [e|] eqn:Hk; [|done].
      assert (cache_key item = k → ¬ now - cachedAt e < CACHE_TTL_MS) as Hold.
      { intros <- Hage. assert (is_hit c now item = true); [|congruence].
        apply is_hit_true. eauto. }
      split_decides; try done; exfalso; membership.
Qed.

End CacheFacts.

Lemma getCachedResults_misses stored now l :
  (getCachedResults stored now l).2
  = List.filter (λ i, negb (is_hit (uuidCache (getConfig stored)) now i)) l.
Proof. unfold getCachedResults. by rewrite split_misses. Qed.

Lemma getCachedResults_hits stored now l k :
  (getCachedResults stored now l).1 !! k
  = match uuidCache (getConfig stored) !! k with
    | Some entry =>
        if decide (k ∈ map cache_key l ∧ now - cachedAt entry < CACHE_TTL_MS)
        then Some (data entry) else None
    | None => None
    end.
Proof. unfold getCachedResults. by rewrite split_hits. Qed.

Lemma getCachedResults_hit_item stored now l item :
  item ∈ l →
  is_Some ((getCachedResults stored now l).1 !! cache_key item)
  ↔ is_hit (uuidCache (getConfig stored)) now item = true.
Proof.
  intros Hin. rewrite getCachedResults_hits, is_hit_true.
  destruct (uuidCache (getConfig stored) !! cache_key item) as [entry|].
  - case_decide as H.
    + split; [|by eauto]. intros _. exists entry. by destruct H.
    + split; [by intros []|]. intros (e & He & Hage). simplify_eq.
      exfalso. apply H. split; [|done]. by apply list_elem_of_fmap_2.
  - split; [by intros []|]. by intros (? & ? & ?).
Qed.

Lemma getCachedResults_miss_item stored now l item :
  item ∈ (getCachedResults stored now l).2
  ↔ item ∈ l ∧ is_hit (uuidCache (getConfig stored)) now item = false.
Proof.
  rewrite getCachedResults_misses, !list_elem_of_In, filter_In.
  by rewrite negb_true_iff.
Qed.

(** The loop of [updateCache]: the entries of [newResults] are written
    with the time of the call, the others are kept. *)
Lemma write_entries_lookup (l : list (string * Resolved))
    (c : gmap string CacheEntry) (now : Z) (k : string) :
  NoDup l.*1 →
  foldl (λ c e, <[e.1 := {| data := e.2; cachedAt := now |}]> c) c l !! k
  = match (list_to_map l : gmap string Resolved) !! k with
    | Some d => Some {| data := d; cachedAt := now |}
    | None => c !! k
    end.
Proof.
  revert c. induction l as [|[k' d] l IH]; intros c Hnd; [done|].
  cbn [foldl fmap list_fmap fst snd] in *.
  apply NoDup_cons in Hnd as [Hk' Hnd]. rewrite IH by done.
  rewrite list_to_map_cons.
  destruct (decide (k' = k)) as [->|Hne].
  - rewrite lookup_insert_eq.
    rewrite (not_elem_of_list_to_map_1 l k) by done.
    by rewrite lookup_insert_eq.
  - rewrite !lookup_insert_ne by done. done.
Qed.

Lemma updateCache_lookup stored now newResults k :
  uuidCache (getConfig (updateCache stored now newResults)) !! k
  = match newResults !! k with
    | Some d => Some {| data := d; cachedAt := now |}
    | None => uuidCache (getConfig stored) !! k
    end.
Proof.
  unfold updateCache, setStorage_cache. unfold getConfig at 1.
  cbn [uuidCache stored_uuidCache from_option]. unfold id.
  rewrite write_entries_lookup by apply NoDup_fst_map_to_list.
  by rewrite list_to_map_to_list.
Qed.

(** C4. [getCachedResults] splits the request: under its cache key
    (the lower-cased uuid, which is the uuid itself once the handler has
    normalised the request) every requested item is either in the hit map
    or in the miss list, never in both and never in neither; and the two
    hold nothing that was not requested. *)
Theorem getCachedResults_total_partition
    (stored : Storage) (now : Z) (typedUuids : list TypedUuid) :
  let cached := (getCachedResults stored now typedUuids).1 in
  let uncached := (getCachedResults stored now typedUuids).2 in
  (∀ item, item ∈ typedUuids →
     (is_Some (cached !! cache_key item) ∧ item ∉ uncached)
     ∨ (cached !! cache_key item = None ∧ item ∈ uncached))
  ∧ (∀ item, item ∈ typedUuids →
       Js.toLowerCase (uuid item) = uuid item →
       (is_Some (cached !! uuid item) ∧ item ∉ uncached)
       ∨ (cached !! uuid item = None ∧ item ∈ uncached))
  ∧ (∀ item, item ∈ uncached → item ∈ typedUuids)
  ∧ (∀ key, is_Some (cached !! key) →
       ∃ item, item ∈ typedUuids ∧ cache_key item = key).
Proof.
  intros cached uncached.
  assert (∀ item, item ∈ typedUuids →
     (is_Some (cached !! cache_key item) ∧ item ∉ uncached)
     ∨ (cached !! cache_key item = None ∧ item ∈ uncached)) as Hsplit.
  { intros item Hin. subst cached uncached.
    destruct (is_hit (uuidCache (getConfig stored)) now item) eqn:Hhit.
    - left. split.
      + by apply getCachedResults_hit_item.
      + rewrite getCachedResults_miss_item. intros [_ ?]. congruence.
    - right. split.
      + apply eq_None_not_Some. rewrite getCachedResults_hit_item by done.
        congruence.
      + by apply getCachedResults_miss_item. }
  split; [done|]. split; [|split].
  - intros item Hin Hlow. specialize (Hsplit item Hin).
    unfold cache_key in Hsplit. by rewrite Hlow in Hsplit.
  - intros item Hin. subst uncached.
    by apply getCachedResults_miss_item in Hin as [? _].
  - intros key [d Hd]. subst cached. rewrite getCachedResults_hits in Hd.
    destruct (uuidCache (getConfig stored) !! key); [|done].
    case_decide as H; [|done]. destruct H as [H _].
    apply list_elem_of_fmap in H as (item & -> & Hin). eauto.
Qed.

(** C6. A requested item is a hit exactly when the cache holds an entry
    under its key whose age [now - cachedAt] is below the TTL, which is
    24 hours; the hit carries the data of that entry. With no entry, or
    with an age equal to or above the TTL, the item is a miss. *)
Theorem getCachedResults_hit_iff_live_entry
    (stored : Storage) (now : Z) (typedUuids : list TypedUuid) (item : TypedUuid) :
  item ∈ typedUuids →
  let c := uuidCache (getConfig stored) in
  let cached := (getCachedResults stored now typedUuids).1 in
  let uncached := (getCachedResults stored now typedUuids).2 in
  CACHE_TTL_MS = 86400000
  ∧ (∀ d, cached !! cache_key item = Some d ↔
          ∃ entry, c !! cache_key item = Some entry
                   ∧ now - cachedAt entry < CACHE_TTL_MS
                   ∧ d = data entry)
  ∧ (item ∈ uncached ↔
       c !! cache_key item = None
       ∨ ∃ entry, c !! cache_key item = Some entry
                  ∧ CACHE_TTL_MS ≤ now - cachedAt entry).
Proof.
  intros Hin c cached uncached. split; [done|]. split.
  - intros d. subst cached. rewrite getCachedResults_hits. fold c.
    destruct (c !! cache_key item) as [entry|].
    + case_decide as H.
      * split.
        -- intros [= <-]. exists entry. by destruct H.
        -- intros (e & He & _ & ->). by simplify_eq.
      * split; [done|]. intros (e & He & Hage & _). simplify_eq.
        exfalso. apply H. split; [|done]. by apply list_elem_of_fmap_2.
    + split; [done|]. by intros (? & ? & ?).
  - subst uncached. rewrite getCachedResults_miss_item. fold c.
    unfold is_hit. destruct (c !! cache_key item) as [entry|].
    + rewrite bool_decide_eq_false. split.
      * intros [_ Hage]. right. exists entry. split; [done|lia].
      * intros [|(e & He & Hage)]; [done|]. simplify_eq. split; [done|lia].
    + split; [by left|done].
Qed.

(** [updateCache] files an entry under the key it is given,
    [getCachedResults] looks under the lower-cased uuid. For a result map
    whose keys are lower-case, merging it and then asking for ids of that
    map less than the TTL after the merge gives no miss, and every id
    asked is a hit with the merged value; asked for all its ids, the hit
    map is the merged map. *)
Lemma merge_then_split_lower_case_keys
    (stored : Storage) (t_merge t_split : Z)
    (fresh : gmap string Resolved) (typedUuids : list TypedUuid) :
  (∀ k, is_Some (fresh !! k) → Js.toLowerCase k = k) →
  (∀ item, item ∈ typedUuids → is_Some (fresh !! uuid item)) →
  t_split - t_merge < CACHE_TTL_MS →
  let split := getCachedResults (updateCache stored t_merge fresh) t_split typedUuids in
  split.2 = []
  ∧ (∀ item, item ∈ typedUuids → split.1 !! uuid item = fresh !! uuid item)
  ∧ ((∀ k, is_Some (fresh !! k) → ∃ item, item ∈ typedUuids ∧ uuid item = k) →
     split.1 = fresh).
Proof.
  intros Hlow Hask Hage split.
  assert (∀ item, item ∈ typedUuids → cache_key item = uuid item) as Hkey.
  { intros item Hin. apply Hlow. by apply Hask. }
  assert (∀ k, k ∈ map cache_key typedUuids → split.1 !! k = fresh !! k) as Hhit.
  { intros k Hk. subst split. rewrite getCachedResults_hits, updateCache_lookup.
    apply list_elem_of_fmap in Hk as (item & -> & Hin).
    rewrite (Hkey item Hin). destruct (Hask item Hin) as [d ->].
    cbn [cachedAt data]. case_decide as H; [done|].
    exfalso. apply H. split; [|done].
    rewrite <- (Hkey item Hin). by apply list_elem_of_fmap_2. }
  split; [|split].
  - apply elem_of_nil_inv. intros item. subst split.
    rewrite getCachedResults_miss_item. intros [Hin Hmiss].
    assert (is_hit (uuidCache (getConfig (updateCache stored t_merge fresh)))
              t_split item = true); [|congruence].
    apply is_hit_true. rewrite updateCache_lookup, (Hkey item Hin).
    destruct (Hask item Hin) as [d ->]. eauto.
  - intros item Hin. apply Hhit. rewrite <- (Hkey item Hin).
    by apply list_elem_of_fmap_2.
  - intros Hall. apply map_eq. intros k.
    destruct (fresh !! k) as [d|] eqn:Hk.
    + destruct (Hall k) as (item & Hin & <-); [by eauto|].
      rewrite <- Hk. apply Hhit. rewrite <- (Hkey item Hin).
      by apply list_elem_of_fmap_2.
    + subst split. rewrite getCachedResults_hits, updateCache_lookup, Hk.
      destruct (uuidCache (getConfig stored) !! k) as [e|]; [|done].
      case_decide as H; [|done]. destruct H as [H _].
      apply list_elem_of_fmap in H as (item & -> & Hin).
      rewrite (Hkey item Hin) in Hk. destruct (Hask item Hin) as [? ?].
      congruence.
Qed.

(** ** Remote query executor *)

Section ExecutorFacts.

Variable JSON_stringify : Status → string.

Lemma poll_terminal d resps n :
  still_running d = false → poll d resps n = (Returned d, n).
Proof. intros H. destruct resps; simpl; by rewrite H. Qed.

(** While the answers are PENDING or RUNNING the loop asks again; it
    stops at the first answer that is neither, and returns it. *)
Lemma poll_until_terminal mid : ∀ d final n,
  still_running d = true →
  Forall keeps_polling mid →
  ok final = true →
  still_running (json final) = false →
  poll d (mid ++ [final]) n = (Returned (json final), (n + length mid + 1)%nat).
Proof.
  induction mid as [|r mid IH]; intros d final n Hd Hmid Hok Hfin.
  - cbn [app poll length]. rewrite Hd, Hok, Hfin.
    f_equal. lia.
  - apply Forall_cons in Hmid as [[Hr Hrun] Hmid].
    cbn [app poll length]. rewrite Hd, Hr, IH by done.
    f_equal. lia.
Qed.

Lemma state_is_eq st s : state_is st s = true ↔ state st = Some s.
Proof.
  unfold state_is. destruct (state st) as [x|]; [|done].
  rewrite String.eqb_eq. split; congruence.
Qed.

Lemma terminal_not_running d st s :
  status d = Some st → state st = Some s →
  s ≠ "PENDING"%string → s ≠ "RUNNING"%string →
  still_running d = false.
Proof.
  intros Hst Hs Hp Hr. unfold still_running, state_is. rewrite Hst, Hs.
  apply orb_false_intro; by apply String.eqb_neq.
Qed.

(** The call as a whole on a run of answers that ends with the first
    terminal one. *)
Lemma executeSql_run submit polls pre final :
  submit :: polls = pre ++ [final] →
  Forall keeps_polling pre →
  ok final = true →
  still_running (json final) = false →
  ok submit = true
  ∧ poll (json submit) polls 0 = (Returned (json final), length pre).
Proof.
  intros Hseq Hpre Hok Hfin. destruct pre as [|r pre].
  - cbn [app] in Hseq. simplify_eq. split; [done|].
    by rewrite poll_terminal.
  - cbn [app] in Hseq. simplify_eq.
    apply Forall_cons in Hpre as [[Hr Hrun] Hpre]. split; [done|].
    rewrite poll_until_terminal by done. f_equal.
    cbn [length]. lia.
Qed.

(** The call on a run of answers that ends SUCCEEDED. *)
Lemma executeSql_succeeded submit polls pre final st :
  submit :: polls = pre ++ [final] →
  Forall keeps_polling pre →
  ok final = true →
  status (json final) = Some st →
  state st = Some "SUCCEEDED"%string →
  executeSql JSON_stringify {| submitResp := submit; pollResps := polls |}
  = (Returned (json final), length pre).
Proof.
  intros Hseq Hpre Hok Hst Hstate.
  destruct (executeSql_run submit polls pre final) as [Hsub Hpoll]; try done.
  { by eapply terminal_not_running. }
  unfold executeSql. cbn [submitResp pollResps]. rewrite Hsub, Hpoll, Hst.
  replace (state_is st "FAILED") with false; [done|].
  symmetry. apply not_true_is_false. rewrite state_is_eq. congruence.
Qed.

(** The call on a run of answers that ends FAILED. *)
Lemma executeSql_failed submit polls pre final st :
  submit :: polls = pre ++ [final] →
  Forall keeps_polling pre →
  ok final = true →
  status (json final) = Some st →
  state st = Some "FAILED"%string →
  executeSql JSON_stringify {| submitResp := submit; pollResps := polls |}
  = (Thrown ("SQL failed: " +:+ errMsg JSON_stringify st), length pre).
Proof.
  intros Hseq Hpre Hok Hst Hstate.
  destruct (executeSql_run submit polls pre final) as [Hsub Hpoll]; try done.
  { by eapply terminal_not_running. }
  unfold executeSql. cbn [submitResp pollResps]. rewrite Hsub, Hpoll, Hst.
  by rewrite (proj2 (state_is_eq st "FAILED") Hstate).
Qed.

(** A non-empty [message] in the error payload is the message kept. *)
Lemma errMsg_message st x :
  status_error st = Some {| message := Some x |} → x ≠ ""%string →
  errMsg JSON_stringify st = x.
Proof.
  intros Hx Hne. unfold errMsg. rewrite Hx. cbn [mbind option_bind message].
  by rewrite (proj2 (String.eqb_neq x "") Hne).
Qed.

(** C3. On a sequence of answers (to the submission, then to the polls)
    that are PENDING or RUNNING until a final one, the executor polls
    once per non-final answer. If the final state is SUCCEEDED it returns
    the final response, hence the rows of that response only, whatever
    they are; if it is FAILED it throws an error whose message is
    [SQL failed: ] followed by the message drawn from the error payload,
    which is the payload's [message] when there is a non-empty one. *)
Theorem executeSql_polls_until_terminal
    (submit : Response) (polls pre : list Response) (final : Response)
    (st : Status) :
  submit :: polls = pre ++ [final] →
  Forall keeps_polling pre →
  ok final = true →
  status (json final) = Some st →
  let run := executeSql JSON_stringify
               {| submitResp := submit; pollResps := polls |} in
  (state st = Some "SUCCEEDED"%string →
     run = (Returned (json final), length pre)
     ∧ ∀ d, run.1 = Returned d → rows_of d = rows_of (json final))
  ∧ (state st = Some "FAILED"%string →
     run = (Thrown ("SQL failed: " +:+ errMsg JSON_stringify st), length pre)
     ∧ ∀ x, status_error st = Some {| message := Some x |} → x ≠ ""%string →
            run = (Thrown ("SQL failed: " +:+ x), length pre)).
Proof.
  intros Hseq Hpre Hok Hst run. split; intros Hstate.
  - assert (run = (Returned (json final), length pre)) as Hrun
      by by eapply executeSql_succeeded.
    split; [done|]. intros d. rewrite Hrun. by intros [= <-].
  - assert (run = (Thrown ("SQL failed: " +:+ errMsg JSON_stringify st), length pre))
      as Hrun by by eapply executeSql_failed.
    split; [done|]. intros x Hx Hne. by rewrite Hrun, (errMsg_message st x).
Qed.

End ExecutorFacts.

(** ** Typed resolver *)

Lemma append_cons (x : ascii) (a b : string) :
  String x a +:+ b = String x (a +:+ b).
Proof. reflexivity. Qed.

Lemma append_assoc (a b c : string) : (a +:+ b) +:+ c = a +:+ b +:+ c.
Proof.
  induction a as [|x a IH]; [reflexivity|].
  rewrite !append_cons. f_equal. exact IH.
Qed.

(** An entry found after an assignment is the one assigned, under a key
    other than [__proto__], or was there before. *)
Lemma assign_lookup_Some {V} (key k : string) (value x : V) (obj : gmap string V) :
  assign key value obj !! k = Some x →
  (k = key ∧ x = value ∧ key ≠ "__proto__"%string) ∨ obj !! k = Some x.
Proof.
  unfold assign. destruct (String.eqb key "__proto__") eqn:Hkey; [by right|].
  apply String.eqb_neq in Hkey. intros Hk.
  apply lookup_insert_Some in Hk as [[<- <-]|[_ ?]]; [by left|by right].
Qed.

Lemma assign_lookup_proto {V} (key : string) (value : V) (obj : gmap string V) :
  assign key value obj !! "__proto__"%string = obj !! "__proto__"%string.
Proof.
  unfold assign. destruct (String.eqb key "__proto__") eqn:Hkey; [done|].
  apply String.eqb_neq in Hkey. by rewrite lookup_insert_ne.
Qed.

Lemma table_row_run row s :
  (∃ subDir, nth 3 row VUndefined = VStr subDir
     ∧ table_row row s
       = (Returned tt,
          {| results := assign (table_key subDir) (table_entry row) (results s);
             calls := calls s; console_error := console_error s |}))
  ∨ (∃ msg, table_row row s = (Thrown msg, s)).
Proof.
  unfold table_row. destruct (nth 3 row VUndefined) as [subDir| |].
  - left. by exists subDir.
  - right. by eexists.
  - right. by eexists.
Qed.

(** The loop over the rows of the table statement: it issues nothing and
    logs nothing, it may stop on a TypeError, and what it has written by
    then comes from rows of the statement. *)
Lemma table_rows_run (rows : list (list Value)) : ∀ s,
  ∃ o s', for_each rows table_row s = (o, s')
    ∧ calls s' = calls s
    ∧ console_error s' = console_error s
    ∧ (o = Returned tt ∨ ∃ msg, o = Thrown msg)
    ∧ ∀ k v, results s' !! k = Some v →
        results s !! k = Some v
        ∨ ∃ row subDir, row ∈ rows
            ∧ nth 3 row VUndefined = VStr subDir
            ∧ k = table_key subDir
            ∧ v = table_entry row.
Proof.
  induction rows as [|row rows IH]; intros s.
  - exists (Returned tt), s. cbn. repeat split; auto.
  - cbn [for_each]. unfold bind.
    destruct (table_row_run row s) as [(subDir & Hsub & ->)|(msg & ->)].
    + match goal with |- context [for_each rows table_row ?s1] =>
        destruct (IH s1) as (o & s' & Hrun & Hcalls & Hlog & Ho & Hres) end.
      exists o, s'. rewrite Hrun. repeat split; try done.
      intros k v Hk. destruct (Hres k v Hk) as [Hold|(r & sd & Hin & ? & ? & ?)].
      * cbn [results] in Hold.
        apply assign_lookup_Some in Hold as [(-> & -> & _)|?].
        -- right. exists row, subDir. repeat split; try done. apply list_elem_of_here.
        -- by left.
      * right. exists r, sd. repeat split; try done. by apply list_elem_of_further.
    + exists (Thrown msg), s. repeat split; eauto.
Qed.

Section ResolverFacts.

Variable JSON_stringify : Status → string.
Variable net : nat → SqlCall → Exchange.
Variable config : Config.
Variable asked : list TypedUuid.

Abbreviation exec := (exec JSON_stringify net).
Abbreviation produced := (produced JSON_stringify net asked).
Abbreviation run_inv := (run_inv JSON_stringify net asked).
Abbreviation meets := (meets JSON_stringify net asked).

Lemma meets_ret : meets (ret tt) [].
Proof.
  intros s o s' [= <- <-]. split; [|by left|done].
  exists []. by rewrite app_nil_r.
Qed.

Lemma meets_bind m1 m2 e1 e2 :
  meets m1 e1 → meets m2 e2 → meets (let* _ := m1 in m2) (e1 ++ e2).
Proof.
  intros H1 H2 s o s' Hrun. unfold bind in Hrun.
  destruct (m1 s) as [o1 s1] eqn:E1. specialize (H1 _ _ _ E1).
  destruct H1 as [(i1 & Hc1 & Hp1 & Hr1) Ho1 Hinv1].
  destruct o1 as [[]|msg|].
  - specialize (H2 _ _ _ Hrun).
    destruct H2 as [(i2 & Hc2 & Hp2 & Hr2) Ho2 Hinv2].
    rewrite (Hr1 eq_refl) in Hc1. split; [|done|by auto].
    exists (e1 ++ i2). rewrite Hc2, Hc1, app_assoc. split; [done|].
    split; [by apply prefix_app|]. intros Ho. by rewrite (Hr2 Ho).
  - by destruct Ho1 as [|[? _]].
  - simplify_eq. split; [|done|done].
    exists i1. split; [done|]. split; [by apply prefix_app_r|done].
Qed.

Lemma meets_for_each {A} (l : list A) (body : A → M unit) (e : A → SqlCall) :
  (∀ x, x ∈ l → meets (body x) [e x]) →
  meets (for_each l body) (map e l).
Proof.
  induction l as [|x l IH]; intros Hbody; cbn [for_each map].
  - apply meets_ret.
  - change (e x :: map e l) with ([e x] ++ map e l). apply meets_bind.
    + apply Hbody, list_elem_of_here.
    + apply IH. intros y Hy. by apply Hbody, list_elem_of_further.
Qed.

Lemma produced_mono s s' issued k v :
  calls s' = calls s ++ issued → produced s k v → produced s' k v.
Proof.
  intros Hc (n & c & d & Hn & He & Hd). exists n, c, d.
  rewrite Hc. split; [by apply lookup_app_l_Some|done].
Qed.

Lemma logged_mono lines more msg :
  logged lines msg → logged (lines ++ more) msg.
Proof.
  intros (line & heading & Hin & Hline). exists line, heading.
  split; [|done]. apply elem_of_app. by left.
Qed.

(** One statement: the shape shared by the three groups. The call is
    issued; if it returns, [handle] reads the data (and may throw); any
    error is caught and logged under a heading. *)
Lemma meets_one_call (sql : string) (handle : Data → M unit)
    (line : string → string) :
  (∀ err, ∃ heading, line err = heading +:+ err) →
  (∀ d s, ∃ o s', handle d s = (o, s')
      ∧ calls s' = calls s
      ∧ console_error s' = console_error s
      ∧ (o = Returned tt ∨ ∃ msg, o = Thrown msg)
      ∧ ∀ k v, results s' !! k = Some v →
          results s !! k = Some v ∨ derived asked (sql_call config sql) d k v) →
  meets
    (try_catch
       (let* result := call_executeSql JSON_stringify net (workspaceUrl config)
                         (patToken config) (warehouseId config) sql in
        handle result)
       (λ err, log_error (line err)))
    [sql_call config sql].
Proof.
  intros Hline Hhandle s o s' Hrun.
  unfold try_catch, bind, call_executeSql in Hrun.
  fold (sql_call config sql) in Hrun.
  fold (exec (length (calls s)) (sql_call config sql)) in Hrun.
  set (c := sql_call config sql) in *.
  set (s1 := {| results := results s; calls := calls s ++ [c];
                console_error := console_error s |}) in *.
  assert (calls s1 !! length (calls s) = Some c) as Hnew.
  { by apply list_lookup_middle. }
  assert (∀ n c', calls s1 !! n = Some c' →
            calls s !! n = Some c' ∨ (n = length (calls s) ∧ c' = c)) as Hcases.
  { intros n c' Hn. cbn [calls s1] in Hn.
    apply lookup_app_Some in Hn as [?|[? Hn]]; [by left|right].
    apply list_lookup_singleton_Some in Hn as [? ?]. split; [lia|done]. }
  destruct (exec (length (calls s)) c) as [d|msg|] eqn:Hexec.
  - destruct (Hhandle d s1) as (o1 & s2 & Hh & Hc2 & Hl2 & Ho1 & Hres).
    rewrite Hh in Hrun.
    assert (run_inv s → ∀ more,
              run_inv {| results := results s2; calls := calls s2;
                         console_error := console_error s2 ++ more |}) as Hkeep.
    { intros [Hprod Hlog] more. split; cbn [results calls console_error].
      - intros k v Hk. destruct (Hres k v Hk) as [Hold|Hder].
        + apply (produced_mono s _ [c]); [by rewrite Hc2|]. by apply Hprod.
        + exists (length (calls s)), c, d. by rewrite Hc2.
      - intros n c' msg Hn Hthrown. rewrite Hc2 in Hn.
        destruct (Hcases n c' Hn) as [Hold|[-> ->]]; [|congruence].
        rewrite Hl2. apply logged_mono. by eapply Hlog. }
    destruct Ho1 as [->|[msg ->]].
    + simplify_eq. split.
      * exists [c]. by rewrite Hc2.
      * by left.
      * intros Hinv. specialize (Hkeep Hinv []).
        rewrite app_nil_r in Hkeep. by destruct s'.
    + unfold log_error in Hrun. simplify_eq. split.
      * exists [c]. by rewrite Hc2.
      * by left.
      * intros Hinv. apply (Hkeep Hinv).
  - unfold log_error in Hrun. simplify_eq. split.
    + by exists [c].
    + by left.
    + intros [Hprod Hlog]. split; cbn [results calls console_error].
      * intros k v Hk. apply (produced_mono s _ [c]); [done|]. by apply Hprod.
      * intros n c' msg' Hn Hthrown.
        destruct (Hcases n c' Hn) as [Hold|[-> ->]].
        -- apply logged_mono. by eapply Hlog.
        -- assert (msg' = msg) as -> by congruence.
           destruct (Hline msg) as [heading Hh].
           exists (line msg), heading. split; [|done].
           apply elem_of_app. right. apply list_elem_of_here.
  - simplify_eq. split.
    + exists [c]. split; [done|]. split; [done|]. done.
    + right. split; [done|]. by exists (length (calls s)), c.
    + intros [Hprod Hlog]. split; cbn [results calls console_error].
      * intros k v Hk. apply (produced_mono s _ [c]); [done|]. by apply Hprod.
      * intros n c' msg' Hn Hthrown.
        destruct (Hcases n c' Hn) as [Hold|[-> ->]]; [|congruence].
        by eapply Hlog.
Qed.

End ResolverFacts.

Section ResolveUuidsFacts.

Variable JSON_stringify : Status → string.
Variable net : nat → SqlCall → Exchange.
Variable config : Config.
Variable asked : list TypedUuid.

Abbreviation meets := (meets JSON_stringify net asked).
Abbreviation resolve_groups := (resolve_groups JSON_stringify net config).

Lemma meets_resolve_tables :
  meets (resolve_tables JSON_stringify net config (of_type "table" asked))
    [sql_call config (table_statement (of_type "table" asked))].
Proof.
  unfold resolve_tables. cbv zeta.
  apply (meets_one_call JSON_stringify net config asked
           (table_statement (of_type "table" asked))
           (λ result, match rows_of result with
                      | Some rows => for_each rows table_row
                      | None => ret tt
                      end)
           (λ err, "[S3 Lens BG] Table lookup failed: " +:+ err)).
  - intros err. by eexists.
  - intros d s. destruct (rows_of d) as [rows|] eqn:Hrows.
    + destruct (table_rows_run rows s) as (o & s' & Hrun & ? & ? & ? & Hres).
      exists o, s'. repeat split; try done.
      intros k v Hk. destruct (Hres k v Hk) as [?|(row & sd & ? & ? & ? & ?)].
      * by left.
      * right. by eapply derived_table.
    + exists (Returned tt), s. repeat split; auto.
Qed.

Lemma meets_resolve_schema u :
  u ∈ of_type "schema" asked →
  meets (resolve_schema JSON_stringify net config u)
    [sql_call config (schema_sql (uuid u))].
Proof.
  intros Hu. unfold resolve_schema. cbv zeta.
  apply (meets_one_call JSON_stringify net config asked
           (schema_sql (uuid u))
           (λ result, match rows_of result with
                      | Some (row :: _) =>
                          set_result (uuid u)
                            {| r_type := "schema";
                               fullName := VStr (template (nth 0 row VUndefined)
                                                   +:+ "." +:+ template (nth 1 row VUndefined)) |}
                      | _ => ret tt
                      end)
           (λ err, "[S3 Lens BG] Schema lookup failed for " +:+ uuid u
                     +:+ " : " +:+ err)).
  - intros err. exists ("[S3 Lens BG] Schema lookup failed for " +:+ uuid u +:+ " : ").
    by rewrite !append_assoc.
  - intros d s. destruct (rows_of d) as [[|row rest]|] eqn:Hrows.
    + exists (Returned tt), s. repeat split; auto.
    + eexists (Returned tt), _. split; [reflexivity|].
      repeat split; auto. cbn [results]. intros k v Hk.
      apply assign_lookup_Some in Hk as [(-> & -> & _)|?]; [right|by left].
      by eapply derived_schema.
    + exists (Returned tt), s. repeat split; auto.
Qed.

Lemma meets_resolve_catalog u :
  u ∈ of_type "catalog" asked →
  meets (resolve_catalog JSON_stringify net config u)
    [sql_call config (catalog_sql (uuid u))].
Proof.
  intros Hu. unfold resolve_catalog. cbv zeta.
  apply (meets_one_call JSON_stringify net config asked
           (catalog_sql (uuid u))
           (λ result, match rows_of result with
                      | Some (row :: _) =>
                          set_result (uuid u)
                            {| r_type := "catalog";
                               fullName := nth 0 row VUndefined |}
                      | _ => ret tt
                      end)
           (λ err, "[S3 Lens BG] Catalog lookup failed for " +:+ uuid u
                     +:+ " : " +:+ err)).
  - intros err. exists ("[S3 Lens BG] Catalog lookup failed for " +:+ uuid u +:+ " : ").
    by rewrite !append_assoc.
  - intros d s. destruct (rows_of d) as [[|row rest]|] eqn:Hrows.
    + exists (Returned tt), s. repeat split; auto.
    + eexists (Returned tt), _. split; [reflexivity|].
      repeat split; auto. cbn [results]. intros k v Hk.
      apply assign_lookup_Some in Hk as [(-> & -> & _)|?]; [right|by left].
      by eapply derived_catalog.
    + exists (Returned tt), s. repeat split; auto.
Qed.

Lemma bind_assoc {A B C} (m : M A) (f : A → M B) (g : B → M C) s :
  bind (bind m f) g s = bind m (λ x, bind (f x) g) s.
Proof. unfold bind. by destruct (m s) as [[a|msg|] s1]. Qed.

Lemma meets_guarded_for_each (l : list TypedUuid) body e :
  (∀ u, u ∈ l → meets (body u) [e u]) →
  meets (if (0 <? length l)%nat then for_each l body else ret tt) (map e l).
Proof.
  intros Hbody. destruct l as [|u l]; [apply meets_ret|].
  by apply meets_for_each.
Qed.

Lemma expected_calls_groups typedUuids :
  expected_calls config typedUuids
  = (if (0 <? length (of_type "table" (valid_uuids typedUuids)))%nat
     then [sql_call config (table_statement (of_type "table" (valid_uuids typedUuids)))]
     else [])
    ++ map (λ u, sql_call config (schema_sql (uuid u)))
           (of_type "schema" (valid_uuids typedUuids))
    ++ map (λ u, sql_call config (catalog_sql (uuid u)))
           (of_type "catalog" (valid_uuids typedUuids)).
Proof. reflexivity. Qed.

Lemma meets_resolve_groups typedUuids :
  asked = valid_uuids typedUuids →
  meets (resolve_groups asked) (expected_calls config typedUuids).
Proof.
  intros Hasked. rewrite expected_calls_groups, <- Hasked.
  unfold resolve_groups. apply meets_bind; [|apply meets_bind].
  - destruct (0 <? length (of_type "table" asked))%nat.
    + apply meets_resolve_tables.
    + apply meets_ret.
  - apply meets_guarded_for_each. apply meets_resolve_schema.
  - apply meets_guarded_for_each. apply meets_resolve_catalog.
Qed.

Lemma resolveUuids_groups typedUuids s :
  resolveUuids JSON_stringify net typedUuids config s
  = (let* _ := resolve_groups (valid_uuids typedUuids) in get_results) s.
Proof.
  unfold resolveUuids. fold (valid_uuids typedUuids).
  destruct (length typedUuids =? 0)%nat eqn:Hlen.
  { apply Nat.eqb_eq, nil_length_inv in Hlen. by subst. }
  destruct (length (valid_uuids typedUuids) =? 0)%nat eqn:Hvalid.
  { apply Nat.eqb_eq, nil_length_inv in Hvalid. by rewrite Hvalid. }
  unfold resolve_groups. fold (of_type "table" (valid_uuids typedUuids)).
  fold (of_type "schema" (valid_uuids typedUuids)).
  fold (of_type "catalog" (valid_uuids typedUuids)).
  rewrite !bind_assoc. unfold bind.
  match goal with |- context [(if ?b then ?m else ret tt) s] =>
    destruct ((if b then m else ret tt) s) as [[[]|?|] s1] end; try done.
  match goal with |- context [(if ?b then ?m else ret tt) s1] =>
    destruct ((if b then m else ret tt) s1) as [[[]|?|] s2] end; done.
Qed.

End ResolveUuidsFacts.

Section RunFacts.

Variable JSON_stringify : Status → string.
Variable net : nat → SqlCall → Exchange.

Lemma run_inv_fresh asked : run_inv JSON_stringify net asked fresh_run.
Proof.
  split.
  - intros k v Hk. cbn [results fresh_run] in Hk. by rewrite lookup_empty in Hk.
  - intros n c msg Hn. cbn [calls fresh_run] in Hn. by rewrite lookup_nil in Hn.
Qed.

(** A run of the resolver from scratch, in one statement. *)
Lemma resolveUuids_run typedUuids config :
  ∃ o s',
    resolve_groups JSON_stringify net config (valid_uuids typedUuids) fresh_run
    = (o, s')
    ∧ step_spec JSON_stringify net (valid_uuids typedUuids)
        (expected_calls config typedUuids) fresh_run o s'
    ∧ run_inv JSON_stringify net (valid_uuids typedUuids) s'
    ∧ resolveUuids JSON_stringify net typedUuids config fresh_run
      = (match o with
         | Returned _ => Returned (results s')
         | Thrown msg => Thrown msg
         | Pending => Pending
         end, s').
Proof.
  destruct (resolve_groups JSON_stringify net config (valid_uuids typedUuids)
              fresh_run) as [o s'] eqn:Hrun.
  exists o, s'. split; [done|].
  assert (step_spec JSON_stringify net (valid_uuids typedUuids)
            (expected_calls config typedUuids) fresh_run o s') as Hstep.
  { by apply (meets_resolve_groups JSON_stringify net config
                (valid_uuids typedUuids) typedUuids eq_refl). }
  split; [done|]. split.
  - apply (step_inv _ _ _ _ _ _ _ Hstep), run_inv_fresh.
  - rewrite resolveUuids_groups. unfold bind. rewrite Hrun.
    by destruct o.
Qed.

(** If the endpoint leaves no statement pending, the resolver returns,
    having made exactly the expected calls. It never throws. *)
Lemma resolveUuids_returns typedUuids config :
  (∀ n c, exec JSON_stringify net n c ≠ Pending) →
  ∃ s', resolveUuids JSON_stringify net typedUuids config fresh_run
        = (Returned (results s'), s')
    ∧ calls s' = expected_calls config typedUuids
    ∧ run_inv JSON_stringify net (valid_uuids typedUuids) s'.
Proof.
  intros Hnet.
  destruct (resolveUuids_run typedUuids config)
    as (o & s' & _ & [(issued & Hc & _ & Hall) Ho _] & Hinv & Hrun).
  destruct Ho as [->|[_ (n & c & Hp)]]; [|by destruct (Hnet n c)].
  exists s'. split; [done|]. split; [|done].
  rewrite Hc. cbn [calls fresh_run app]. by apply Hall.
Qed.

Lemma lookupUuids_resolving stored now_split now_merge uuids :
  (getCachedResults stored now_split (normalise uuids)).2 ≠ [] →
  patToken (getConfig stored) ≠ ""%string →
  lookupUuids JSON_stringify net stored now_split now_merge uuids
  = match resolveUuids JSON_stringify net
            (getCachedResults stored now_split (normalise uuids)).2
            (getConfig stored) fresh_run with
    | (Returned freshResults, s) =>
        (Returned {| matches := freshResults
                                ∪ (getCachedResults stored now_split (normalise uuids)).1;
                     error := None |},
         {| storage := updateCache stored now_merge freshResults;
            sql_calls := calls s;
            error_log := console_error s |})
    | (Thrown msg, s) =>
        (Returned {| matches := (getCachedResults stored now_split (normalise uuids)).1;
                     error := Some msg |},
         {| storage := stored;
            sql_calls := calls s;
            error_log := console_error s
                           ++ ["[S3 Lens BG] Resolution failed: " +:+ msg] |})
    | (Pending, s) =>
        (Pending,
         {| storage := stored;
            sql_calls := calls s;
            error_log := console_error s |})
    end.
Proof.
  intros Hmiss Htoken. unfold lookupUuids. fold (normalise uuids).
  destruct (getCachedResults stored now_split (normalise uuids))
    as [cached uncached] eqn:Hsplit.
  cbn [fst snd] in *.
  destruct (length (normalise uuids) =? 0)%nat eqn:Hlen.
  { apply Nat.eqb_eq, nil_length_inv in Hlen. rewrite Hlen in Hsplit.
    cbn in Hsplit. by simplify_eq. }
  destruct uncached as [|u uncached]; [done|]. cbn [length Nat.ltb Nat.leb].
  by rewrite (proj2 (String.eqb_neq _ _) Htoken).
Qed.

(** Any call at all means that there were misses and a token. *)
Lemma lookupUuids_called stored now_split now_merge uuids n c :
  sql_calls (lookupUuids JSON_stringify net stored now_split now_merge uuids).2
    !! n = Some c →
  (getCachedResults stored now_split (normalise uuids)).2 ≠ []
  ∧ patToken (getConfig stored) ≠ ""%string.
Proof.
  unfold lookupUuids. fold (normalise uuids).
  destruct (getCachedResults stored now_split (normalise uuids))
    as [cached uncached] eqn:Hsplit.
  cbn [fst snd].
  destruct (length (normalise uuids) =? 0)%nat; [done|].
  destruct uncached as [|u uncached]; [done|]. cbn [length Nat.ltb Nat.leb].
  destruct (String.eqb (patToken (getConfig stored)) "") eqn:Htoken; [done|].
  intros _. split; [done|]. by apply String.eqb_neq.
Qed.

End RunFacts.

Lemma valid_uuids_all typedUuids :
  Forall (λ u, UUID_RE_test (uuid u) = true) typedUuids →
  valid_uuids typedUuids = typedUuids.
Proof.
  induction 1 as [|u l Hu _ IH]; [done|].
  unfold valid_uuids in *. cbn [List.filter]. by rewrite Hu, IH.
Qed.

Lemma valid_uuids_idem typedUuids :
  valid_uuids (valid_uuids typedUuids) = valid_uuids typedUuids.
Proof.
  apply valid_uuids_all, Forall_forall. intros u Hu.
  apply list_elem_of_In in Hu. unfold valid_uuids in Hu.
  by apply filter_In in Hu as [_ ?].
Qed.

Lemma elem_of_of_type_valid t typedUuids u :
  u ∈ of_type t (valid_uuids typedUuids) →
  u ∈ typedUuids ∧ UUID_RE_test (uuid u) = true ∧ type u = t.
Proof.
  unfold of_type, valid_uuids. rewrite list_elem_of_In, !filter_In.
  intros [[Hin Hvalid] Htype]. rewrite <- list_elem_of_In in Hin.
  unfold has_type in Htype. by apply String.eqb_eq in Htype.
Qed.

(** ** The characters of an identifier that passes the pattern *)

Lemma hexes_chars (P : string → Prop) n :
  (∀ c s, Js.is_hex c = true → P s → P (String c s)) →
  ∀ s r, Js.hexes n s = Some r → P r → P s.
Proof.
  intros Hhex. induction n as [|n IH]; intros s r; cbn [Js.hexes].
  - by intros [= ->].
  - destruct s as [|c s]; [done|].
    destruct (Js.is_hex c) eqn:Hc; [|done]. intros Hs Hr.
    apply Hhex; [done|]. by eapply IH.
Qed.

Lemma dash_chars (P : string → Prop) :
  (∀ s, P s → P (String "-" s)) →
  ∀ s r, Js.dash s = Some r → P r → P s.
Proof.
  intros Hdash s r. destruct s as [|c s]; [done|]. cbn [Js.dash].
  destruct c as [[] [] [] [] [] [] [] []]; try done.
  intros [= ->]. apply Hdash.
Qed.

(** A property of the empty string that hex digits and dashes in front
    preserve holds of every identifier that passes the pattern. *)
Lemma UUID_RE_chars (P : string → Prop) :
  P ""%string →
  (∀ c s, Js.is_hex c = true → P s → P (String c s)) →
  (∀ s, P s → P (String "-" s)) →
  ∀ s, UUID_RE_test s = true → P s.
Proof.
  intros Hnil Hhex Hdash s. unfold UUID_RE_test.
  destruct (Js.hexes 8 s) as [s1|] eqn:H1; cbn [mbind option_bind]; [|done].
  destruct (Js.dash s1) as [s2|] eqn:H2; cbn [mbind option_bind]; [|done].
  destruct (Js.hexes 4 s2) as [s3|] eqn:H3; cbn [mbind option_bind]; [|done].
  destruct (Js.dash s3) as [s4|] eqn:H4; cbn [mbind option_bind]; [|done].
  destruct (Js.hexes 4 s4) as [s5|] eqn:H5; cbn [mbind option_bind]; [|done].
  destruct (Js.dash s5) as [s6|] eqn:H6; cbn [mbind option_bind]; [|done].
  destruct (Js.hexes 4 s6) as [s7|] eqn:H7; cbn [mbind option_bind]; [|done].
  destruct (Js.dash s7) as [s8|] eqn:H8; cbn [mbind option_bind]; [|done].
  destruct (Js.hexes 12 s8) as [[|c r]|] eqn:H9; [|done|done].
  intros _.
  apply (hexes_chars P _ Hhex _ _ H1), (dash_chars P Hdash _ _ H2),
        (hexes_chars P _ Hhex _ _ H3), (dash_chars P Hdash _ _ H4),
        (hexes_chars P _ Hhex _ _ H5), (dash_chars P Hdash _ _ H6),
        (hexes_chars P _ Hhex _ _ H7), (dash_chars P Hdash _ _ H8),
        (hexes_chars P _ Hhex _ _ H9).
  exact Hnil.
Qed.

(** ** The text of the statements *)

Lemma append_nil_l (s : string) : "" +:+ s = s.
Proof. reflexivity. Qed.

Lemma occurrences_of_skip (p c : ascii) (pat s : string) :
  Ascii.eqb p c = false →
  occurrences_of (String p pat) (String c s) = occurrences_of (String p pat) s.
Proof. intros H. cbn [occurrences_of Js.startsWith]. by rewrite H. Qed.

Lemma occurrences_of_hit (pat : string) (c : ascii) (s : string) :
  Js.startsWith pat (String c s) = true →
  occurrences_of pat (String c s) = S (occurrences_of pat s).
Proof. intros H. cbn [occurrences_of]. by rewrite H. Qed.

(** A pattern whose first character is nowhere in a text occurs nowhere
    in it. *)
Lemma occurrences_of_none (p : ascii) (pat s : string) :
  all_chars (λ c, negb (Ascii.eqb p c)) s = true →
  occurrences_of (String p pat) s = 0%nat.
Proof.
  induction s as [|c s IH]; [done|]. cbn [all_chars].
  intros [Hc Hs]%andb_true_iff. apply negb_true_iff in Hc.
  rewrite occurrences_of_skip by done. by apply IH.
Qed.

Lemma all_chars_app f a b :
  all_chars f (a +:+ b) = all_chars f a && all_chars f b.
Proof.
  induction a as [|c a IH]; [done|].
  rewrite append_cons. cbn [all_chars]. by rewrite IH, andb_assoc.
Qed.

(** [Array.prototype.join] as the library has it. *)
Lemma join_concat sep l : Js.join sep l = String.concat sep l.
Proof.
  induction l as [|x [|y l] IH]; [done|done|].
  cbn [Js.join String.concat] in *. by rewrite IH.
Qed.

Lemma UUID_RE_no_I s :
  UUID_RE_test s = true → all_chars (λ c, negb (Ascii.eqb "I" c)) s = true.
Proof.
  revert s. apply UUID_RE_chars; [done| |].
  - intros c s Hc Hs. cbn [all_chars]. rewrite Hs.
    by destruct c as [[] [] [] [] [] [] [] []].
  - intros s Hs. cbn [all_chars]. by rewrite Hs.
Qed.

Lemma conditions_no_I (l : list TypedUuid) :
  Forall (λ u, UUID_RE_test (uuid u) = true) l →
  all_chars (λ c, negb (Ascii.eqb "I" c))
    (String.concat ", " (map (λ u, "'tables/" +:+ uuid u +:+ "'") l)) = true.
Proof.
  induction 1 as [|u l Hu Hl IH]; [done|].
  cbn [map String.concat]. destruct (map _ l) as [|y ys] eqn:Hmap.
  - rewrite !all_chars_app, (UUID_RE_no_I _ Hu). done.
  - rewrite !all_chars_app, (UUID_RE_no_I _ Hu), IH. done.
Qed.

(** The statement of the table group, character for character. *)
Lemma table_statement_text (l : list TypedUuid) :
  table_statement l
  = String "010" ""
    +:+ "        SELECT table_catalog, table_schema, table_name, storage_sub_directory"
    +:+ String "010" "" +:+ "        FROM system.information_schema.tables"
    +:+ String "010" "" +:+ "        WHERE storage_sub_directory IN ("
    +:+ String.concat ", " (map (λ u, "'tables/" +:+ uuid u +:+ "'") l)
    +:+ ")" +:+ String "010" "" +:+ "      ".
Proof.
  unfold table_statement, table_sql, table_condition. cbn [Js.join].
  rewrite join_concat. unfold newline. rewrite !append_assoc. reflexivity.
Qed.

(** It holds one [IN (]: the one spelled by the template, since no
    identifier that passes the pattern holds a capital I. *)
Lemma table_statement_one_IN (l : list TypedUuid) :
  Forall (λ u, UUID_RE_test (uuid u) = true) l →
  occurrences_of "IN (" (table_statement l) = 1%nat.
Proof.
  intros Hl. rewrite table_statement_text.
  repeat first [ rewrite append_cons
               | rewrite append_nil_l
               | rewrite occurrences_of_skip by reflexivity ].
  rewrite occurrences_of_hit by reflexivity.
  repeat first [ rewrite occurrences_of_skip by reflexivity ].
  f_equal. apply occurrences_of_none.
  rewrite all_chars_app. by rewrite conditions_no_I.
Qed.

Lemma schema_sql_text (u : string) :
  schema_sql u
  = String "010" "" +:+ "          SELECT DISTINCT table_catalog, table_schema"
    +:+ String "010" "" +:+ "          FROM system.information_schema.tables"
    +:+ String "010" "" +:+ "          WHERE storage_path LIKE '%/schemas/" +:+ u +:+ "/%'"
    +:+ String "010" "" +:+ "          LIMIT 1"
    +:+ String "010" "" +:+ "        ".
Proof.
  unfold schema_sql. cbn [Js.join]. unfold newline.
  rewrite !append_assoc. reflexivity.
Qed.

Lemma catalog_sql_text (u : string) :
  catalog_sql u
  = String "010" "" +:+ "          SELECT DISTINCT table_catalog"
    +:+ String "010" "" +:+ "          FROM system.information_schema.tables"
    +:+ String "010" "" +:+ "          WHERE storage_path LIKE '%/catalogs/" +:+ u +:+ "/%'"
    +:+ String "010" "" +:+ "          LIMIT 1"
    +:+ String "010" "" +:+ "        ".
Proof.
  unfold catalog_sql. cbn [Js.join]. unfold newline.
  rewrite !append_assoc. reflexivity.
Qed.

(** A pattern found in the tail of a text is found in the text. *)
Lemma includes_app_r (pat a b : string) :
  Content.includes pat b = true → Content.includes pat (a +:+ b) = true.
Proof.
  unfold Content.includes. intros Hb.
  induction a as [|x a IH]; [exact Hb|].
  rewrite append_cons. cbn [Content.from_indexOf].
  by destruct (Js.startsWith pat (String x (a +:+ b))).
Qed.

Lemma schema_sql_limit uuid : Content.includes "LIMIT 1" (schema_sql uuid) = true.
Proof.
  unfold schema_sql. cbn [Js.join].
  repeat first [reflexivity | apply includes_app_r].
Qed.

Lemma catalog_sql_limit uuid : Content.includes "LIMIT 1" (catalog_sql uuid) = true.
Proof.
  unfold catalog_sql. cbn [Js.join].
  repeat first [reflexivity | apply includes_app_r].
Qed.

Section Claims.

Variable JSON_stringify : Status → string.
Variable net : nat → SqlCall → Exchange.

(** C2. With at least one miss and no PAT token configured, the lookup
    answers with exactly the cache hits and the explanatory error; it
    makes no executor call and leaves the storage as it was. *)
Theorem lookup_without_token_skips_resolution
    (stored : Storage) (now_split now_merge : Z) (uuids : list TypedUuid) :
  (getCachedResults stored now_split (normalise uuids)).2 ≠ [] →
  patToken (getConfig stored) = ""%string →
  lookupUuids JSON_stringify net stored now_split now_merge uuids
  = (Returned {| matches := (getCachedResults stored now_split (normalise uuids)).1;
                 error := Some "No PAT token configured"%string |},
     {| storage := stored; sql_calls := []; error_log := [] |}).
Proof.
  intros Hmiss Htoken. unfold lookupUuids. fold (normalise uuids).
  destruct (getCachedResults stored now_split (normalise uuids))
    as [cached uncached] eqn:Hsplit.
  cbn [fst snd] in *.
  destruct (length (normalise uuids) =? 0)%nat eqn:Hlen.
  { apply Nat.eqb_eq, nil_length_inv in Hlen. rewrite Hlen in Hsplit.
    cbn in Hsplit. by simplify_eq. }
  destruct uncached as [|u uncached]; [done|]. cbn [length Nat.ltb Nat.leb].
  by rewrite Htoken.
Qed.

(** C7. The resolver works from the identifiers that pass [UUID_RE]
    alone: the others change nothing to what it does, and every
    statement it hands to the executor, whether or not the run gets to
    its end, is one of the three templates filled in with identifiers of
    the request that pass the pattern. *)
Theorem resolveUuids_never_queries_invalid_token
    (typedUuids : list TypedUuid) (config : Config) :
  (∀ s, resolveUuids JSON_stringify net typedUuids config s
        = resolveUuids JSON_stringify net (valid_uuids typedUuids) config s)
  ∧ ∀ c, c ∈ calls (resolveUuids JSON_stringify net typedUuids config fresh_run).2 →
      (∃ tableUuids, tableUuids ≠ []
         ∧ (∀ u, u ∈ tableUuids → u ∈ typedUuids ∧ UUID_RE_test (uuid u) = true)
         ∧ call_sql c = table_sql (Js.join ", " (map table_condition tableUuids)))
      ∨ (∃ u, u ∈ typedUuids ∧ UUID_RE_test (uuid u) = true
           ∧ (call_sql c = schema_sql (uuid u) ∨ call_sql c = catalog_sql (uuid u))).
Proof.
  split.
  - intros s. by rewrite !resolveUuids_groups, valid_uuids_idem.
  - intros c Hc.
    destruct (resolveUuids_run JSON_stringify net typedUuids config)
      as (o & s' & _ & [(issued & Hcalls & Hpre & _) _ _] & _ & Hrun).
    rewrite Hrun in Hc. cbn [snd] in Hc. rewrite Hcalls in Hc.
    cbn [calls fresh_run app] in Hc.
    apply (elem_of_prefix _ _ _ Hc) in Hpre. unfold expected_calls in Hpre.
    apply elem_of_app in Hpre as [Htab|Hrest].
    + left. exists (of_type "table" (valid_uuids typedUuids)).
      destruct (of_type "table" (valid_uuids typedUuids)) as [|u0 us] eqn:Htables.
      { by apply elem_of_nil in Htab. }
      cbn [length Nat.ltb Nat.leb] in Htab.
      apply list_elem_of_singleton in Htab as ->.
      split; [done|]. split; [|done].
      intros u Hu. rewrite <- Htables in Hu.
      by apply elem_of_of_type_valid in Hu as (? & ? & _).
    + right. apply elem_of_app in Hrest as [Hs|Hc'].
      * apply list_elem_of_fmap in Hs as (u & -> & Hu).
        apply elem_of_of_type_valid in Hu as (? & ? & _).
        exists u. auto.
      * apply list_elem_of_fmap in Hc' as (u & -> & Hu).
        apply elem_of_of_type_valid in Hu as (? & ? & _).
        exists u. auto.
Qed.

(** C8. On a request whose identifiers all pass the pattern, and with an
    endpoint that leaves no statement pending, the resolver returns
    after exactly these executor calls, in this order: one for the table
    group if it is not empty; then one per schema id and one per catalog
    id, each with its own statement, which holds [LIMIT 1]. Their number
    is 1 or 0, plus the number of schema ids, plus the number of catalog
    ids. The statement of the table group is the first call; its text is
    the one spelled out below, in which [IN (] occurs once and is
    followed by the quoted markers ['tables/<id>'] of all the table ids
    of the request, in request order, separated by commas. The text of
    the statement made for a schema or a catalog id is spelled out too. *)
Theorem resolveUuids_executor_calls
    (typedUuids : list TypedUuid) (config : Config) :
  Forall (λ u, UUID_RE_test (uuid u) = true) typedUuids →
  (∀ n c, exec JSON_stringify net n c ≠ Pending) →
  let tableUuids := of_type "table" typedUuids in
  let schemaUuids := of_type "schema" typedUuids in
  let catalogUuids := of_type "catalog" typedUuids in
  let line := String "010"%char "" in
  let in_list :=
    String.concat ", " (map (λ u, "'tables/" +:+ uuid u +:+ "'") tableUuids) in
  let table_text :=
    line +:+ "        SELECT table_catalog, table_schema, table_name, storage_sub_directory"
    +:+ line +:+ "        FROM system.information_schema.tables"
    +:+ line +:+ "        WHERE storage_sub_directory IN (" +:+ in_list +:+ ")"
    +:+ line +:+ "      " in
  ∃ s', resolveUuids JSON_stringify net typedUuids config fresh_run
        = (Returned (results s'), s')
    ∧ calls s'
      = (if (0 <? length tableUuids)%nat
         then [sql_call config
                 (table_sql (Js.join ", " (map table_condition tableUuids)))]
         else [])
        ++ map (λ u, sql_call config (schema_sql (uuid u))) schemaUuids
        ++ map (λ u, sql_call config (catalog_sql (uuid u))) catalogUuids
    ∧ length (calls s')
      = ((if (0 <? length tableUuids)%nat then 1 else 0)
         + length schemaUuids + length catalogUuids)%nat
    ∧ (∀ u, Content.includes "LIMIT 1" (schema_sql (uuid u)) = true
            ∧ Content.includes "LIMIT 1" (catalog_sql (uuid u)) = true)
    ∧ (tableUuids ≠ [] →
         calls s' !! 0%nat = Some (sql_call config table_text)
         ∧ occurrences_of "IN (" table_text = 1%nat)
    ∧ (∀ u, u ∈ typedUuids →
         (type u = "table"%string → u ∈ tableUuids)
         ∧ (type u = "schema"%string →
            sql_call config
              (line +:+ "          SELECT DISTINCT table_catalog, table_schema"
               +:+ line +:+ "          FROM system.information_schema.tables"
               +:+ line +:+ "          WHERE storage_path LIKE '%/schemas/"
               +:+ uuid u +:+ "/%'"
               +:+ line +:+ "          LIMIT 1"
               +:+ line +:+ "        ") ∈ calls s')
         ∧ (type u = "catalog"%string →
            sql_call config
              (line +:+ "          SELECT DISTINCT table_catalog"
               +:+ line +:+ "          FROM system.information_schema.tables"
               +:+ line +:+ "          WHERE storage_path LIKE '%/catalogs/"
               +:+ uuid u +:+ "/%'"
               +:+ line +:+ "          LIMIT 1"
               +:+ line +:+ "        ") ∈ calls s')).
Proof.
  intros Hvalid Hnet tableUuids schemaUuids catalogUuids line in_list table_text.
  destruct (resolveUuids_returns JSON_stringify net typedUuids config Hnet)
    as (s' & Hrun & Hcalls & _).
  exists s'. split; [done|].
  unfold expected_calls in Hcalls. rewrite (valid_uuids_all _ Hvalid) in Hcalls.
  fold tableUuids schemaUuids catalogUuids in Hcalls.
  assert (table_statement tableUuids = table_text) as Htext
    by apply table_statement_text.
  assert (∀ t u, u ∈ typedUuids → type u = t → u ∈ of_type t typedUuids) as Hgroup.
  { intros t u Hu Ht. unfold of_type. apply list_elem_of_In, filter_In.
    split; [by apply list_elem_of_In|]. unfold has_type. by apply String.eqb_eq. }
  split; [exact Hcalls|]. split; [|split; [|split]].
  - rewrite Hcalls, !length_app, !length_map.
    destruct (0 <? length tableUuids)%nat; cbn [length]; lia.
  - intros u. split; [apply schema_sql_limit|apply catalog_sql_limit].
  - intros Hsome. split.
    + rewrite Hcalls. destruct tableUuids as [|u0 us] eqn:Htab; [done|].
      cbn [length Nat.ltb Nat.leb app lookup list_lookup]. by rewrite Htext.
    + rewrite <- Htext. apply table_statement_one_IN.
      apply Forall_forall. intros u Hu. rewrite Forall_forall in Hvalid.
      apply Hvalid. unfold tableUuids, of_type in Hu.
      by apply list_elem_of_In, filter_In in Hu as [?%list_elem_of_In _].
  - intros u Hu. split; [by apply Hgroup|]. split; intros Ht.
    + unfold line. rewrite Hcalls, <- (schema_sql_text (uuid u)).
      apply elem_of_app. right. apply elem_of_app. left.
      apply (list_elem_of_fmap_2 (λ u, sql_call config (schema_sql (uuid u)))).
      by apply Hgroup.
    + unfold line. rewrite Hcalls, <- (catalog_sql_text (uuid u)).
      apply elem_of_app. right. apply elem_of_app. right.
      apply (list_elem_of_fmap_2 (λ u, sql_call config (catalog_sql (uuid u)))).
      by apply Hgroup.
Qed.

End Claims.

Section LookupClaims.

Variable JSON_stringify : Status → string.
Variable net : nat → SqlCall → Exchange.

(** C1, amended. Take a lookup that made an executor call whose
    statement ended FAILED with message [x], the endpoint leaving no
    statement pending. The lookup returns with no [error] field; the
    message, as [SQL failed: x], is in the lines sent to [console.error]
    and nowhere in the answer. Every cache hit is among the matches, and
    every match is either a cache hit or comes from the data returned by
    another call of the run, one that did not fail. *)
Theorem lookup_statement_failure_is_only_logged
    (stored : Storage) (now_split now_merge : Z) (uuids : list TypedUuid)
    (n : nat) (c : SqlCall) (pre : list Response) (final : Response)
    (st : Status) (x : string) :
  let cached := (getCachedResults stored now_split (normalise uuids)).1 in
  let uncached := (getCachedResults stored now_split (normalise uuids)).2 in
  let run := lookupUuids JSON_stringify net stored now_split now_merge uuids in
  (∀ n c, exec JSON_stringify net n c ≠ Pending) →
  sql_calls run.2 !! n = Some c →
  submitResp (net n c) :: pollResps (net n c) = pre ++ [final] →
  Forall keeps_polling pre →
  ok final = true →
  status (json final) = Some st →
  state st = Some "FAILED"%string →
  status_error st = Some {| message := Some x |} →
  x ≠ ""%string →
  ∃ res, run.1 = Returned res
    ∧ error res = None
    ∧ uncached ≠ []
    ∧ (∀ k, is_Some (cached !! k) → is_Some (matches res !! k))
    ∧ (∀ k v, matches res !! k = Some v →
         cached !! k = Some v
         ∨ ∃ n' c' d, n' ≠ n
             ∧ sql_calls run.2 !! n' = Some c'
             ∧ exec JSON_stringify net n' c' = Returned d
             ∧ derived (valid_uuids uncached) c' d k v)
    ∧ logged (error_log run.2) ("SQL failed: " +:+ x).
Proof.
  intros cached uncached run Hnet Hcall Hseq Hpre Hok Hst Hstate Herr Hx.
  destruct (lookupUuids_called _ _ _ _ _ _ _ _ Hcall) as [Hmiss Htoken].
  assert (exec JSON_stringify net n c = Thrown ("SQL failed: " +:+ x)) as Hthrown.
  { unfold exec. destruct (net n c) as [submit polls]. cbn [submitResp pollResps] in Hseq.
    rewrite (executeSql_failed JSON_stringify submit polls pre final st)
      by done.
    by rewrite (errMsg_message JSON_stringify st x). }
  destruct (resolveUuids_returns JSON_stringify net uncached (getConfig stored) Hnet)
    as (s' & Hres & _ & [Hprod Hlog]).
  assert (run = (Returned {| matches := results s' ∪ cached; error := None |},
                 {| storage := updateCache stored now_merge (results s');
                    sql_calls := calls s';
                    error_log := console_error s' |})) as Hrun.
  { subst run. rewrite lookupUuids_resolving by done.
    fold uncached cached. by rewrite Hres. }
  rewrite Hrun in Hcall |- *. cbn [fst snd sql_calls error_log] in *.
  eexists. split; [reflexivity|]. cbn [matches error].
  split; [done|]. split; [done|]. split; [|split].
  - intros k Hk. apply lookup_union_is_Some. by right.
  - intros k v Hk. apply lookup_union_Some_raw in Hk as [Hnew|[_ Hold]]; [|by left].
    right. destruct (Hprod k v Hnew) as (n' & c' & d & Hn' & Hexec & Hder).
    exists n', c', d. split; [|done].
    intros ->. rewrite Hcall in Hn'. simplify_eq. congruence.
  - by apply (Hlog n c).
Qed.

(** C10. [updateCache] files, with the time of the call, an entry for
    each key of the fresh map, keeps every other entry and every other
    stored key as they were, and sets [cacheUpdatedAt] to that time
    whatever the map. So a lookup with misses of which none resolves
    still stamps [cacheUpdatedAt] and changes no entry. *)
Theorem updateCache_writes_fresh_keys_only
    (stored : Storage) (now : Z) (fresh : gmap string Resolved)
    (now_split : Z) (uuids : list TypedUuid) :
  let stored' := updateCache stored now fresh in
  (∀ k d, fresh !! k = Some d →
     uuidCache (getConfig stored') !! k = Some {| data := d; cachedAt := now |})
  ∧ (∀ k, fresh !! k = None →
       uuidCache (getConfig stored') !! k = uuidCache (getConfig stored) !! k)
  ∧ stored_cacheUpdatedAt stored' = Some now
  ∧ (stored_workspaceUrl stored' = stored_workspaceUrl stored
     ∧ stored_warehouseId stored' = stored_warehouseId stored
     ∧ stored_patToken stored' = stored_patToken stored)
  ∧ ((getCachedResults stored now_split (normalise uuids)).2 ≠ [] →
     patToken (getConfig stored) ≠ ""%string →
     (resolveUuids JSON_stringify net
        (getCachedResults stored now_split (normalise uuids)).2
        (getConfig stored) fresh_run).1 = Returned ∅ →
     let after := storage (lookupUuids JSON_stringify net stored now_split now uuids).2 in
     uuidCache (getConfig after) = uuidCache (getConfig stored)
     ∧ stored_cacheUpdatedAt after = Some now).
Proof.
  intros stored'. split; [|split; [|split; [|split]]].
  - intros k d Hk. subst stored'. by rewrite updateCache_lookup, Hk.
  - intros k Hk. subst stored'. by rewrite updateCache_lookup, Hk.
  - done.
  - done.
  - intros Hmiss Htoken Hempty after. subst after.
    rewrite lookupUuids_resolving by done.
    destruct (resolveUuids JSON_stringify net _ (getConfig stored) fresh_run)
      as [o s] eqn:Hrun.
    cbn [fst] in Hempty. subst o. cbn [snd storage]. split; [|done].
    apply map_eq. intros k. by rewrite updateCache_lookup, lookup_empty.
Qed.

End LookupClaims.

(** ** The content script *)

Module ContentFacts.
Import Content.

Lemma Map_get_set m k v k' :
  Map_get (Map_set m k v) k' = if String.eqb k k' then Some v else Map_get m k'.
Proof.
  induction m as [|[k0 v0] m IH]; cbn [Map_set Map_get].
  - destruct (String.eqb k k'); done.
  - destruct (String.eqb k0 k) eqn:Hk0; cbn [Map_get].
    + apply String.eqb_eq in Hk0 as ->. by destruct (String.eqb k k').
    + destruct (String.eqb k0 k') eqn:Hk0'; [|done].
      apply String.eqb_eq in Hk0' as ->.
      by rewrite String.eqb_sym, Hk0.
Qed.

Lemma Map_get_elem m k v : Map_get m k = Some v → (k, v) ∈ m.
Proof.
  induction m as [|[k0 v0] m IH]; cbn [Map_get]; [done|].
  destruct (String.eqb k0 k) eqn:Hk0.
  - apply String.eqb_eq in Hk0 as ->. intros [= ->]. apply list_elem_of_here.
  - intros H. by apply list_elem_of_further, IH.
Qed.

Lemma Map_get_None m k : Map_get m k = None ↔ k ∉ map fst m.
Proof.
  induction m as [|[k0 v0] m IH]; cbn [Map_get map fst].
  - split; [|done]. intros _. apply not_elem_of_nil.
  - rewrite not_elem_of_cons. destruct (String.eqb k0 k) eqn:Hk0.
    + apply String.eqb_eq in Hk0 as ->. split; [done|]. by intros [? _].
    + apply String.eqb_neq in Hk0. rewrite IH. split; [|by intros [_ ?]].
      intros ?. split; [congruence|done].
Qed.

Lemma elem_Map_get m k v : NoDup (map fst m) → (k, v) ∈ m → Map_get m k = Some v.
Proof.
  induction m as [|[k0 v0] m IH]; cbn [Map_get map fst]; intros Hnd Hin.
  - by apply elem_of_nil in Hin.
  - apply NoDup_cons in Hnd as [Hk0 Hnd].
    apply elem_of_cons in Hin as [[= -> ->]|Hin].
    + by rewrite String.eqb_refl.
    + destruct (String.eqb k0 k) eqn:Hk; [|by apply IH].
      apply String.eqb_eq in Hk as ->. exfalso. apply Hk0.
      by apply (list_elem_of_fmap_2 fst) in Hin.
Qed.

Lemma Map_set_keys m k v :
  map fst (Map_set m k v)
  = match Map_get m k with
    | Some _ => map fst m
    | None => map fst m ++ [k]
    end.
Proof.
  induction m as [|[k0 v0] m IH]; cbn [Map_set Map_get map fst app]; [done|].
  destruct (String.eqb k0 k) eqn:Hk0; cbn [map fst]; [done|].
  rewrite IH. by destruct (Map_get m k).
Qed.

Lemma Map_set_NoDup m k v : NoDup (map fst m) → NoDup (map fst (Map_set m k v)).
Proof.
  intros Hnd. rewrite Map_set_keys. destruct (Map_get m k) eqn:Hget; [done|].
  apply NoDup_app. split; [done|]. split; [|apply NoDup_singleton].
  intros k' Hk' Hk. apply list_elem_of_singleton in Hk as ->.
  by apply Map_get_None in Hget.
Qed.

Lemma typePriority_empty : typePriority "" = 0%nat.
Proof. reflexivity. Qed.

Lemma keep_most_specific_step m seen p :
  most_specific m seen →
  most_specific (keep_most_specific m p) (seen ++ [p]).
Proof.
  intros (Hnd & Hmax & Hall). unfold keep_most_specific.
  assert ({| uuid := uuid p; type := type p |} = p) as Heta by by destruct p.
  destruct (Map_get m (uuid p)) as [existing|] eqn:Hget.
  - destruct (Hmax _ _ Hget) as [Hseen Hle].
    destruct (String.eqb existing "" || (typePriority existing <? typePriority (type p))%nat)
      eqn:Hreplace.
    + assert (typePriority existing ≤ typePriority (type p))%nat as Hrank.
      { apply orb_true_iff in Hreplace as [He|Hlt].
        - apply String.eqb_eq in He as ->. rewrite typePriority_empty. lia.
        - apply Nat.ltb_lt in Hlt. lia. }
      split; [by apply Map_set_NoDup|]. split.
      * intros u t. rewrite Map_get_set.
        destruct (String.eqb (uuid p) u) eqn:Hu.
        -- apply String.eqb_eq in Hu as <-. intros [= <-]. split.
           ++ rewrite Heta. apply elem_of_app. right. apply list_elem_of_here.
           ++ intros occ Hocc Hsame. apply elem_of_app in Hocc as [Hocc|Hocc].
              ** specialize (Hle occ Hocc Hsame). lia.
              ** apply list_elem_of_singleton in Hocc as ->. lia.
        -- apply String.eqb_neq in Hu. intros Ht.
           destruct (Hmax _ _ Ht) as [Hin Hle']. split.
           ++ apply elem_of_app. by left.
           ++ intros occ Hocc Hsame. apply elem_of_app in Hocc as [Hocc|Hocc].
              ** by apply Hle'.
              ** apply list_elem_of_singleton in Hocc as ->. congruence.
      * intros occ Hocc. rewrite Map_get_set.
        destruct (String.eqb (uuid p) (uuid occ)); [by eauto|].
        apply elem_of_app in Hocc as [Hocc|Hocc]; [by apply Hall|].
        apply list_elem_of_singleton in Hocc as ->. by rewrite Hget.
    + apply orb_false_iff in Hreplace as [_ Hlt]. apply Nat.ltb_ge in Hlt.
      split; [done|]. split.
      * intros u t Ht. destruct (Hmax _ _ Ht) as [Hin Hle']. split.
        -- apply elem_of_app. by left.
        -- intros occ Hocc Hsame. apply elem_of_app in Hocc as [Hocc|Hocc].
           ++ by apply Hle'.
           ++ apply list_elem_of_singleton in Hocc as ->.
              rewrite Hsame in Hget. by simplify_eq.
      * intros occ Hocc. apply elem_of_app in Hocc as [Hocc|Hocc]; [by apply Hall|].
        apply list_elem_of_singleton in Hocc as ->. by rewrite Hget.
  - cbn [orb]. split; [by apply Map_set_NoDup|]. split.
    + intros u t. rewrite Map_get_set.
      destruct (String.eqb (uuid p) u) eqn:Hu.
      * apply String.eqb_eq in Hu as <-. intros [= <-]. split.
        -- rewrite Heta. apply elem_of_app. right. apply list_elem_of_here.
        -- intros occ Hocc Hsame. apply elem_of_app in Hocc as [Hocc|Hocc].
           ++ destruct (Hall occ Hocc) as [t' Ht']. rewrite Hsame in Ht'. congruence.
           ++ apply list_elem_of_singleton in Hocc as ->. lia.
      * apply String.eqb_neq in Hu. intros Ht.
        destruct (Hmax _ _ Ht) as [Hin Hle']. split.
        -- apply elem_of_app. by left.
        -- intros occ Hocc Hsame. apply elem_of_app in Hocc as [Hocc|Hocc].
           ++ by apply Hle'.
           ++ apply list_elem_of_singleton in Hocc as ->. congruence.
    + intros occ Hocc. rewrite Map_get_set.
      destruct (String.eqb (uuid p) (uuid occ)) eqn:Hu; [by eauto|].
      apply elem_of_app in Hocc as [Hocc|Hocc]; [by apply Hall|].
      apply list_elem_of_singleton in Hocc as ->. by rewrite String.eqb_refl in Hu.
Qed.

Lemma keep_most_specific_fold parsed : ∀ m seen,
  most_specific m seen →
  most_specific (foldl keep_most_specific m parsed) (seen ++ parsed).
Proof.
  induction parsed as [|p parsed IH]; intros m seen Hinv; cbn [foldl].
  - by rewrite app_nil_r.
  - replace (seen ++ p :: parsed) with ((seen ++ [p]) ++ parsed)
      by by rewrite <- app_assoc.
    by apply IH, keep_most_specific_step.
Qed.

Lemma scan_span_typedUuids acc span :
  typedUuids (scan_span acc span)
  = foldl keep_most_specific (typedUuids acc) (parsed_of span).
Proof.
  unfold scan_span, parsed_of. destruct (annotated span); [done|].
  destruct (negb (includes "__unitystorage" (textContent span))); [done|].
  by destruct (parseUnityPath (textContent span)).
Qed.

Lemma scan_span_elements acc span :
  elements acc ≠ [] ∨ parsed_of span ≠ [] →
  elements (scan_span acc span) ≠ [].
Proof.
  unfold scan_span, parsed_of. destruct (annotated span); [by intros [|]|].
  destruct (negb (includes "__unitystorage" (textContent span))); [by intros [|]|].
  destruct (parseUnityPath (textContent span)) as [parsed|]; [|by intros [|]].
  intros _. cbn [elements]. intros H. by apply app_nil in H as [_ ?].
Qed.

Lemma findUnityElements_fold spans : ∀ acc,
  typedUuids (foldl scan_span acc spans)
  = foldl keep_most_specific (typedUuids acc) (occurrences spans)
  ∧ (elements acc ≠ [] ∨ occurrences spans ≠ [] →
     elements (foldl scan_span acc spans) ≠ []).
Proof.
  unfold occurrences.
  induction spans as [|span spans IH]; intros acc; cbn [foldl map concat].
  - split; [done|]. by intros [|].
  - destruct (IH (scan_span acc span)) as [Htyped Helems]. split.
    + by rewrite Htyped, scan_span_typedUuids, foldl_app.
    + intros H. apply Helems.
      destruct H as [H|H]; [left; apply scan_span_elements; by left|].
      destruct (parsed_of span) as [|p ps] eqn:Hp.
      * by right.
      * left. apply scan_span_elements. right. by rewrite Hp.
Qed.

(** The parser only ever declares one of the three kinds. *)
Lemma parse_pairs_kinds_upto (n : nat) : ∀ segments occ,
  (length segments ≤ n)%nat →
  occ ∈ parse_pairs segments →
  type occ = "table"%string ∨ type occ = "schema"%string
  ∨ type occ = "catalog"%string.
Proof.
  induction n as [|n IH]; intros segments occ Hlen;
    destruct segments as [|kind [|token rest]]; cbn [parse_pairs length] in *;
    try (intros H; by apply elem_of_nil in H); try lia.
  intros H. apply elem_of_app in H as [H|H].
  - destruct (String.eqb token ""); [by apply elem_of_nil in H|].
    destruct (negb (UUID_PATTERN_test (Js.toLowerCase (clean token))));
      [by apply elem_of_nil in H|].
    destruct (String.eqb kind "tables");
      [apply list_elem_of_singleton in H as ->; auto|].
    destruct (String.eqb kind "schemas");
      [apply list_elem_of_singleton in H as ->; auto|].
    destruct (String.eqb kind "catalogs");
      [apply list_elem_of_singleton in H as ->; auto|].
    by apply elem_of_nil in H.
  - apply (IH rest); [lia|done].
Qed.

(** The parser only ever declares one of the three kinds. *)
Lemma parse_pairs_kinds segments occ :
  occ ∈ parse_pairs segments →
  type occ = "table"%string ∨ type occ = "schema"%string
  ∨ type occ = "catalog"%string.
Proof. by apply (parse_pairs_kinds_upto (length segments)). Qed.

Lemma occurrences_kinds spans occ :
  occ ∈ occurrences spans →
  type occ = "table"%string ∨ type occ = "schema"%string
  ∨ type occ = "catalog"%string.
Proof.
  unfold occurrences. intros H.
  apply list_elem_of_In, in_concat in H as (parsed & Hp & Hocc).
  apply in_map_iff in Hp as (span & <- & _). apply list_elem_of_In in Hocc.
  unfold parsed_of in Hocc. destruct (annotated span); [by apply elem_of_nil in Hocc|].
  destruct (negb _); [by apply elem_of_nil in Hocc|].
  unfold parseUnityPath in Hocc.
  destruct (from_indexOf "__unitystorage/" (textContent span)) as [pathPart|];
    [|by apply elem_of_nil in Hocc].
  destruct (0 <? length _)%nat; [|by apply elem_of_nil in Hocc].
  by eapply parse_pairs_kinds.
Qed.

(** C9. Whatever the page, if an identifier was parsed on it, the
    scanner sends a request in which that identifier appears once, with
    a type declared for it somewhere on the page that no other type
    declared for it outranks, the ranks being table (3) above schema (2)
    above catalog (1), the only kinds the parser declares. *)
Theorem scan_sends_most_specific_type (spans : list Span) (occ : TypedUuid) :
  occ ∈ occurrences spans →
  (typePriority "catalog" < typePriority "schema"
   ∧ typePriority "schema" < typePriority "table")%nat
  ∧ (type occ = "table"%string ∨ type occ = "schema"%string
     ∨ type occ = "catalog"%string)
  ∧ ∃ sent, scan_request spans = Some sent
      ∧ NoDup (map uuid sent)
      ∧ ∃ item, item ∈ sent
          ∧ uuid item = uuid occ
          ∧ item ∈ occurrences spans
          ∧ (typePriority (type occ) ≤ typePriority (type item))%nat
          ∧ ∀ other, other ∈ occurrences spans → uuid other = uuid occ →
              (typePriority (type other) ≤ typePriority (type item))%nat.
Proof.
  intros Hocc. split; [cbn; lia|]. split; [by eapply occurrences_kinds|].
  destruct (findUnityElements_fold spans {| elements := []; typedUuids := [] |})
    as [Htyped Helems].
  fold (findUnityElements spans) in Htyped, Helems. cbn [typedUuids] in Htyped.
  assert (most_specific (Content.typedUuids (findUnityElements spans)) (occurrences spans))
    as (Hnd & Hmax & Hall).
  { rewrite Htyped. apply (keep_most_specific_fold _ [] []).
    split; [constructor|]. split; [done|]. intros o Ho. by apply elem_of_nil in Ho. }
  destruct (Hall occ Hocc) as [t Ht].
  assert (occurrences spans ≠ []) as Hne.
  { intros Hnil. rewrite Hnil in Hocc. by apply elem_of_nil in Hocc. }
  assert (elements (findUnityElements spans) ≠ []) as Hel by (apply Helems; by right).
  assert (Content.typedUuids (findUnityElements spans) ≠ []) as Hty.
  { intros Hnil. by rewrite Hnil in Ht. }
  exists (map (λ e, {| uuid := e.1; type := e.2 |})
            (Content.typedUuids (findUnityElements spans))).
  split; [|split].
  - unfold scan_request.
    destruct (elements (findUnityElements spans)); [done|].
    by destruct (Content.typedUuids (findUnityElements spans)).
  - by rewrite map_map.
  - exists {| uuid := uuid occ; type := t |}.
    destruct (Hmax _ _ Ht) as [Hin Hle]. split; [|split; [done|split; [done|split]]].
    + apply (list_elem_of_fmap_2' _ _ (uuid occ, t)); [|done]. by apply Map_get_elem.
    + by apply Hle.
    + intros other Hother Hsame. by apply Hle.
Qed.

End ContentFacts.

(** ** Lower-case keys *)

Lemma lower_char_idem c : Js.lower_char (Js.lower_char c) = Js.lower_char c.
Proof. by destruct c as [[] [] [] [] [] [] [] []]. Qed.

Lemma toLowerCase_idem s : Js.toLowerCase (Js.toLowerCase s) = Js.toLowerCase s.
Proof.
  induction s as [|c s IH]; [done|].
  cbn [Js.toLowerCase]. by rewrite lower_char_idem, IH.
Qed.

Lemma is_hex_lower c : Js.is_hex c = true → Js.lower_char c = c.
Proof. by destruct c as [[] [] [] [] [] [] [] []]. Qed.

Lemma hexes_lower n : ∀ s r,
  Js.hexes n s = Some r → Js.toLowerCase r = r → Js.toLowerCase s = s.
Proof.
  induction n as [|n IH]; intros s r; cbn [Js.hexes].
  - by intros [= ->].
  - destruct s as [|c s]; [done|].
    destruct (Js.is_hex c) eqn:Hc; [|done].
    intros Hs Hr. cbn [Js.toLowerCase].
    by rewrite (is_hex_lower _ Hc), (IH _ _ Hs Hr).
Qed.

Lemma dash_lower s r :
  Js.dash s = Some r → Js.toLowerCase r = r → Js.toLowerCase s = s.
Proof.
  destruct s as [|c s]; [done|]. cbn [Js.dash].
  destruct c as [[] [] [] [] [] [] [] []]; try done.
  intros [= ->] Hr. cbn [Js.toLowerCase]. by rewrite Hr.
Qed.

(** An identifier that passes [UUID_RE] is in lower case. *)
Lemma UUID_RE_lower s : UUID_RE_test s = true → Js.toLowerCase s = s.
Proof.
  unfold UUID_RE_test.
  destruct (Js.hexes 8 s) as [s1|] eqn:H1; cbn [mbind option_bind]; [|done].
  destruct (Js.dash s1) as [s2|] eqn:H2; cbn [mbind option_bind]; [|done].
  destruct (Js.hexes 4 s2) as [s3|] eqn:H3; cbn [mbind option_bind]; [|done].
  destruct (Js.dash s3) as [s4|] eqn:H4; cbn [mbind option_bind]; [|done].
  destruct (Js.hexes 4 s4) as [s5|] eqn:H5; cbn [mbind option_bind]; [|done].
  destruct (Js.dash s5) as [s6|] eqn:H6; cbn [mbind option_bind]; [|done].
  destruct (Js.hexes 4 s6) as [s7|] eqn:H7; cbn [mbind option_bind]; [|done].
  destruct (Js.dash s7) as [s8|] eqn:H8; cbn [mbind option_bind]; [|done].
  destruct (Js.hexes 12 s8) as [[|c r]|] eqn:H9; [|done|done].
  intros _.
  apply (hexes_lower _ _ _ H1), (dash_lower _ _ H2),
        (hexes_lower _ _ _ H3), (dash_lower _ _ H4),
        (hexes_lower _ _ _ H5), (dash_lower _ _ H6),
        (hexes_lower _ _ _ H7), (dash_lower _ _ H8),
        (hexes_lower _ _ _ H9).
  done.
Qed.

Lemma derived_key_lower asked c d k v :
  Forall (λ u, UUID_RE_test (uuid u) = true) asked →
  derived asked c d k v → Js.toLowerCase k = k.
Proof.
  intros Hvalid [rows row subDir _ _ _ _ -> _|u row rest Hu -> _ _ _|u row rest Hu -> _ _ _].
  - apply toLowerCase_idem.
  - apply UUID_RE_lower. rewrite Forall_forall in Hvalid. apply Hvalid.
    unfold of_type in Hu. apply list_elem_of_In, filter_In in Hu as [Hu _].
    by apply list_elem_of_In.
  - apply UUID_RE_lower. rewrite Forall_forall in Hvalid. apply Hvalid.
    unfold of_type in Hu. apply list_elem_of_In, filter_In in Hu as [Hu _].
    by apply list_elem_of_In.
Qed.

(** C5. A fresh result map is what a run of the resolver returns: the
    handler gives [updateCache] nothing else. Merging it and then asking
    for ids of that map, less than the TTL after the merge, gives no
    miss, and every id asked is a hit with the merged value; asked for
    all its ids, the hit map is the merged map. (The resolver's keys are
    lower-case, which is where [getCachedResults] looks.) *)
Theorem merge_then_split_all_hits
    (JSON_stringify : Status → string) (net : nat → SqlCall → Exchange)
    (uncached : list TypedUuid) (config : Config) (s : RState)
    (stored : Storage) (t_merge t_split : Z)
    (fresh : gmap string Resolved) (typedUuids : list TypedUuid) :
  resolveUuids JSON_stringify net uncached config fresh_run = (Returned fresh, s) →
  (∀ item, item ∈ typedUuids → is_Some (fresh !! uuid item)) →
  t_split - t_merge < CACHE_TTL_MS →
  let split := getCachedResults (updateCache stored t_merge fresh) t_split typedUuids in
  split.2 = []
  ∧ (∀ item, item ∈ typedUuids → split.1 !! uuid item = fresh !! uuid item)
  ∧ ((∀ k, is_Some (fresh !! k) → ∃ item, item ∈ typedUuids ∧ uuid item = k) →
     split.1 = fresh).
Proof.
  intros Hrun. apply merge_then_split_lower_case_keys.
  intros k [v Hk].
  destruct (resolveUuids_run JSON_stringify net uncached config)
    as (o & s' & _ & _ & [Hprod _] & Hrun').
  rewrite Hrun' in Hrun. destruct o; simplify_eq.
  destruct (Hprod k v Hk) as (n & c & d & _ & _ & Hder).
  eapply derived_key_lower; [|exact Hder].
  apply Forall_forall. intros u Hu. unfold valid_uuids in Hu.
  by apply list_elem_of_In, filter_In in Hu as [_ ?].
Qed.

(** X26. Every map the resolver returns is keyed in lower case: the merge
    that follows it in the handler is one that a later split will find. *)
Lemma resolveUuids_keys_lower_case JSON_stringify net typedUuids config res s k :
  resolveUuids JSON_stringify net typedUuids config fresh_run = (Returned res, s) →
  is_Some (res !! k) → Js.toLowerCase k = k.
Proof.
  intros Hrun [v Hk].
  destruct (resolveUuids_run JSON_stringify net typedUuids config)
    as (o & s' & _ & _ & [Hprod _] & Hrun').
  rewrite Hrun' in Hrun. destruct o; simplify_eq.
  destruct (Hprod k v Hk) as (n & c & d & _ & _ & Hder).
  eapply derived_key_lower; [|exact Hder].
  apply Forall_forall. intros u Hu. unfold valid_uuids in Hu.
  by apply list_elem_of_In, filter_In in Hu as [_ ?].
Qed.

(** ** Closed examples *)

(** C1, as stated, fails. The schema is a cache hit, the table is a miss;
    its statement ends FAILED with message [x]. The resolver catches the
    error and logs it, so the lookup returns the hit with no [error]
    field at all. *)
Lemma lookup_failed_statement_returns_no_error :
  (getCachedResults configured_storage 1000 (normalise [table_item; schema_item])).2
    = [table_item]
  ∧ exec stringify_stub failing_net 0 table_call = Thrown "SQL failed: x"
  ∧ (lookupUuids stringify_stub failing_net configured_storage 1000 2000
       [table_item; schema_item]).1
    = Returned {| matches := {[ schema_uuid := a_schema ]}; error := None |}
  ∧ sql_calls (lookupUuids stringify_stub failing_net configured_storage 1000 2000
                 [table_item; schema_item]).2 = [table_call]
  ∧ error_log (lookupUuids stringify_stub failing_net configured_storage 1000 2000
                 [table_item; schema_item]).2
    = ["[S3 Lens BG] Table lookup failed: SQL failed: x"%string].
Proof. repeat split; vm_compute; reflexivity. Qed.

Lemma failing_net_never_pending n c : exec stringify_stub failing_net n c ≠ Pending.
Proof. done. Qed.

Lemma answering_net_never_pending n c : exec stringify_stub answering_net n c ≠ Pending.
Proof. by destruct n. Qed.

Lemma lookup_statement_failure_is_only_logged_witness :
  ∃ res, (lookupUuids stringify_stub failing_net configured_storage 1000 2000
            [table_item; schema_item]).1 = Returned res
    ∧ error res = None
    ∧ is_Some (matches res !! schema_uuid)
    ∧ logged (error_log (lookupUuids stringify_stub failing_net configured_storage
                           1000 2000 [table_item; schema_item]).2)
        "SQL failed: x".
Proof.
  destruct (lookup_statement_failure_is_only_logged stringify_stub failing_net
              configured_storage 1000 2000 [table_item; schema_item]
              0 table_call [pending_answer; running_answer] (failed_answer "x")
              {| state := Some "FAILED"%string;
                 status_error := Some {| message := Some "x"%string |} |} "x")
    as (res & Hres & Herr & _ & Hhits & _ & Hlog).
  - apply failing_net_never_pending.
  - vm_compute. reflexivity.
  - reflexivity.
  - repeat constructor.
  - reflexivity.
  - reflexivity.
  - reflexivity.
  - reflexivity.
  - discriminate.
  - exists res. split; [exact Hres|]. split; [exact Herr|]. split; [|exact Hlog].
    apply Hhits. exists a_schema. vm_compute. reflexivity.
Defined.

Lemma lookup_without_token_skips_resolution_witness :
  lookupUuids stringify_stub failing_net tokenless_storage 1000 2000
    [table_item; schema_item]
  = (Returned {| matches := (getCachedResults tokenless_storage 1000
                               (normalise [table_item; schema_item])).1;
                 error := Some "No PAT token configured"%string |},
     {| storage := tokenless_storage; sql_calls := []; error_log := [] |}).
Proof.
  apply lookup_without_token_skips_resolution.
  - vm_compute. discriminate.
  - reflexivity.
Defined.

Lemma executeSql_polls_until_terminal_witness :
  executeSql stringify_stub
    {| submitResp := pending_answer;
       pollResps := [running_answer;
                     succeeded_answer [[VStr "main"; VStr "sales"]]] |}
  = (Returned (json (succeeded_answer [[VStr "main"; VStr "sales"]])), 2%nat).
Proof.
  refine (proj1 (proj1 (executeSql_polls_until_terminal stringify_stub
            pending_answer
            [running_answer; succeeded_answer [[VStr "main"; VStr "sales"]]]
            [pending_answer; running_answer]
            (succeeded_answer [[VStr "main"; VStr "sales"]])
            {| state := Some "SUCCEEDED"%string; status_error := None |}
            _ _ _ _) _)).
  - reflexivity.
  - repeat constructor.
  - reflexivity.
  - reflexivity.
  - reflexivity.
Defined.

Lemma getCachedResults_total_partition_witness :
  (is_Some ((getCachedResults configured_storage 1000 [table_item; schema_item]).1
              !! cache_key schema_item)
   ∧ schema_item ∉ (getCachedResults configured_storage 1000 [table_item; schema_item]).2)
  ∨ ((getCachedResults configured_storage 1000 [table_item; schema_item]).1
       !! cache_key schema_item = None
     ∧ schema_item ∈ (getCachedResults configured_storage 1000 [table_item; schema_item]).2).
Proof.
  apply (proj1 (getCachedResults_total_partition configured_storage 1000
                  [table_item; schema_item])).
  apply list_elem_of_further, list_elem_of_here.
Defined.

Lemma getCachedResults_hit_iff_live_entry_witness :
  CACHE_TTL_MS = 86400000
  ∧ schema_item ∉ (getCachedResults configured_storage 1000 [table_item; schema_item]).2.
Proof.
  destruct (getCachedResults_hit_iff_live_entry configured_storage 1000
              [table_item; schema_item] schema_item) as (Httl & _ & Hmiss).
  - apply list_elem_of_further, list_elem_of_here.
  - split; [exact Httl|]. intros Hin. apply Hmiss in Hin as [Hnone|(e & He & Hage)].
    + vm_compute in Hnone. discriminate.
    + vm_compute in He. injection He as <-. vm_compute in Hage. by apply Hage.
Defined.

Lemma resolveUuids_never_queries_invalid_token_witness :
  resolveUuids stringify_stub answering_net [injected_item; table_item]
    (getConfig configured_storage) fresh_run
  = resolveUuids stringify_stub answering_net [table_item]
      (getConfig configured_storage) fresh_run.
Proof.
  exact (proj1 (resolveUuids_never_queries_invalid_token stringify_stub answering_net
                  [injected_item; table_item] (getConfig configured_storage))
               fresh_run).
Defined.

Lemma merge_then_split_all_hits_witness :
  (getCachedResults (updateCache configured_storage 2000 {[ table_uuid := a_table ]})
     (2000 + CACHE_TTL_MS - 1) [table_item]).2 = []
  ∧ (getCachedResults (updateCache configured_storage 2000 {[ table_uuid := a_table ]})
       (2000 + CACHE_TTL_MS - 1) [table_item]).1 = {[ table_uuid := a_table ]}.
Proof.
  destruct (merge_then_split_all_hits stringify_stub answering_net
              [table_item] (getConfig configured_storage)
              (resolveUuids stringify_stub answering_net [table_item]
                 (getConfig configured_storage) fresh_run).2
              configured_storage 2000 (2000 + CACHE_TTL_MS - 1)
              {[ table_uuid := a_table ]} [table_item])
    as (Hmiss & _ & Hall).
  - vm_compute. reflexivity.
  - intros item Hin. apply list_elem_of_singleton in Hin as ->.
    exists a_table. apply lookup_singleton_eq.
  - vm_compute. reflexivity.
  - split; [exact Hmiss|]. apply Hall.
    intros k [d Hk]. apply lookup_singleton_Some in Hk as [<- _].
    exists table_item. split; [apply list_elem_of_here|reflexivity].
Defined.

Lemma resolveUuids_executor_calls_witness :
  ∃ s', resolveUuids stringify_stub answering_net
          [schema_item; table_item; catalog_item]
          (getConfig configured_storage) fresh_run
        = (Returned (results s'), s')
    ∧ length (calls s') = 3%nat
    ∧ (call_sql <$> calls s' !! 0%nat)
      = Some (String "010" ""
              +:+ "        SELECT table_catalog, table_schema, table_name, storage_sub_directory"
              +:+ String "010" "" +:+ "        FROM system.information_schema.tables"
              +:+ String "010" ""
              +:+ "        WHERE storage_sub_directory IN ('tables/02001227-e40c-4d05-b79a-9dcab2964056')"
              +:+ String "010" "" +:+ "      ").
Proof.
  destruct (resolveUuids_executor_calls stringify_stub answering_net
              [schema_item; table_item; catalog_item] (getConfig configured_storage))
    as (s' & Hrun & _ & Hcount & _ & Htable & _).
  - repeat constructor.
  - apply answering_net_never_pending.
  - exists s'. split; [exact Hrun|]. split; [exact Hcount|].
    destruct Htable as [Hfirst _]; [discriminate|].
    rewrite Hfirst. reflexivity.
Defined.

Lemma updateCache_writes_fresh_keys_only_witness :
  uuidCache (getConfig (storage (lookupUuids stringify_stub failing_net
                                   configured_storage 1000 2000 [table_item]).2))
  = uuidCache (getConfig configured_storage)
  ∧ stored_cacheUpdatedAt (storage (lookupUuids stringify_stub failing_net
                                      configured_storage 1000 2000 [table_item]).2)
    = Some 2000.
Proof.
  destruct (updateCache_writes_fresh_keys_only stringify_stub failing_net
              configured_storage 2000 ∅ 1000 [table_item])
    as (_ & _ & _ & _ & Hlookup).
  apply Hlookup.
  - vm_compute. discriminate.
  - vm_compute. discriminate.
  - vm_compute. reflexivity.
Defined.

Module ContentExamples.
Import Content ContentFacts.

Example a_page_request :
  scan_request a_page = Some [table_item; schema_item].
Proof. vm_compute. reflexivity. Qed.

Lemma scan_sends_most_specific_type_witness :
  ∃ sent item, scan_request a_page = Some sent
    ∧ item ∈ sent
    ∧ uuid item = table_uuid
    ∧ (typePriority "catalog" ≤ typePriority (type item))%nat.
Proof.
  destruct (scan_sends_most_specific_type a_page
              {| uuid := table_uuid; type := "catalog" |})
    as (_ & _ & sent & Hsent & _ & item & Hin & Huuid & _ & Hrank & _).
  - vm_compute. apply list_elem_of_here.
  - exists sent, item. split; [exact Hsent|]. split; [exact Hin|].
    split; [exact Huuid|exact Hrank].
Defined.

End ContentExamples.

(** * Further properties of the code *)

(** ** Remote query executor: the other ways a call ends *)

Section ExecutorMore.

Variable JSON_stringify : Status → string.

Lemma poll_http_failure mid : ∀ d r post n,
  still_running d = true →
  Forall keeps_polling mid →
  ok r = false →
  poll d (mid ++ r :: post) n
  = (Thrown ("SQL poll failed (" +:+ Js.show_N (http_status r) +:+ "): "
               +:+ text r), (n + length mid + 1)%nat).
Proof.
  induction mid as [|m mid IH]; intros d r post n Hd Hmid Hr.
  - cbn [app poll length]. rewrite Hd, Hr. f_equal. lia.
  - apply Forall_cons in Hmid as [[Hm Hrun] Hmid].
    cbn [app poll length]. rewrite Hd, Hm, IH by done. f_equal. lia.
Qed.

(** X1. An answer that is not delivered (non-2xx) ends the call at once:
    as a submission failure if it is the answer to the POST, after no
    poll; as a poll failure otherwise, after one poll per earlier answer
    and this one. The message carries the status and the body, and the
    answers that would have followed are never asked for. *)
Theorem executeSql_http_failure
    (submit : Response) (polls pre : list Response) (r : Response)
    (post : list Response) :
  submit :: polls = pre ++ r :: post →
  Forall keeps_polling pre →
  ok r = false →
  executeSql JSON_stringify {| submitResp := submit; pollResps := polls |}
  = (Thrown ((if decide (pre = []) then "SQL submit failed (" else "SQL poll failed (")
               +:+ Js.show_N (http_status r) +:+ "): " +:+ text r),
     length pre).
Proof.
  intros Hseq Hpre Hr. destruct pre as [|p pre]; cbn [app] in Hseq; simplify_eq.
  - unfold executeSql. cbn [submitResp pollResps]. by rewrite Hr.
  - apply Forall_cons in Hpre as [[Hp Hrun] Hpre].
    unfold executeSql. cbn [submitResp pollResps].
    rewrite Hp, poll_http_failure by done.
    rewrite decide_False by done. f_equal. cbn [length]. lia.
Qed.

Lemma poll_all_running resps : ∀ d n,
  still_running d = true →
  Forall keeps_polling resps →
  poll d resps n = (Pending, (n + length resps)%nat).
Proof.
  induction resps as [|r resps IH]; intros d n Hd Hall.
  - cbn [poll length]. rewrite Hd. f_equal. lia.
  - apply Forall_cons in Hall as [[Hr Hrun] Hall].
    cbn [poll length]. rewrite Hd, Hr, IH by done. f_equal. lia.
Qed.

(** X2. The loop has no bound of its own: as long as every answer is
    PENDING or RUNNING the call polls again, and it is still pending
    after as many polls as there were answers. *)
Theorem executeSql_all_running_is_pending
    (submit : Response) (polls : list Response) :
  Forall keeps_polling (submit :: polls) →
  executeSql JSON_stringify {| submitResp := submit; pollResps := polls |}
  = (Pending, length polls).
Proof.
  intros Hall. apply Forall_cons in Hall as [[Hs Hrun] Hall].
  unfold executeSql. cbn [submitResp pollResps].
  by rewrite Hs, poll_all_running.
Qed.

Lemma poll_returned_inv resps : ∀ r0 n0 d n,
  ok r0 = true →
  poll (json r0) resps n0 = (Returned d, n) →
  ∃ pre final post,
    r0 :: resps = pre ++ final :: post
    ∧ Forall keeps_polling pre
    ∧ ok final = true
    ∧ json final = d
    ∧ still_running d = false
    ∧ n = (n0 + length pre)%nat.
Proof.
  induction resps as [|r1 resps IH]; intros r0 n0 d n Hok Hpoll;
    cbn [poll] in Hpoll; destruct (still_running (json r0)) eqn:Hrun;
    try done.
  - simplify_eq. exists [], r0, []. repeat split; try done; cbn [length]; lia.
  - destruct (ok r1) eqn:Hok1; [|done].
    destruct (IH r1 (S n0) d n Hok1 Hpoll)
      as (pre & final & post & Hseq & Hpre & Hfin & Hd & Hterm & Hn).
    exists (r0 :: pre), final, post. rewrite Hseq.
    repeat split; try done; [by apply Forall_cons|cbn [length]; lia].
  - simplify_eq. exists [], r0, (r1 :: resps). repeat split; try done; cbn [length]; lia.
Qed.

Lemma poll_reaches_terminal pre : ∀ d final post n,
  still_running d = true →
  Forall keeps_polling pre →
  ok final = true →
  still_running (json final) = false →
  poll d (pre ++ final :: post) n = (Returned (json final), (n + length pre + 1)%nat).
Proof.
  induction pre as [|r pre IH]; intros d final post n Hd Hpre Hok Hfin.
  - cbn [app poll length]. rewrite Hd, Hok.
    destruct post; cbn [poll]; rewrite Hfin; f_equal; lia.
  - apply Forall_cons in Hpre as [[Hr Hrun] Hpre].
    cbn [app poll length]. rewrite Hd, Hr, IH by done. f_equal. lia.
Qed.

(** X3. Whatever the endpoint answers, the call returns data exactly
    when the answers start with delivered ones that are PENDING or
    RUNNING, one poll each, followed by a delivered answer that is
    neither PENDING, RUNNING nor FAILED: it returns the body of that
    answer. So data never comes from an answer that was not delivered or
    that ended FAILED; and a state such as CANCELED or CLOSED, or no
    status at all, is returned like a success. *)
Theorem executeSql_returns_terminal_data (ex : Exchange) (d : Data) (n : nat) :
  executeSql JSON_stringify ex = (Returned d, n) ↔
  ∃ pre final post,
    submitResp ex :: pollResps ex = pre ++ final :: post
    ∧ Forall keeps_polling pre
    ∧ length pre = n
    ∧ ok final = true
    ∧ json final = d
    ∧ still_running d = false
    ∧ ∀ st, status d = Some st → state st ≠ Some "FAILED"%string.
Proof.
  split.
  - unfold executeSql. destruct (ok (submitResp ex)) eqn:Hok; [|done].
    destruct (poll (json (submitResp ex)) (pollResps ex) 0) as [[d'|msg|] n'] eqn:Hpoll;
      try done.
    intros Hrun.
    destruct (poll_returned_inv _ _ _ _ _ Hok Hpoll)
      as (pre & final & post & Hseq & Hpre & Hfin & Hd & Hterm & Hn).
    assert (d' = d ∧ n' = n ∧ ∀ st, status d = Some st → state st ≠ Some "FAILED"%string)
      as (-> & -> & Hnf).
    { destruct (status d') as [st|] eqn:Hst.
      - destruct (state_is st "FAILED") eqn:Hfail; [done|].
        injection Hrun as -> ->. split; [done|]. split; [done|].
        intros st' Hst' Hstate. rewrite Hst in Hst'. injection Hst' as <-.
        apply (state_is_eq st "FAILED") in Hstate. congruence.
      - injection Hrun as -> ->. split; [done|]. split; [done|].
        intros st'. by rewrite Hst. }
    exists pre, final, post. repeat split; try done; cbn [length]; lia.
  - intros (pre & final & post & Hseq & Hpre & Hlen & Hok & Hd & Hterm & Hnf).
    subst d n.
    assert (ok (submitResp ex) = true
            ∧ poll (json (submitResp ex)) (pollResps ex) 0
              = (Returned (json final), length pre)) as [Hsub Hpoll].
    { destruct pre as [|r pre]; cbn [app] in Hseq; injection Hseq as Hs Hp.
      - rewrite Hs. split; [done|]. by rewrite poll_terminal.
      - apply Forall_cons in Hpre as [[Hr Hrun] Hpre]. rewrite Hs, Hp.
        split; [done|].
        rewrite poll_reaches_terminal by done. f_equal. cbn [length]. lia. }
    unfold executeSql. rewrite Hsub, Hpoll.
    destruct (status (json final)) as [st|] eqn:Hst; [|done].
    destruct (state_is st "FAILED") eqn:Hfail; [|done].
    apply state_is_eq in Hfail. by destruct (Hnf st eq_refl).
Qed.

Lemma poll_ignores_late_answers resps more : ∀ d n,
  (poll d resps n).1 ≠ Pending →
  poll d (resps ++ more) n = poll d resps n.
Proof.
  induction resps as [|r resps IH]; intros d n; cbn [app poll].
  - intros H. destruct more as [|m more]; cbn [poll]; [done|].
    destruct (still_running d); [by contradict H|done].
  - destruct (still_running d); [|done]. destruct (ok r); [|done]. apply IH.
Qed.

(** X4. Once a call has ended, by returning or by throwing, nothing the
    endpoint would have answered afterwards changes how it ended or how
    many polls it made. *)
Theorem executeSql_ignores_late_answers
    (submit : Response) (polls more : list Response) :
  (executeSql JSON_stringify {| submitResp := submit; pollResps := polls |}).1
    ≠ Pending →
  executeSql JSON_stringify {| submitResp := submit; pollResps := polls ++ more |}
  = executeSql JSON_stringify {| submitResp := submit; pollResps := polls |}.
Proof.
  unfold executeSql. cbn [submitResp pollResps].
  destruct (ok submit); [|done]. intros Hend.
  rewrite poll_ignores_late_answers; [done|].
  intros Hp. apply Hend.
  by destruct (poll (json submit) polls 0) as [[d|msg|] n]; simplify_eq/=.
Qed.

End ExecutorMore.

(** ** Resolution cache: order, growth and reset *)

Lemma split_on_empty_cache stored now typedUuids :
  uuidCache (getConfig stored) = ∅ →
  getCachedResults stored now typedUuids = (∅, typedUuids).
Proof.
  intros Hempty.
  rewrite (surjective_pairing (getCachedResults stored now typedUuids)). f_equal.
  - apply map_eq. intros k. by rewrite getCachedResults_hits, Hempty, !lookup_empty.
  - rewrite getCachedResults_misses, Hempty.
    induction typedUuids as [|u l IH]; [done|].
    cbn [List.filter]. unfold is_hit at 1. rewrite lookup_empty. cbn [negb].
    by rewrite IH.
Qed.

(** X5. The miss list is the request without its hits, in the order of
    the request: an identifier asked twice and missing is listed twice,
    and with no cache at all the miss list is the request itself. *)
Theorem getCachedResults_misses_in_request_order
    (stored : Storage) (now : Z) (typedUuids : list TypedUuid) :
  (getCachedResults stored now typedUuids).2
  = List.filter (λ i, negb (is_hit (uuidCache (getConfig stored)) now i)) typedUuids
  ∧ (uuidCache (getConfig stored) = ∅ →
     getCachedResults stored now typedUuids = (∅, typedUuids)).
Proof.
  split; [apply getCachedResults_misses|apply split_on_empty_cache].
Qed.

(** X6. A merge only adds or replaces: the keys of the cache afterwards
    are those it had and those of the fresh map. Entries past the TTL
    are never dropped by it, so the number of entries reported by the
    [getConfig] action never goes down across a merge. *)
Theorem updateCache_never_evicts
    (stored : Storage) (now : Z) (fresh : gmap string Resolved) :
  let before := uuidCache (getConfig stored) in
  let after := uuidCache (getConfig (updateCache stored now fresh)) in
  dom after = dom before ∪ dom fresh
  ∧ (size before ≤ size after)%nat.
Proof.
  intros before after.
  assert (dom after = dom before ∪ dom fresh) as Hdom.
  { apply set_eq. intros k. rewrite elem_of_union, !elem_of_dom.
    subst after. rewrite updateCache_lookup. fold before.
    destruct (fresh !! k) as [d|]; split; try (intros [|]); eauto;
      try by destruct H as [? ?]. }
  split; [done|]. rewrite <- !size_dom, Hdom.
  apply subseteq_size. apply union_subseteq_l.
Qed.

(** X7. After two merges the later one wins key by key: an entry carries
    the value and the time of the last merge that held its key, and the
    cache-wide stamp is the time of the second. *)
Theorem updateCache_last_writer_wins
    (stored : Storage) (t1 t2 : Z) (f1 f2 : gmap string Resolved) (k : string) :
  let twice := updateCache (updateCache stored t1 f1) t2 f2 in
  uuidCache (getConfig twice) !! k
  = match f2 !! k, f1 !! k with
    | Some d, _ => Some {| data := d; cachedAt := t2 |}
    | None, Some d => Some {| data := d; cachedAt := t1 |}
    | None, None => uuidCache (getConfig stored) !! k
    end
  ∧ stored_cacheUpdatedAt twice = Some t2.
Proof.
  intros twice. split; [|done]. subst twice. rewrite !updateCache_lookup.
  by destruct (f2 !! k), (f1 !! k).
Qed.

(** X8. After [clearCache] every request is all misses, whatever the
    time, and nothing is a hit; the configuration keys are as before. *)
Theorem clearCache_forgets_every_entry
    (stored : Storage) (now : Z) (typedUuids : list TypedUuid) :
  getCachedResults (clearCache stored) now typedUuids = (∅, typedUuids)
  ∧ stored_cacheUpdatedAt (clearCache stored) = None
  ∧ workspaceUrl (getConfig (clearCache stored)) = workspaceUrl (getConfig stored)
  ∧ warehouseId (getConfig (clearCache stored)) = warehouseId (getConfig stored)
  ∧ patToken (getConfig (clearCache stored)) = patToken (getConfig stored).
Proof.
  split; [|done]. by apply split_on_empty_cache.
Qed.

(** ** No entry under [__proto__] *)

Lemma keeps_proto_ret {A} (a : A) : keeps_proto (ret a).
Proof. done. Qed.

Lemma keeps_proto_log_error line : keeps_proto (log_error line).
Proof. done. Qed.

Lemma keeps_proto_set_result key value : keeps_proto (set_result key value).
Proof. intros s. apply assign_lookup_proto. Qed.

Lemma keeps_proto_bind {A B} (m : M A) (k : A → M B) :
  keeps_proto m → (∀ a, keeps_proto (k a)) → keeps_proto (bind m k).
Proof.
  intros Hm Hk s. unfold bind. specialize (Hm s).
  destruct (m s) as [[a|msg|] s1]; cbn [snd] in *; [|done|done].
  by rewrite Hk.
Qed.

Lemma keeps_proto_try_catch {A} (m : M A) (h : string → M A) :
  keeps_proto m → (∀ msg, keeps_proto (h msg)) → keeps_proto (try_catch m h).
Proof.
  intros Hm Hh s. unfold try_catch. specialize (Hm s).
  destruct (m s) as [[a|msg|] s1]; cbn [snd] in *; [done| |done].
  by rewrite Hh.
Qed.

Lemma keeps_proto_for_each {A} (l : list A) (body : A → M unit) :
  (∀ x, keeps_proto (body x)) → keeps_proto (for_each l body).
Proof.
  intros Hbody. induction l as [|x l IH]; cbn [for_each].
  - apply keeps_proto_ret.
  - by apply keeps_proto_bind.
Qed.

Lemma keeps_proto_guarded (b : bool) (m : M unit) :
  keeps_proto m → keeps_proto (if b then m else ret tt).
Proof. by destruct b. Qed.

Lemma keeps_proto_table_row row : keeps_proto (table_row row).
Proof.
  unfold table_row. destruct (nth 3 row VUndefined); [|done|done].
  apply keeps_proto_set_result.
Qed.

Section NoPrototypeEntry.

Variable JSON_stringify : Status → string.
Variable net : nat → SqlCall → Exchange.

Lemma keeps_proto_call_executeSql w p h sql :
  keeps_proto (call_executeSql JSON_stringify net w p h sql).
Proof. done. Qed.

Lemma keeps_proto_resolve_tables config tableUuids :
  keeps_proto (resolve_tables JSON_stringify net config tableUuids).
Proof.
  unfold resolve_tables. apply keeps_proto_try_catch.
  - apply keeps_proto_bind; [apply keeps_proto_call_executeSql|].
    intros d. destruct (rows_of d); [|done].
    apply keeps_proto_for_each, keeps_proto_table_row.
  - intros msg. apply keeps_proto_log_error.
Qed.

Lemma keeps_proto_resolve_schema config u :
  keeps_proto (resolve_schema JSON_stringify net config u).
Proof.
  unfold resolve_schema. apply keeps_proto_try_catch.
  - apply keeps_proto_bind; [apply keeps_proto_call_executeSql|].
    intros d. destruct (rows_of d) as [[|row rest]|]; try done.
    apply keeps_proto_set_result.
  - intros msg. apply keeps_proto_log_error.
Qed.

Lemma keeps_proto_resolve_catalog config u :
  keeps_proto (resolve_catalog JSON_stringify net config u).
Proof.
  unfold resolve_catalog. apply keeps_proto_try_catch.
  - apply keeps_proto_bind; [apply keeps_proto_call_executeSql|].
    intros d. destruct (rows_of d) as [[|row rest]|]; try done.
    apply keeps_proto_set_result.
  - intros msg. apply keeps_proto_log_error.
Qed.

Lemma keeps_proto_resolveUuids typedUuids config :
  keeps_proto (resolveUuids JSON_stringify net typedUuids config).
Proof.
  unfold resolveUuids.
  destruct (length typedUuids =? 0)%nat; [done|].
  destruct (length (List.filter _ typedUuids) =? 0)%nat; [done|].
  apply keeps_proto_bind.
  { apply keeps_proto_guarded. apply keeps_proto_resolve_tables. }
  intros _. apply keeps_proto_bind.
  { apply keeps_proto_guarded.
    apply keeps_proto_for_each, keeps_proto_resolve_schema. }
  intros _. apply keeps_proto_bind; [|done].
  apply keeps_proto_guarded.
  apply keeps_proto_for_each, keeps_proto_resolve_catalog.
Qed.

(** However a run of the resolver from scratch ends, [results] has no
    entry under [__proto__]. *)
Lemma resolveUuids_no_proto typedUuids config o s :
  resolveUuids JSON_stringify net typedUuids config fresh_run = (o, s) →
  results s !! "__proto__"%string = None.
Proof.
  intros Hrun. pose proof (keeps_proto_resolveUuids typedUuids config fresh_run) as H.
  by rewrite Hrun in H.
Qed.

End NoPrototypeEntry.

(** The loop over the rows, one more row at a time. *)
Lemma table_rows_written_snoc good row m :
  table_rows_written (good ++ [row]) m
  = match nth 3 row VUndefined with
    | VStr subDir => assign (table_key subDir) (table_entry row)
                       (table_rows_written good m)
    | _ => table_rows_written good m
    end.
Proof. unfold table_rows_written. by rewrite foldl_app. Qed.

(** What the loop over full rows leaves: nothing under [__proto__]; an
    entry for every other key read from a row; and no entry that was not
    there before or does not come from a row. *)
Lemma table_rows_written_facts good m :
  table_rows_written good m !! "__proto__"%string = m !! "__proto__"%string
  ∧ (∀ k v, table_rows_written good m !! k = Some v →
       m !! k = Some v
       ∨ ∃ row subDir, row ∈ good
           ∧ nth 3 row VUndefined = VStr subDir
           ∧ k = table_key subDir
           ∧ k ≠ "__proto__"%string
           ∧ v = table_entry row)
  ∧ (∀ row subDir, row ∈ good →
       nth 3 row VUndefined = VStr subDir →
       table_key subDir ≠ "__proto__"%string →
       is_Some (table_rows_written good m !! table_key subDir)).
Proof.
  induction good as [|row good (IHp & IHin & IHall)] using rev_ind.
  - split; [done|]. split; [by left|]. intros row subDir Hin. by apply elem_of_nil in Hin.
  - rewrite table_rows_written_snoc. split; [|split].
    + destruct (nth 3 row VUndefined); [|done|done].
      by rewrite assign_lookup_proto.
    + intros k v Hk.
      assert (table_rows_written good m !! k = Some v
              ∨ ∃ subDir, nth 3 row VUndefined = VStr subDir ∧ k = table_key subDir
                  ∧ k ≠ "__proto__"%string ∧ v = table_entry row) as [Hold|Hnew].
      { destruct (nth 3 row VUndefined) as [sd| |]; [|by left|by left].
        apply assign_lookup_Some in Hk as [(-> & -> & ?)|?]; [right|by left].
        by exists sd. }
      * destruct (IHin k v Hold) as [?|(r & sd & Hr & ?)]; [by left|right].
        exists r, sd. split; [|done]. apply elem_of_app. by left.
      * destruct Hnew as (sd & ? & ? & ? & ?). right. exists row, sd.
        split; [|done]. apply elem_of_app. right. apply list_elem_of_here.
    + intros r sd Hr Hsd Hne.
      assert (∀ k, is_Some (table_rows_written good m !! k) →
                is_Some (match nth 3 row VUndefined with
                         | VStr subDir => assign (table_key subDir) (table_entry row)
                                            (table_rows_written good m)
                         | _ => table_rows_written good m
                         end !! k)) as Hmono.
      { intros k Hk. destruct (nth 3 row VUndefined) as [sd'| |]; try done.
        unfold assign. destruct (String.eqb (table_key sd') "__proto__"); [done|].
        apply lookup_insert_is_Some'. by right. }
      apply elem_of_app in Hr as [Hr|Hr].
      * apply Hmono. by eapply IHall.
      * apply list_elem_of_singleton in Hr as ->. rewrite Hsd.
        unfold assign. rewrite (proj2 (String.eqb_neq _ _) Hne).
        by rewrite lookup_insert_eq.
Qed.

(** ** The lookup handler, branch by branch *)

Section HandlerMore.

Variable JSON_stringify : Status → string.
Variable net : nat → SqlCall → Exchange.

Lemma lookupUuids_no_miss stored now_split now_merge uuids :
  (getCachedResults stored now_split (normalise uuids)).2 = [] →
  lookupUuids JSON_stringify net stored now_split now_merge uuids
  = (Returned {| matches := (getCachedResults stored now_split (normalise uuids)).1;
                 error := None |},
     {| storage := stored; sql_calls := []; error_log := [] |}).
Proof.
  intros Hmiss. unfold lookupUuids. fold (normalise uuids).
  destruct (getCachedResults stored now_split (normalise uuids))
    as [cached uncached] eqn:Hsplit.
  cbn [fst snd] in *. subst uncached.
  destruct (length (normalise uuids) =? 0)%nat eqn:Hlen.
  - apply Nat.eqb_eq, nil_length_inv in Hlen. rewrite Hlen in Hsplit.
    cbn in Hsplit. by simplify_eq.
  - cbn [length Nat.ltb Nat.leb]. by rewrite (left_id_L ∅ (∪)).
Qed.

Lemma lookupUuids_no_token stored now_split now_merge uuids :
  (getCachedResults stored now_split (normalise uuids)).2 ≠ [] →
  patToken (getConfig stored) = ""%string →
  lookupUuids JSON_stringify net stored now_split now_merge uuids
  = (Returned {| matches := (getCachedResults stored now_split (normalise uuids)).1;
                 error := Some "No PAT token configured"%string |},
     {| storage := stored; sql_calls := []; error_log := [] |}).
Proof.
  intros Hmiss Htoken. unfold lookupUuids. fold (normalise uuids).
  destruct (getCachedResults stored now_split (normalise uuids))
    as [cached uncached] eqn:Hsplit.
  cbn [fst snd] in *.
  destruct (length (normalise uuids) =? 0)%nat eqn:Hlen.
  { apply Nat.eqb_eq, nil_length_inv in Hlen. rewrite Hlen in Hsplit.
    cbn in Hsplit. by simplify_eq. }
  destruct uncached as [|u uncached]; [done|]. cbn [length Nat.ltb Nat.leb].
  by rewrite Htoken.
Qed.

(** With misses and a token, the lookup is the resolver's run followed
    by the merge. *)
Lemma lookupUuids_resolved stored now_split now_merge uuids :
  (getCachedResults stored now_split (normalise uuids)).2 ≠ [] →
  patToken (getConfig stored) ≠ ""%string →
  ∃ o s,
    step_spec JSON_stringify net
      (valid_uuids (getCachedResults stored now_split (normalise uuids)).2)
      (expected_calls (getConfig stored)
         (getCachedResults stored now_split (normalise uuids)).2)
      fresh_run o s
    ∧ run_inv JSON_stringify net
        (valid_uuids (getCachedResults stored now_split (normalise uuids)).2) s
    ∧ lookupUuids JSON_stringify net stored now_split now_merge uuids
      = match o with
        | Returned _ =>
            (Returned {| matches := results s
                                    ∪ (getCachedResults stored now_split
                                         (normalise uuids)).1;
                         error := None |},
             {| storage := updateCache stored now_merge (results s);
                sql_calls := calls s;
                error_log := console_error s |})
        | _ =>
            (Pending,
             {| storage := stored; sql_calls := calls s;
                error_log := console_error s |})
        end.
Proof.
  intros Hmiss Htoken.
  destruct (resolveUuids_run JSON_stringify net
              (getCachedResults stored now_split (normalise uuids)).2
              (getConfig stored))
    as (o & s & _ & Hstep & Hinv & Hrun).
  exists o, s. split; [done|]. split; [done|].
  rewrite lookupUuids_resolving, Hrun by done.
  destruct Hstep as [_ [->|[-> _]] _]; done.
Qed.

(** A lookup puts nothing in the cache under [__proto__]. *)
Lemma lookupUuids_no_proto stored now_split now_merge uuids :
  uuidCache (getConfig (storage (lookupUuids JSON_stringify net stored
                                   now_split now_merge uuids).2))
    !! "__proto__"%string
  = uuidCache (getConfig stored) !! "__proto__"%string.
Proof.
  destruct (decide ((getCachedResults stored now_split (normalise uuids)).2 = []))
    as [Hmiss|Hmiss].
  { by rewrite lookupUuids_no_miss. }
  destruct (decide (patToken (getConfig stored) = ""%string)) as [Htoken|Htoken].
  { by rewrite lookupUuids_no_token. }
  rewrite lookupUuids_resolving by done.
  destruct (resolveUuids JSON_stringify net _ (getConfig stored) fresh_run)
    as [[fresh|msg|] s] eqn:Hrun; cbn [snd storage]; try done.
  rewrite updateCache_lookup.
  destruct (resolveUuids_run JSON_stringify net
              (getCachedResults stored now_split (normalise uuids)).2
              (getConfig stored)) as (o & s' & _ & _ & _ & Hrun').
  rewrite Hrun' in Hrun. destruct o; simplify_eq.
  by rewrite (resolveUuids_no_proto JSON_stringify net _ _ _ _ Hrun').
Qed.

(** X9. A lookup never rejects, and the only error it ever reports is
    the missing token: then it has made no executor call and written
    nothing. No failure of the endpoint reaches the [error] field. *)
Theorem lookup_reports_only_missing_token
    (stored : Storage) (now_split now_merge : Z) (uuids : list TypedUuid) :
  let run := lookupUuids JSON_stringify net stored now_split now_merge uuids in
  (∀ msg, run.1 ≠ Thrown msg)
  ∧ ∀ res e, run.1 = Returned res → error res = Some e →
      e = "No PAT token configured"%string
      ∧ patToken (getConfig stored) = ""%string
      ∧ sql_calls run.2 = []
      ∧ storage run.2 = stored.
Proof.
  intros run. subst run.
  destruct (decide ((getCachedResults stored now_split (normalise uuids)).2 = []))
    as [Hmiss|Hmiss].
  { rewrite lookupUuids_no_miss by done. split; [done|].
    intros res e [= <-]. done. }
  destruct (decide (patToken (getConfig stored) = ""%string)) as [Htoken|Htoken].
  { rewrite lookupUuids_no_token by done. split; [done|].
    intros res e [= <-] [= <-]. done. }
  destruct (lookupUuids_resolved stored now_split now_merge uuids Hmiss Htoken)
    as (o & s & _ & _ & ->).
  destruct o; split; try done; intros res e [= <-]; done.
Qed.

(** X10. Every entry of what the resolver returns is accounted for by a
    call of the run that returned data. An entry of type table is the
    one built from a row of the data returned by the table statement,
    under the lower-cased [storage_sub_directory] of that row with its
    first [tables/] removed. An entry of type schema or catalog sits
    under an identifier of the request that passes the pattern and was
    asked with that very type, and is built from the first row returned
    by the statement made for that identifier. There is no entry of any
    other type, and none under [__proto__]. *)
Theorem resolveUuids_entries_typed
    (typedUuids : list TypedUuid) (config : Config)
    (res : gmap string Resolved) (s : RState) (k : string) (v : Resolved) :
  resolveUuids JSON_stringify net typedUuids config fresh_run = (Returned res, s) →
  res !! k = Some v →
  k ≠ "__proto__"%string
  ∧ ∃ n c d, calls s !! n = Some c
      ∧ exec JSON_stringify net n c = Returned d
      ∧ ((r_type v = "table"%string
          ∧ call_sql c = table_statement (of_type "table" (valid_uuids typedUuids))
          ∧ ∃ rows row subDir, rows_of d = Some rows
              ∧ row ∈ rows
              ∧ nth 3 row VUndefined = VStr subDir
              ∧ k = table_key subDir
              ∧ v = table_entry row)
         ∨ ((r_type v = "schema"%string ∨ r_type v = "catalog"%string)
            ∧ (∃ u, u ∈ typedUuids ∧ uuid u = k ∧ type u = r_type v)
            ∧ UUID_RE_test k = true
            ∧ ∃ row rest, rows_of d = Some (row :: rest)
                ∧ ((r_type v = "schema"%string
                    ∧ call_sql c = schema_sql k
                    ∧ fullName v = VStr (template (nth 0 row VUndefined) +:+ "."
                                           +:+ template (nth 1 row VUndefined)))
                   ∨ (r_type v = "catalog"%string
                      ∧ call_sql c = catalog_sql k
                      ∧ fullName v = nth 0 row VUndefined)))).
Proof.
  intros Hrun Hk.
  destruct (resolveUuids_run JSON_stringify net typedUuids config)
    as (o & s' & _ & _ & [Hprod _] & Hrun').
  rewrite Hrun' in Hrun. destruct o; simplify_eq.
  split.
  { intros ->.
    rewrite (resolveUuids_no_proto JSON_stringify net _ _ _ _ Hrun') in Hk.
    discriminate. }
  destruct (Hprod k v Hk) as (n & c & d & Hn & Hexec & Hder).
  exists n, c, d. split; [done|]. split; [done|].
  destruct Hder as [rows row subDir Hsql Hrows Hrow Hsub -> ->
                   |u row rest Hu -> Hsql Hrows ->|u row rest Hu -> Hsql Hrows ->].
  - left. split; [done|]. split; [done|]. by exists rows, row, subDir.
  - right. apply elem_of_of_type_valid in Hu as (Hin & Hvalid & Htype).
    split; [by left|]. split; [by exists u|]. split; [done|].
    exists row, rest. split; [done|]. by left.
  - right. apply elem_of_of_type_valid in Hu as (Hin & Hvalid & Htype).
    split; [by right|]. split; [by exists u|]. split; [done|].
    exists row, rest. split; [done|]. by right.
Qed.

(** X12. No match is not an error: if every statement returns and
    matches nothing, then with a token the lookup answers exactly the
    cache hits, with no [error] field, whatever was asked. *)
Theorem lookup_no_rows_no_match
    (stored : Storage) (now_split now_merge : Z) (uuids : list TypedUuid) :
  (∀ n c, ∃ d, exec JSON_stringify net n c = Returned d ∧ no_rows d) →
  patToken (getConfig stored) ≠ ""%string →
  (lookupUuids JSON_stringify net stored now_split now_merge uuids).1
  = Returned {| matches := (getCachedResults stored now_split (normalise uuids)).1;
                error := None |}.
Proof.
  intros Hnet Htoken.
  destruct (decide ((getCachedResults stored now_split (normalise uuids)).2 = []))
    as [Hmiss|Hmiss].
  { by rewrite lookupUuids_no_miss. }
  destruct (lookupUuids_resolved stored now_split now_merge uuids Hmiss Htoken)
    as (o & s & [_ Ho _] & [Hprod _] & ->).
  destruct Ho as [->|[_ (n & c & Hp)]].
  - cbn [fst]. do 2 f_equal.
    assert (results s = ∅) as ->; [|by rewrite (left_id_L ∅ (∪))].
    apply map_empty. intros k. apply eq_None_not_Some. intros [v Hk].
    destruct (Hprod k v Hk) as (n & c & d & _ & Hexec & Hder).
    destruct (Hnet n c) as (d' & Hexec' & Hnone). rewrite Hexec in Hexec'.
    simplify_eq.
    destruct Hder as [rows row subDir _ Hrows Hrow _ _ _
                     |u row rest _ _ _ Hrows _|u row rest _ _ _ Hrows _];
      destruct Hnone as [Hn|Hn]; rewrite Hn in Hrows; simplify_eq.
    by apply elem_of_nil in Hrow.
  - destruct (Hnet n c) as (d & Hexec & _). congruence.
Qed.

Lemma table_rows_good good : ∀ more s,
  Forall (λ row, ∃ subDir, nth 3 row VUndefined = VStr subDir) good →
  for_each (good ++ more) table_row s
  = for_each more table_row
      {| results := table_rows_written good (results s);
         calls := calls s; console_error := console_error s |}.
Proof.
  induction good as [|row good IH]; intros more s Hgood.
  - by destruct s.
  - apply Forall_cons in Hgood as [[subDir Hsub] Hgood].
    cbn [app for_each]. unfold bind at 1.
    destruct (table_row_run row s) as [(sd & Hsd & ->)|(msg & Hthrow)].
    + rewrite IH by done. cbn [results calls console_error].
      unfold table_rows_written. cbn [foldl]. by rewrite Hsd.
    + unfold table_row in Hthrow. rewrite Hsub in Hthrow. discriminate.
Qed.

(** X13. A row of the table statement whose [storage_sub_directory] is
    null stops the batch: the rows before it are kept, the rows after it
    are never read, the TypeError goes to [console.error] and the
    resolver carries on with the other groups. Of the rows kept, each
    has left an entry under its key, but for the key [__proto__], under
    which nothing is written; and nothing else was written. *)
Theorem resolve_tables_stops_at_null_subdir
    (config : Config) (tableUuids : list TypedUuid) (s : RState) (d : Data)
    (good : list (list Value)) (bad : list Value) (rest : list (list Value)) :
  exec JSON_stringify net (length (calls s))
    (sql_call config (table_statement tableUuids)) = Returned d →
  rows_of d = Some (good ++ bad :: rest) →
  Forall (λ row, ∃ subDir, nth 3 row VUndefined = VStr subDir) good →
  nth 3 bad VUndefined = VNull →
  resolve_tables JSON_stringify net config tableUuids s
  = (Returned tt,
     {| results := table_rows_written good (results s);
        calls := calls s ++ [sql_call config (table_statement tableUuids)];
        console_error :=
          console_error s
          ++ ["[S3 Lens BG] Table lookup failed: Cannot read properties of null (reading 'replace')"%string] |})
  ∧ table_rows_written good (results s) !! "__proto__"%string
    = results s !! "__proto__"%string
  ∧ (∀ row subDir, row ∈ good →
       nth 3 row VUndefined = VStr subDir →
       table_key subDir ≠ "__proto__"%string →
       is_Some (table_rows_written good (results s) !! table_key subDir))
  ∧ (∀ k v, table_rows_written good (results s) !! k = Some v →
       results s !! k = Some v
       ∨ ∃ row subDir, row ∈ good
           ∧ nth 3 row VUndefined = VStr subDir
           ∧ k = table_key subDir
           ∧ k ≠ "__proto__"%string
           ∧ v = table_entry row).
Proof.
  intros Hexec Hrows Hgood Hbad.
  destruct (table_rows_written_facts good (results s)) as (Hproto & Hfrom & Hall).
  split; [|by repeat split].
  unfold resolve_tables, try_catch, bind, call_executeSql.
  fold (table_statement tableUuids).
  fold (sql_call config (table_statement tableUuids)).
  unfold exec in Hexec. rewrite Hexec, Hrows, table_rows_good by done.
  cbn [for_each]. unfold bind, table_row. rewrite Hbad. reflexivity.
Qed.

End HandlerMore.

(** X11. What a lookup has freshly resolved, a later one serves from the
    cache. Take identifiers that came back as matches without having
    been hits, and any later storage in which the cache still holds for
    them what the first lookup left; the rest of that storage, the token
    included, is arbitrary. Asked for them less than the TTL after the
    merge, the lookup answers with the same values, makes no executor
    call and writes nothing, whatever the endpoint and whether or not a
    token is configured. *)
Theorem lookup_again_is_served_from_cache
    (JSON_stringify : Status → string) (net net' : nat → SqlCall → Exchange)
    (stored : Storage) (t1 t2 : Z) (uuids : list TypedUuid)
    (res : LookupResult) (eff : Effects)
    (later : Storage) (t3 t4 : Z) (again : list TypedUuid) :
  lookupUuids JSON_stringify net stored t1 t2 uuids = (Returned res, eff) →
  (∀ u, u ∈ again →
     is_Some (matches res !! Js.toLowerCase (uuid u))
     ∧ (getCachedResults stored t1 (normalise uuids)).1
         !! Js.toLowerCase (uuid u) = None) →
  (∀ u, u ∈ again →
     uuidCache (getConfig later) !! Js.toLowerCase (uuid u)
     = uuidCache (getConfig (storage eff)) !! Js.toLowerCase (uuid u)) →
  t3 - t2 < CACHE_TTL_MS →
  ∃ res', lookupUuids JSON_stringify net' later t3 t4 again
          = (Returned res',
             {| storage := later; sql_calls := []; error_log := [] |})
    ∧ error res' = None
    ∧ ∀ u, u ∈ again →
        matches res' !! Js.toLowerCase (uuid u)
        = matches res !! Js.toLowerCase (uuid u).
Proof.
  intros Hfirst Hfresh Hlater Hage.
  destruct again as [|u0 again'].
  { eexists. split; [reflexivity|]. split; [done|].
    intros u Hu. by apply elem_of_nil in Hu. }
  set (again := u0 :: again') in *.
  assert (u0 ∈ again) as Hu0 by apply list_elem_of_here.
  destruct (Hfresh u0 Hu0) as [[v0 Hv0] Hc0].
  (* the first lookup went through the resolver *)
  destruct (decide ((getCachedResults stored t1 (normalise uuids)).2 = []))
    as [Hmiss|Hmiss].
  { rewrite (lookupUuids_no_miss JSON_stringify net) in Hfirst by done. simplify_eq.
    cbn [matches] in Hv0. congruence. }
  destruct (decide (patToken (getConfig stored) = ""%string)) as [Htoken|Htoken].
  { rewrite (lookupUuids_no_token JSON_stringify net) in Hfirst by done. simplify_eq.
    cbn [matches] in Hv0. congruence. }
  destruct (lookupUuids_resolved JSON_stringify net stored t1 t2 uuids Hmiss Htoken)
    as (o & s & _ & _ & Hrun).
  rewrite Hrun in Hfirst. destruct o; simplify_eq. cbn [matches storage] in *.
  set (cached := (getCachedResults stored t1 (normalise uuids)).1) in *.
  assert (∀ u, u ∈ again →
            ∃ v, uuidCache (getConfig later) !! Js.toLowerCase (uuid u)
                 = Some {| data := v; cachedAt := t2 |}
              ∧ (results s ∪ cached) !! Js.toLowerCase (uuid u) = Some v) as Hres.
  { intros u Hu. destruct (Hfresh u Hu) as [[v Hv] Hc].
    exists v. split; [|done]. rewrite (Hlater u Hu), updateCache_lookup.
    apply lookup_union_Some_raw in Hv as [->|[_ ?]]; [done|congruence]. }
  assert (∀ item, item ∈ normalise again →
            ∃ u, u ∈ again ∧ cache_key item = Js.toLowerCase (uuid u)) as Hkey.
  { intros item Hitem. unfold normalise in Hitem.
    apply list_elem_of_fmap in Hitem as (u & -> & Hu). exists u. split; [done|].
    unfold cache_key. cbn [uuid]. apply toLowerCase_idem. }
  assert ((getCachedResults later t3 (normalise again)).2 = []) as Hallhits.
  { apply elem_of_nil_inv. intros item.
    rewrite getCachedResults_miss_item. intros [Hin Hmiss'].
    destruct (Hkey item Hin) as (u & Hu & Hk). destruct (Hres u Hu) as (v & Hv & _).
    assert (is_hit (uuidCache (getConfig later)) t3 item = true); [|congruence].
    apply is_hit_true. rewrite Hk, Hv. eauto. }
  eexists. split; [by apply (lookupUuids_no_miss JSON_stringify net')|]. cbn [error matches].
  split; [done|]. intros u Hu. destruct (Hres u Hu) as (v & Hv & ->).
  rewrite getCachedResults_hits, Hv.
  cbn [cachedAt data]. rewrite decide_True; [done|]. split; [|done].
  apply list_elem_of_fmap. exists {| uuid := Js.toLowerCase (uuid u); type := type u |}.
  split.
  - unfold cache_key. cbn [uuid]. by rewrite toLowerCase_idem.
  - unfold normalise.
    exact (list_elem_of_fmap_2
             (λ u, {| uuid := Js.toLowerCase (uuid u); type := type u |})
             again u Hu).
Qed.

(** ** The other actions *)

Lemma strip_trailing_slashes_cons c s :
  strip_trailing_slashes (String c s)
  = match strip_trailing_slashes s with
    | EmptyString => if Ascii.eqb c "/" then EmptyString else String c EmptyString
    | kept => String c kept
    end.
Proof. reflexivity. Qed.

Lemma strip_trailing_slashes_idem s :
  strip_trailing_slashes (strip_trailing_slashes s) = strip_trailing_slashes s.
Proof.
  induction s as [|c s IH]; [done|]. rewrite strip_trailing_slashes_cons.
  destruct (strip_trailing_slashes s) as [|k kept] eqn:Hs.
  - destruct (Ascii.eqb c "/") eqn:Hc; [done|].
    rewrite strip_trailing_slashes_cons. cbn [strip_trailing_slashes]. by rewrite Hc.
  - rewrite strip_trailing_slashes_cons, IH. done.
Qed.

Lemma strip_trailing_slashes_snoc s :
  strip_trailing_slashes (s +:+ "/") = strip_trailing_slashes s.
Proof.
  induction s as [|c s IH]; [done|].
  rewrite append_cons, !strip_trailing_slashes_cons. by rewrite IH.
Qed.

Lemma strip_trailing_slashes_no_slash s t :
  strip_trailing_slashes s ≠ t +:+ "/".
Proof.
  revert t. induction s as [|c s IH]; intros t.
  - by destruct t.
  - rewrite strip_trailing_slashes_cons.
    destruct (strip_trailing_slashes s) as [|k kept] eqn:Hs.
    + destruct (Ascii.eqb c "/") eqn:Hc; [by destruct t|].
      destruct t as [|x t]; [|by destruct t].
      intros [= ->]. by rewrite Ascii.eqb_refl in Hc.
    + destruct t as [|x t]; [done|]. rewrite append_cons.
      intros [= -> Hk]. by apply (IH t).
Qed.

(** X14. The statements URL does not depend on trailing slashes of the
    workspace URL: one more slash, or the URL as [saveConfig] stores it,
    give the same address, and the part before [/api] never ends with a
    slash. *)
Theorem statements_url_ignores_trailing_slashes (workspaceUrl : string) :
  statements_url (workspaceUrl +:+ "/") = statements_url workspaceUrl
  ∧ statements_url (strip_trailing_slashes workspaceUrl) = statements_url workspaceUrl
  ∧ ∀ t, strip_trailing_slashes workspaceUrl ≠ t +:+ "/".
Proof.
  unfold statements_url. split; [by rewrite strip_trailing_slashes_snoc|].
  split; [by rewrite strip_trailing_slashes_idem|].
  apply strip_trailing_slashes_no_slash.
Qed.

Section ActionsMore.

Variable JSON_stringify : Status → string.
Variable net : nat → SqlCall → Exchange.

(** X15. What [saveConfig] stores, [getConfig] reports: the workspace
    URL without its trailing slashes, the warehouse id, and whether the
    token is non-empty, never the token itself. A field the message
    leaves out keeps its stored value, and the cache is not touched. *)
Theorem saveConfig_then_getConfig
    (stored : Storage) (ws wh pat : option string) (t1 t2 t3 t4 : Z) :
  let answered := handleMessage JSON_stringify net (SaveConfig ws wh pat) stored t1 t2 in
  let before := getConfig stored in
  answered.1 = Returned SuccessReply
  ∧ (handleMessage JSON_stringify net GetConfig (storage answered.2) t3 t4).1
    = Returned
        (ConfigReply
           (default (workspaceUrl before) (strip_trailing_slashes <$> ws))
           (default (warehouseId before) wh)
           (negb (String.eqb (default (patToken before) pat) ""))
           (size (uuidCache before))
           (cacheUpdatedAt before))
  ∧ stored_uuidCache (storage answered.2) = stored_uuidCache stored.
Proof. by destruct ws, wh, pat. Qed.

Lemma lookupUuids_storage stored now_split now_merge uuids :
  storage (lookupUuids JSON_stringify net stored now_split now_merge uuids).2 = stored
  ∨ ∃ fresh,
      storage (lookupUuids JSON_stringify net stored now_split now_merge uuids).2
      = updateCache stored now_merge fresh.
Proof.
  destruct (decide ((getCachedResults stored now_split (normalise uuids)).2 = []))
    as [Hmiss|Hmiss].
  { left. by rewrite lookupUuids_no_miss. }
  destruct (decide (patToken (getConfig stored) = ""%string)) as [Htoken|Htoken].
  { left. by rewrite lookupUuids_no_token. }
  destruct (lookupUuids_resolved JSON_stringify net stored now_split now_merge
              uuids Hmiss Htoken) as (o & s & _ & _ & ->).
  destruct o; [right; by eexists|by left|by left].
Qed.

(** X16. Only [saveConfig] writes the configuration: whatever else is
    asked of the handler (a lookup, a connection test, clearing the
    cache, an unknown action) and however it ends, the stored workspace
    URL, warehouse id and token are as they were. *)
Theorem only_saveConfig_writes_configuration
    (message : Message) (stored : Storage) (now_split now_merge : Z) :
  (∀ ws wh pat, message ≠ SaveConfig ws wh pat) →
  let after := storage (onMessage JSON_stringify net message stored
                          now_split now_merge).2 in
  stored_workspaceUrl after = stored_workspaceUrl stored
  ∧ stored_warehouseId after = stored_warehouseId stored
  ∧ stored_patToken after = stored_patToken stored.
Proof.
  intros Hnot after. subst after. unfold onMessage.
  assert (∀ st, (st = stored ∨ ∃ fresh, st = updateCache stored now_merge fresh) →
            stored_workspaceUrl st = stored_workspaceUrl stored
            ∧ stored_warehouseId st = stored_warehouseId stored
            ∧ stored_patToken st = stored_patToken stored) as Hkeep.
  { intros st [->|[fresh ->]]; done. }
  destruct message as [|ws wh pat| | |uuids|action].
  - done.
  - by destruct (Hnot ws wh pat).
  - cbn [handleMessage fst snd].
    by destruct (testConnection JSON_stringify net (getConfig stored)).1.
  - done.
  - cbn [handleMessage fst snd].
    pose proof (lookupUuids_storage stored now_split now_merge (default [] uuids)) as Hst.
    destruct (lookupUuids JSON_stringify net stored now_split now_merge
                (default [] uuids)) as [[r|msg|] eff]; cbn [fst snd storage] in *;
      by apply Hkeep.
  - done.
Qed.

Lemma poll_thrown_nonempty resps : ∀ d n msg n',
  poll d resps n = (Thrown msg, n') → msg ≠ ""%string.
Proof.
  induction resps as [|r resps IH]; intros d n msg n'; cbn [poll];
    destruct (still_running d); try done.
  destruct (ok r); [apply IH|]. by intros [= <- _].
Qed.

Lemma executeSql_thrown_nonempty ex msg :
  (executeSql JSON_stringify ex).1 = Thrown msg → msg ≠ ""%string.
Proof.
  unfold executeSql. destruct (ok (submitResp ex)); [|by intros [= <-]].
  destruct (poll (json (submitResp ex)) (pollResps ex) 0) as [[d|m|] n] eqn:Hpoll.
  - destruct (status d) as [st|]; [|done].
    destruct (state_is st "FAILED"); [|done]. by intros [= <-].
  - cbn [fst]. intros [= <-]. by eapply poll_thrown_nonempty.
  - done.
Qed.

(** X17. The connection test, from the click to the text shown. It
    makes the one call [SELECT 1 AS ok] and writes nothing. The popup
    shows success exactly when the statement came back SUCCEEDED with the
    string ["1"] as the first cell of its first row; a statement that
    came back otherwise (no rows, another state) is reported as an
    unexpected response, a call that threw is reported with its message,
    and while the statement is pending nothing is shown. *)
Theorem testConnection_shows
    (stored : Storage) (now_split now_merge : Z) :
  let run := onMessage JSON_stringify net TestConnection stored now_split now_merge in
  let c := sql_call (getConfig stored) "SELECT 1 AS ok" in
  sql_calls run.2 = [c]
  ∧ storage run.2 = stored
  ∧ Popup.test_message <$> run.1
    = match exec JSON_stringify net 0 c with
      | Returned d =>
          if is_ok_row d then Some "Connection successful!"%string
          else Some ("Connection failed: Unexpected response: "
                       +:+ stringify_status JSON_stringify (status d))
      | Thrown msg => Some ("Connection failed: " +:+ msg)
      | Pending => None
      end
  ∧ ∀ d, is_ok_row d = true ↔
         ∃ st row rest, status d = Some st
           ∧ state st = Some "SUCCEEDED"%string
           ∧ rows_of d = Some (row :: rest)
           ∧ nth 0 row VUndefined = VStr "1".
Proof.
  intros run c. subst run. unfold onMessage.
  cbn [handleMessage fst snd testConnection]. fold c.
  fold (exec JSON_stringify net 0 c).
  split; [by destruct (exec JSON_stringify net 0 c) as [d|msg|]; [destruct (is_ok_row d)| |]|].
  split; [by destruct (exec JSON_stringify net 0 c) as [d|msg|]; [destruct (is_ok_row d)| |]|].
  split.
  - destruct (exec JSON_stringify net 0 c) as [d|msg|] eqn:Hexec.
    + by destruct (is_ok_row d).
    + cbn [fmap option_fmap option_map Popup.test_message fst].
      apply executeSql_thrown_nonempty in Hexec.
      by rewrite (proj2 (String.eqb_neq msg "") Hexec).
    + done.
  - intros d. unfold is_ok_row. rewrite andb_true_iff. split.
    + intros [Hstate Hrow]. destruct (status d) as [st|]; [|done].
      apply state_is_eq in Hstate.
      destruct (rows_of d) as [[|row rest]|]; try done.
      destruct (nth 0 row VUndefined) as [cell| |] eqn:Hcell; try done.
      apply String.eqb_eq in Hrow as ->. by exists st, row, rest.
    + intros (st & row & rest & -> & Hstate & -> & ->).
      split; [by apply state_is_eq|done].
Qed.

End ActionsMore.

(** ** The content script: what is parsed, sent and badged *)

Module ContentMore.
Import Content ContentFacts Annotate.

Lemma parse_pairs_valid_upto (n : nat) : ∀ segments occ,
  (length segments ≤ n)%nat →
  occ ∈ parse_pairs segments →
  UUID_RE_test (uuid occ) = true.
Proof.
  induction n as [|n IH]; intros segments occ Hlen;
    destruct segments as [|kind [|token rest]]; cbn [parse_pairs length] in *;
    try (intros H; by apply elem_of_nil in H); try lia.
  intros H. apply elem_of_app in H as [H|H].
  - destruct (String.eqb token ""); [by apply elem_of_nil in H|].
    destruct (UUID_PATTERN_test (Js.toLowerCase (clean token))) eqn:Hvalid;
      cbn [negb] in H; [|by apply elem_of_nil in H].
    destruct (String.eqb kind "tables");
      [apply list_elem_of_singleton in H as ->; exact Hvalid|].
    destruct (String.eqb kind "schemas");
      [apply list_elem_of_singleton in H as ->; exact Hvalid|].
    destruct (String.eqb kind "catalogs");
      [apply list_elem_of_singleton in H as ->; exact Hvalid|].
    by apply elem_of_nil in H.
  - apply (IH rest); [lia|done].
Qed.

(** X18. [parseUnityPath] never returns an empty array, and every
    identifier it returns passes the pattern, is in lower case and is
    declared a table, a schema or a catalog; a text without
    [__unitystorage/] gives null. *)
Theorem parseUnityPath_returns_valid_identifiers
    (text : string) (parsed : list TypedUuid) :
  parseUnityPath text = Some parsed →
  parsed ≠ []
  ∧ includes "__unitystorage/" text = true
  ∧ ∀ occ, occ ∈ parsed →
      UUID_RE_test (uuid occ) = true
      ∧ Js.toLowerCase (uuid occ) = uuid occ
      ∧ (type occ = "table"%string ∨ type occ = "schema"%string
         ∨ type occ = "catalog"%string).
Proof.
  unfold parseUnityPath, includes.
  destruct (from_indexOf "__unitystorage/" text) as [pathPart|]; [|done].
  destruct (parse_pairs (tl (split_slash pathPart ""))) as [|p ps] eqn:Hp; [done|].
  cbn [length Nat.ltb Nat.leb]. intros [= <-]. split; [done|]. split; [done|].
  intros occ Hocc. rewrite <- Hp in Hocc.
  assert (UUID_RE_test (uuid occ) = true) as Hvalid
    by by eapply (parse_pairs_valid_upto _ _ _ (Nat.le_refl _)).
  split; [done|]. split; [by apply UUID_RE_lower|]. by eapply parse_pairs_kinds.
Qed.

Lemma occurrences_valid spans occ :
  occ ∈ occurrences spans → UUID_RE_test (uuid occ) = true.
Proof.
  unfold occurrences. intros H.
  apply list_elem_of_In, in_concat in H as (parsed & Hp & Hocc).
  apply in_map_iff in Hp as (span & <- & _). apply list_elem_of_In in Hocc.
  unfold parsed_of in Hocc. destruct (annotated span); [by apply elem_of_nil in Hocc|].
  destruct (negb _); [by apply elem_of_nil in Hocc|].
  unfold parseUnityPath in Hocc.
  destruct (from_indexOf "__unitystorage/" (textContent span)) as [pathPart|];
    [|by apply elem_of_nil in Hocc].
  destruct (0 <? length _)%nat; [|by apply elem_of_nil in Hocc].
  by eapply (parse_pairs_valid_upto _ _ _ (Nat.le_refl _)).
Qed.

Lemma findUnityElements_most_specific spans :
  most_specific (typedUuids (findUnityElements spans)) (occurrences spans).
Proof.
  destruct (findUnityElements_fold spans {| elements := []; typedUuids := [] |})
    as [Htyped _].
  fold (findUnityElements spans) in Htyped. cbn [typedUuids] in Htyped.
  rewrite Htyped. apply (keep_most_specific_fold _ [] []).
  split; [constructor|]. split; [done|]. intros o Ho. by apply elem_of_nil in Ho.
Qed.

Lemma normalise_valid l :
  Forall (λ u, UUID_RE_test (uuid u) = true) l → normalise l = l.
Proof.
  induction 1 as [|u l Hu _ IH]; [done|].
  unfold normalise in *. cbn [map]. rewrite IH, (UUID_RE_lower _ Hu).
  by destruct u.
Qed.

(** X19. What the scanner sends is what the handler and the resolver
    work on: the request is not empty, every identifier in it passes the
    pattern and is already in lower case, so normalising it changes
    nothing and the resolver's own validation drops nothing. *)
Theorem scan_request_is_canonical (spans : list Span) (sent : list TypedUuid) :
  scan_request spans = Some sent →
  sent ≠ []
  ∧ Forall (λ u, UUID_RE_test (uuid u) = true) sent
  ∧ normalise sent = sent
  ∧ valid_uuids sent = sent.
Proof.
  unfold scan_request.
  destruct (elements (findUnityElements spans)) as [|e es]; [done|].
  destruct (typedUuids (findUnityElements spans)) as [|m ms] eqn:Hm; [done|].
  cbn [length Nat.eqb orb]. intros [= <-].
  destruct (findUnityElements_most_specific spans) as (Hnd & Hmax & _).
  rewrite Hm in Hnd, Hmax.
  assert (Forall (λ u, UUID_RE_test (uuid u) = true)
            (map (λ e, {| uuid := e.1; type := e.2 |}) (m :: ms))) as Hvalid.
  { apply Forall_forall. intros u Hu.
    apply list_elem_of_In, in_map_iff in Hu as ([k t] & <- & Hin).
    apply list_elem_of_In in Hin. cbn [uuid fst snd].
    destruct (Hmax k t (elem_Map_get _ _ _ Hnd Hin)) as [Hocc _].
    by apply occurrences_valid in Hocc. }
  split; [done|]. split; [done|].
  split; [by apply normalise_valid|by apply valid_uuids_all].
Qed.

(** X20. A span that carries the annotation mark is invisible to the
    scanner: the page without its annotated spans gives the same elements
    and the same map from identifier to type. *)
Theorem findUnityElements_skips_annotated (spans : list Span) :
  findUnityElements spans
  = findUnityElements (List.filter (λ span, negb (annotated span)) spans).
Proof.
  unfold findUnityElements. generalize {| elements := []; typedUuids := [] |}.
  induction spans as [|span spans IH]; intros acc; [done|].
  cbn [foldl List.filter]. destruct (annotated span) eqn:Hann; cbn [negb foldl].
  - unfold scan_span at 2. rewrite Hann. apply IH.
  - apply IH.
Qed.

Lemma better_match_fold matchMap parsed : ∀ best seen,
  (match best with
   | Some info =>
       (∃ p, p ∈ seen ∧ matchMap !! uuid p = Some info)
       ∧ ∀ q info', q ∈ seen → matchMap !! uuid q = Some info' →
           (typePriority (r_type info') ≤ typePriority (r_type info))%nat
   | None => ∀ q, q ∈ seen → matchMap !! uuid q = None
   end) →
  match foldl (better_match matchMap) best parsed with
  | Some info =>
      (∃ p, p ∈ seen ++ parsed ∧ matchMap !! uuid p = Some info)
      ∧ ∀ q info', q ∈ seen ++ parsed → matchMap !! uuid q = Some info' →
          (typePriority (r_type info') ≤ typePriority (r_type info))%nat
  | None => ∀ q, q ∈ seen ++ parsed → matchMap !! uuid q = None
  end.
Proof.
  induction parsed as [|p parsed IH]; intros best seen Hinv; cbn [foldl].
  - by rewrite app_nil_r.
  - replace (seen ++ p :: parsed) with ((seen ++ [p]) ++ parsed)
      by by rewrite <- app_assoc.
    apply IH. unfold better_match.
    destruct (matchMap !! uuid p) as [info|] eqn:Hp.
    + destruct best as [best|].
      * destruct Hinv as [(p0 & Hp0 & Hm0) Hmax].
        destruct (typePriority (r_type best) <? typePriority (r_type info))%nat eqn:Hlt.
        -- apply Nat.ltb_lt in Hlt. split.
           ++ exists p. split; [|done]. apply elem_of_app. right. apply list_elem_of_here.
           ++ intros q info' Hq Hm. apply elem_of_app in Hq as [Hq|Hq].
              ** specialize (Hmax q info' Hq Hm). lia.
              ** apply list_elem_of_singleton in Hq as ->. simplify_eq. lia.
        -- apply Nat.ltb_ge in Hlt. split.
           ++ exists p0. split; [|done]. apply elem_of_app. by left.
           ++ intros q info' Hq Hm. apply elem_of_app in Hq as [Hq|Hq].
              ** by apply (Hmax q).
              ** apply list_elem_of_singleton in Hq as ->. by simplify_eq.
      * split.
        -- exists p. split; [|done]. apply elem_of_app. right. apply list_elem_of_here.
        -- intros q info' Hq Hm. apply elem_of_app in Hq as [Hq|Hq].
           ++ rewrite (Hinv q Hq) in Hm. done.
           ++ apply list_elem_of_singleton in Hq as ->. by simplify_eq.
    + destruct best as [best|].
      * destruct Hinv as [(p0 & Hp0 & Hm0) Hmax]. split.
        -- exists p0. split; [|done]. apply elem_of_app. by left.
        -- intros q info' Hq Hm. apply elem_of_app in Hq as [Hq|Hq].
           ++ by apply (Hmax q).
           ++ apply list_elem_of_singleton in Hq as ->. congruence.
      * intros q Hq. apply elem_of_app in Hq as [Hq|Hq]; [by apply Hinv|].
        by apply list_elem_of_singleton in Hq as ->.
Qed.

Lemma bestMatch_facts
    (matchMap : gmap string Resolved) (parsed : list TypedUuid) :
  match bestMatch matchMap parsed with
  | Some info =>
      (∃ p, p ∈ parsed ∧ matchMap !! uuid p = Some info)
      ∧ ∀ q info', q ∈ parsed → matchMap !! uuid q = Some info' →
          (typePriority (r_type info') ≤ typePriority (r_type info))%nat
  | None => ∀ q, q ∈ parsed → matchMap !! uuid q = None
  end.
Proof.
  apply (better_match_fold matchMap parsed None []).
  intros q Hq. by apply elem_of_nil in Hq.
Qed.

(** X21. The badge of an element is taken from the matches of its own
    identifiers, and from the most specific of them: the best match is
    the match of one of the parsed identifiers, no match of another
    outranks its type, and there is none exactly when none of the parsed
    identifiers has a match. *)
Theorem bestMatch_is_most_specific
    (matchMap : gmap string Resolved) (parsed : list TypedUuid) :
  match bestMatch matchMap parsed with
  | Some info =>
      (∃ p, p ∈ parsed ∧ matchMap !! uuid p = Some info)
      ∧ ∀ q info', q ∈ parsed → matchMap !! uuid q = Some info' →
          (typePriority (r_type info') ≤ typePriority (r_type info))%nat
  | None => ∀ q, q ∈ parsed → matchMap !! uuid q = None
  end.
Proof. apply bestMatch_facts. Qed.

Lemma elements_scannable spans : ∀ acc,
  Forall scannable (elements acc) →
  Forall scannable (elements (foldl scan_span acc spans)).
Proof.
  induction spans as [|span spans IH]; intros acc Hacc; [done|].
  cbn [foldl]. apply IH. unfold scan_span.
  destruct (annotated span) eqn:Hann; [done|].
  destruct (includes "__unitystorage" (textContent span)) eqn:Hinc; [|done].
  cbn [negb].
  destruct (parseUnityPath (textContent span)) as [parsed|] eqn:Hparse; [|done].
  cbn [elements]. apply Forall_app. split; [done|].
  apply Forall_singleton. by repeat split.
Qed.

Lemma rescan_keeps_unbadged matchMap es : ∀ acc,
  Forall scannable es →
  elements (foldl scan_span acc (map fst (annotateElements es matchMap)))
  = elements acc ++ List.filter (unbadged matchMap) es.
Proof.
  induction es as [|[span parsed] es IH]; intros acc Hes.
  - by rewrite app_nil_r.
  - apply Forall_cons in Hes as [(Hann & Hinc & Hparse) Hes].
    cbn [fst snd] in *.
    cbn [annotateElements map foldl List.filter]. fold (annotateElements es matchMap).
    rewrite IH by done. unfold annotate_element, unbadged. cbn [fst snd].
    rewrite Hann. destruct (bestMatch matchMap parsed) as [info|].
    + done.
    + cbn [fst]. unfold scan_span. rewrite Hann, Hinc, Hparse. cbn [negb elements].
      by rewrite <- app_assoc.
Qed.

(** X22. Badges are not put twice: once [annotateElements] has run on
    the elements of a scan, a new scan of those spans finds only the
    elements that got no badge, unchanged; those that got one carry the
    mark and are left alone. An already marked element gets no badge. *)
Theorem annotated_elements_are_not_rescanned
    (spans : list Span) (matchMap : gmap string Resolved) :
  let found := elements (findUnityElements spans) in
  let after := annotateElements found matchMap in
  elements (findUnityElements (map fst after))
  = List.filter (unbadged matchMap) found
  ∧ Forall (λ r, is_Some r.2 → annotated r.1 = true) after
  ∧ ∀ e, annotated e.1 = true → annotate_element matchMap e = (e.1, None).
Proof.
  intros found after. split; [|split].
  - subst after. unfold findUnityElements at 1.
    rewrite rescan_keeps_unbadged; [done|].
    subst found. apply elements_scannable. constructor.
  - subst after. unfold annotateElements. apply Forall_forall. intros r Hr.
    apply list_elem_of_In, in_map_iff in Hr as (e & <- & _).
    unfold annotate_element. destruct (annotated e.1) eqn:Hann; [by intros []|].
    destruct (bestMatch matchMap e.2); [done|by intros []].
  - intros e Hann. unfold annotate_element. by rewrite Hann.
Qed.

End ContentMore.

(** ** The content script: the documented path shapes *)

Module PathShapes.
Import Content.

Lemma append_nil_r (s : string) : s +:+ "" = s.
Proof. induction s as [|c s IH]; [done|]. by rewrite append_cons, IH. Qed.

Lemma from_indexOf_eq pat text :
  from_indexOf pat text
  = if Js.startsWith pat text then Some text
    else match text with
         | EmptyString => None
         | String _ rest => from_indexOf pat rest
         end.
Proof. by destruct text. Qed.

Lemma startsWith_app pat rest : Js.startsWith pat (pat +:+ rest) = true.
Proof.
  induction pat as [|c pat IH]; [done|].
  rewrite append_cons. cbn [Js.startsWith]. by rewrite Ascii.eqb_refl.
Qed.

(** Characters that cannot begin the marker are skipped. *)
Lemma from_indexOf_skip (c0 : ascii) (pat bucket rest : string) :
  all_chars (λ c, negb (Ascii.eqb c0 c)) bucket = true →
  from_indexOf (String c0 pat) (bucket +:+ rest)
  = from_indexOf (String c0 pat) rest.
Proof.
  induction bucket as [|b bucket IH]; [done|]. cbn [all_chars].
  intros [Hb Hrest]%andb_true_iff. rewrite append_cons, from_indexOf_eq.
  cbn [Js.startsWith]. apply negb_true_iff in Hb. rewrite Hb. by apply IH.
Qed.

Lemma split_slash_app (s : string) : ∀ seg rest,
  all_chars not_slash s = true →
  split_slash (s +:+ rest) seg = split_slash rest (seg +:+ s).
Proof.
  induction s as [|c s IH]; intros seg rest.
  - intros _. by rewrite append_nil_r.
  - cbn [all_chars]. intros [Hc Hs]%andb_true_iff.
    rewrite append_cons. cbn [split_slash].
    apply negb_true_iff in Hc. rewrite Hc, IH by done.
    by rewrite append_assoc.
Qed.

Lemma split_slash_end (s seg : string) :
  all_chars not_slash s = true → split_slash s seg = [seg +:+ s].
Proof.
  intros Hs. rewrite <- (append_nil_r s) at 1. by rewrite split_slash_app.
Qed.

Lemma split_slash_slash (rest seg : string) :
  split_slash ("/" +:+ rest) seg = seg :: split_slash rest "".
Proof. reflexivity. Qed.

Lemma is_hex_plain c :
  Js.is_hex c = true → keeps c = true ∧ not_slash c = true.
Proof. by destruct c as [[] [] [] [] [] [] [] []]. Qed.

(** An identifier that passes the pattern has no slash, loses nothing to
    the cleaning and is not empty. *)
Lemma UUID_RE_plain s :
  UUID_RE_test s = true →
  all_chars not_slash s = true ∧ clean s = s ∧ String.eqb s "" = false.
Proof.
  intros Hs. split; [|split].
  - revert s Hs. apply UUID_RE_chars; [done| |].
    + intros c s Hc Hrest. cbn [all_chars].
      by rewrite (proj2 (is_hex_plain c Hc)), Hrest.
    + intros s Hrest. cbn [all_chars]. by rewrite Hrest.
  - revert s Hs. apply UUID_RE_chars; [done| |].
    + intros c s Hc Hrest. cbn [clean].
      by rewrite (proj1 (is_hex_plain c Hc)), Hrest.
    + intros s Hrest. cbn [clean]. by rewrite Hrest.
  - by destruct s.
Qed.

Lemma parse_pair_valid (kind token : string) (rest : list string) :
  UUID_RE_test token = true →
  parse_pairs (kind :: token :: rest)
  = (if String.eqb kind "tables" then [{| uuid := token; type := "table" |}]
     else if String.eqb kind "schemas" then [{| uuid := token; type := "schema" |}]
     else if String.eqb kind "catalogs" then [{| uuid := token; type := "catalog" |}]
     else [])
    ++ parse_pairs rest.
Proof.
  intros Hvalid. destruct (UUID_RE_plain token Hvalid) as (_ & Hclean & Hne).
  cbn [parse_pairs]. rewrite Hne, Hclean, (UUID_RE_lower _ Hvalid).
  unfold UUID_PATTERN_test. by rewrite Hvalid.
Qed.

(** X23. The shapes the source documents, for any identifiers that pass
    the pattern and any text before the marker that has no underscore:
    [.../__unitystorage/schemas/<s>/tables/<t>] gives the schema then the
    table, [.../__unitystorage/catalogs/<c>/tables/<t>] the catalog then
    the table, [.../__unitystorage/catalogs/<c>] the catalog alone, and
    [.../__unitystorage/schemas/<s>/tables] the schema alone. *)
Theorem parseUnityPath_documented_shapes (bucket s t : string) :
  all_chars (λ c, negb (Ascii.eqb "_" c)) bucket = true →
  UUID_RE_test s = true →
  UUID_RE_test t = true →
  parseUnityPath (bucket +:+ "__unitystorage/schemas/" +:+ s +:+ "/tables/" +:+ t)
    = Some [{| uuid := s; type := "schema" |}; {| uuid := t; type := "table" |}]
  ∧ parseUnityPath (bucket +:+ "__unitystorage/catalogs/" +:+ s +:+ "/tables/" +:+ t)
    = Some [{| uuid := s; type := "catalog" |}; {| uuid := t; type := "table" |}]
  ∧ parseUnityPath (bucket +:+ "__unitystorage/catalogs/" +:+ s)
    = Some [{| uuid := s; type := "catalog" |}]
  ∧ parseUnityPath (bucket +:+ "__unitystorage/schemas/" +:+ s +:+ "/tables")
    = Some [{| uuid := s; type := "schema" |}].
Proof.
  intros Hbucket Hs Ht.
  destruct (UUID_RE_plain s Hs) as (Hs_plain & _ & _).
  destruct (UUID_RE_plain t Ht) as (Ht_plain & _ & _).
  assert (∀ kind tail,
    all_chars not_slash kind = true →
    parseUnityPath (bucket +:+ ("__unitystorage/" +:+ kind +:+ "/") +:+ s +:+ tail)
    = (let results := parse_pairs (kind :: split_slash (s +:+ tail) "") in
       if (0 <? length results)%nat then Some results else None)) as Hhead.
  { intros kind tail Hkind. unfold parseUnityPath.
    rewrite (from_indexOf_skip "_" "_unitystorage/" bucket) by done.
    rewrite !append_assoc.
    change ("__unitystorage/" +:+ kind +:+ "/" +:+ s +:+ tail)
      with ("__unitystorage/" +:+ (kind +:+ "/" +:+ s +:+ tail)).
    rewrite from_indexOf_eq, startsWith_app.
    change ("__unitystorage/" +:+ (kind +:+ "/" +:+ s +:+ tail))
      with ("__unitystorage" +:+ ("/" +:+ (kind +:+ ("/" +:+ (s +:+ tail))))).
    rewrite (split_slash_app "__unitystorage") by done.
    rewrite split_slash_slash, (split_slash_app kind) by done.
    rewrite split_slash_slash. cbn [tl]. reflexivity. }
  assert (split_slash (s +:+ "/tables/" +:+ t) "" = [s; "tables"%string; t]) as Hst.
  { rewrite split_slash_app by done.
    change ("/tables/" +:+ t) with ("/" +:+ ("tables" +:+ ("/" +:+ t))).
    rewrite split_slash_slash, (split_slash_app "tables") by done.
    by rewrite split_slash_slash, split_slash_end. }
  assert (split_slash s "" = [s]) as Hs1 by by rewrite split_slash_end.
  assert (split_slash (s +:+ "/tables") "" = [s; "tables"%string]) as Hs2.
  { rewrite split_slash_app by done.
    change "/tables"%string with ("/" +:+ "tables").
    by rewrite split_slash_slash, split_slash_end. }
  repeat split.
  - change (bucket +:+ "__unitystorage/schemas/" +:+ s +:+ "/tables/" +:+ t)
      with (bucket +:+ ("__unitystorage/" +:+ "schemas" +:+ "/") +:+ s +:+ ("/tables/" +:+ t)).
    rewrite Hhead, Hst by done. by rewrite !parse_pair_valid.
  - change (bucket +:+ "__unitystorage/catalogs/" +:+ s +:+ "/tables/" +:+ t)
      with (bucket +:+ ("__unitystorage/" +:+ "catalogs" +:+ "/") +:+ s +:+ ("/tables/" +:+ t)).
    rewrite Hhead, Hst by done. by rewrite !parse_pair_valid.
  - rewrite <- (append_nil_r s) at 1.
    change (bucket +:+ "__unitystorage/catalogs/" +:+ s +:+ "")
      with (bucket +:+ ("__unitystorage/" +:+ "catalogs" +:+ "/") +:+ s +:+ "").
    rewrite Hhead by done. rewrite append_nil_r, Hs1. by rewrite !parse_pair_valid.
  - change (bucket +:+ "__unitystorage/schemas/" +:+ s +:+ "/tables")
      with (bucket +:+ ("__unitystorage/" +:+ "schemas" +:+ "/") +:+ s +:+ "/tables").
    rewrite Hhead, Hs2 by done. by rewrite !parse_pair_valid.
Qed.

End PathShapes.

(** ** The scan as a whole, and the popup *)

Module ScanMore.
Import Content Annotate.

(** X24. A scan only ever badges from a lookup answer: every badge it
    inserts is made by [createBadge] from the match of an identifier
    parsed in that very element, which is then marked; and when the
    background gives no answer, or an answer without matches, no element
    is badged or marked. *)
Theorem scan_badges_come_from_matches
    (spans : list Span) (respond : list TypedUuid → option Reply) :
  (∀ r badge, r ∈ scan spans respond → r.2 = Some badge →
     ∃ sent response e p info,
       scan_request spans = Some sent
       ∧ respond sent = Some (LookupReply response)
       ∧ e ∈ elements (findUnityElements spans)
       ∧ p ∈ e.2
       ∧ matches response !! uuid p = Some info
       ∧ badge = createBadge info
       ∧ r.1 = {| annotated := true; textContent := textContent e.1 |})
  ∧ ((∀ sent response, respond sent ≠ Some (LookupReply response)) →
     ∀ r, r ∈ scan spans respond →
       r.2 = None ∧ ∃ e, e ∈ elements (findUnityElements spans) ∧ r.1 = e.1).
Proof.
  split.
  - intros r badge Hr Hbadge. unfold scan in Hr.
    destruct (scan_request spans) as [sent|] eqn:Hsent;
      [|by apply elem_of_nil in Hr].
    destruct (respond sent) as [[| |response|]|] eqn:Hreply;
      try (apply list_elem_of_In, in_map_iff in Hr as (e & <- & _); done).
    unfold annotateElements in Hr.
    apply list_elem_of_In, in_map_iff in Hr as (e & <- & He).
    apply list_elem_of_In in He. unfold annotate_element in *.
    destruct (annotated e.1); [done|].
    pose proof (ContentMore.bestMatch_facts (matches response) e.2) as Hbest.
    destruct (bestMatch (matches response) e.2) as [info|]; [|done].
    destruct Hbest as [(p & Hp & Hm) _]. cbn [fst snd] in *. simplify_eq.
    by exists sent, response, e, p, info.
  - intros Hnone r Hr. unfold scan in Hr.
    destruct (scan_request spans) as [sent|] eqn:Hsent;
      [|by apply elem_of_nil in Hr].
    destruct (respond sent) as [[| |response|]|] eqn:Hreply;
      try (apply list_elem_of_In, in_map_iff in Hr as (e & <- & He);
           apply list_elem_of_In in He; split; [done|by exists e]).
    by destruct (Hnone sent response).
Qed.

End ScanMore.

Module PopupMore.
Import Popup.

Lemma trimStart_blank s : all_chars is_space s = true → trimStart s = ""%string.
Proof.
  induction s as [|c s IH]; [done|]. cbn [all_chars trimStart].
  intros [Hc Hs]%andb_true_iff. rewrite Hc. by apply IH.
Qed.

(** X25. A click on Save, from the three fields to the storage. With a
    blank workspace URL or warehouse id nothing is sent and the matching
    error is shown. Otherwise the trimmed values are stored (the URL
    without its trailing slashes) and the popup reports the save; the
    token is replaced only by a non-blank field, so a field left empty or
    filled with spaces keeps the stored token. The cache is not
    touched. *)
Theorem save_click_stores
    (JSON_stringify : Status → string) (net : nat → SqlCall → Exchange)
    (stored : Storage) (workspace_url pat_token warehouse_id : string)
    (now_split now_merge : Z) :
  match save_click workspace_url pat_token warehouse_id with
  | ShowError text =>
      (trim workspace_url = ""%string ∧ text = "Workspace URL is required"%string)
      ∨ (trim workspace_url ≠ ""%string ∧ trim warehouse_id = ""%string
         ∧ text = "Warehouse ID is required"%string)
  | Send message =>
      let run := onMessage JSON_stringify net message stored now_split now_merge in
      trim workspace_url ≠ ""%string
      ∧ trim warehouse_id ≠ ""%string
      ∧ save_message <$> run.1 = Some "Configuration saved"%string
      ∧ stored_workspaceUrl (storage run.2)
        = Some (strip_trailing_slashes (trim workspace_url))
      ∧ stored_warehouseId (storage run.2) = Some (trim warehouse_id)
      ∧ stored_patToken (storage run.2)
        = (if String.eqb (trim pat_token) "" then stored_patToken stored
           else Some (trim pat_token))
      ∧ stored_uuidCache (storage run.2) = stored_uuidCache stored
  end
  ∧ (all_chars is_space pat_token = true → trim pat_token = ""%string).
Proof.
  split.
  - unfold save_click.
    destruct (String.eqb (trim workspace_url) "") eqn:Hws.
    { left. by apply String.eqb_eq in Hws. }
    apply String.eqb_neq in Hws.
    destruct (String.eqb (trim warehouse_id) "") eqn:Hwh.
    { right. by apply String.eqb_eq in Hwh. }
    apply String.eqb_neq in Hwh.
    by destruct (String.eqb (trim pat_token) "").
  - intros Hblank. unfold trim. by rewrite trimStart_blank.
Qed.

End PopupMore.

(** ** Closed examples of the further properties *)

Lemma executeSql_http_failure_witness :
  executeSql stringify_stub
    {| submitResp := pending_answer;
       pollResps := [running_answer; rejected_answer; succeeded_answer []] |}
  = (Thrown "SQL poll failed (403): Forbidden", 2%nat).
Proof.
  refine (executeSql_http_failure stringify_stub pending_answer
            [running_answer; rejected_answer; succeeded_answer []]
            [pending_answer; running_answer] rejected_answer
            [succeeded_answer []] _ _ _).
  - reflexivity.
  - repeat constructor.
  - reflexivity.
Defined.

Lemma executeSql_all_running_is_pending_witness :
  executeSql stringify_stub
    {| submitResp := pending_answer; pollResps := [running_answer; running_answer] |}
  = (Pending, 2%nat).
Proof.
  apply (executeSql_all_running_is_pending stringify_stub pending_answer
           [running_answer; running_answer]).
  repeat constructor.
Defined.

Lemma executeSql_returns_terminal_data_witness :
  executeSql stringify_stub
    {| submitResp := pending_answer;
       pollResps := [running_answer; canceled_answer; rejected_answer] |}
  = (Returned (json canceled_answer), 2%nat).
Proof.
  apply (proj2 (executeSql_returns_terminal_data stringify_stub
                  {| submitResp := pending_answer;
                     pollResps := [running_answer; canceled_answer;
                                   rejected_answer] |}
                  (json canceled_answer) 2)).
  exists [pending_answer; running_answer], canceled_answer, [rejected_answer].
  split; [reflexivity|]. split; [repeat constructor|].
  split; [reflexivity|]. split; [reflexivity|]. split; [reflexivity|].
  split; [reflexivity|]. intros st [= <-]. discriminate.
Defined.

Lemma executeSql_ignores_late_answers_witness :
  executeSql stringify_stub
    {| submitResp := pending_answer;
       pollResps := [failed_answer "x"] ++ [succeeded_answer [good_row]] |}
  = executeSql stringify_stub
      {| submitResp := pending_answer; pollResps := [failed_answer "x"] |}.
Proof.
  apply (executeSql_ignores_late_answers stringify_stub pending_answer
           [failed_answer "x"] [succeeded_answer [good_row]]).
  vm_compute. discriminate.
Defined.

Lemma getCachedResults_misses_in_request_order_witness :
  getCachedResults empty_storage 1000 [table_item; schema_item; table_item]
  = (∅, [table_item; schema_item; table_item]).
Proof.
  apply (proj2 (getCachedResults_misses_in_request_order empty_storage 1000
                  [table_item; schema_item; table_item])).
  reflexivity.
Defined.

Lemma lookup_reports_only_missing_token_witness :
  patToken (getConfig tokenless_storage) = ""%string
  ∧ sql_calls (lookupUuids stringify_stub failing_net tokenless_storage 1000 2000
                 [table_item]).2 = [].
Proof.
  destruct (proj2 (lookup_reports_only_missing_token stringify_stub failing_net
                     tokenless_storage 1000 2000 [table_item])
              {| matches := ∅; error := Some "No PAT token configured"%string |}
              "No PAT token configured")
    as (_ & Htoken & Hcalls & _).
  - vm_compute. reflexivity.
  - reflexivity.
  - split; [exact Htoken|exact Hcalls].
Defined.

Lemma resolveUuids_entries_typed_witness :
  table_uuid ≠ "__proto__"%string
  ∧ ∃ row subDir, nth 3 row VUndefined = VStr subDir
      ∧ table_uuid = table_key subDir
      ∧ a_table = table_entry row.
Proof.
  destruct (resolveUuids_entries_typed stringify_stub answering_net
              [table_item; schema_item] (getConfig configured_storage)
              (resolveUuids stringify_stub answering_net [table_item; schema_item]
                 (getConfig configured_storage) fresh_run).2.(results)
              (resolveUuids stringify_stub answering_net [table_item; schema_item]
                 (getConfig configured_storage) fresh_run).2
              table_uuid a_table)
    as (Hkey & n & c & d & _ & _ & [Htable|Hother]).
  - vm_compute. reflexivity.
  - vm_compute. reflexivity.
  - split; [exact Hkey|].
    destruct Htable as (_ & _ & rows & row & subDir & _ & _ & Hsub & Hk & Hv).
    exists row, subDir. split; [exact Hsub|]. split; [exact Hk|exact Hv].
  - destruct Hother as ([Ht|Ht] & _); discriminate Ht.
Defined.

Lemma resolveUuids_keys_lower_case_witness :
  Js.toLowerCase table_uuid = table_uuid.
Proof.
  apply (resolveUuids_keys_lower_case stringify_stub answering_net
           [table_item; schema_item] (getConfig configured_storage)
           (resolveUuids stringify_stub answering_net [table_item; schema_item]
              (getConfig configured_storage) fresh_run).2.(results)
           (resolveUuids stringify_stub answering_net [table_item; schema_item]
              (getConfig configured_storage) fresh_run).2).
  - vm_compute. reflexivity.
  - exists a_table. vm_compute. reflexivity.
Defined.

Lemma lookup_again_is_served_from_cache_witness :
  patToken (getConfig later_storage) = ""%string
  ∧ ∃ res', lookupUuids stringify_stub failing_net later_storage
              (2000 + CACHE_TTL_MS - 1) 0 [table_item]
            = (Returned res',
               {| storage := later_storage; sql_calls := []; error_log := [] |})
      ∧ error res' = None
      ∧ matches res' !! table_uuid = Some a_table.
Proof.
  split; [reflexivity|].
  destruct (lookup_again_is_served_from_cache stringify_stub answering_net failing_net
              configured_storage 1000 2000 [table_item] first_result first_effects
              later_storage (2000 + CACHE_TTL_MS - 1) 0 [table_item])
    as (res' & Hrun & Herr & Hsame).
  - vm_compute. reflexivity.
  - intros u Hu. apply list_elem_of_singleton in Hu as ->.
    split; [exists a_table|]; vm_compute; reflexivity.
  - intros u Hu. reflexivity.
  - vm_compute. reflexivity.
  - exists res'. split; [exact Hrun|]. split; [exact Herr|].
    rewrite <- (lookup_singleton_eq (M := gmap string) table_uuid a_table).
    apply (Hsame table_item). apply list_elem_of_here.
Defined.

Lemma lookup_no_rows_no_match_witness :
  (lookupUuids stringify_stub empty_net configured_storage 1000 2000
     [table_item; schema_item]).1
  = Returned {| matches := (getCachedResults configured_storage 1000
                              (normalise [table_item; schema_item])).1;
                error := None |}.
Proof.
  apply (lookup_no_rows_no_match stringify_stub empty_net configured_storage
           1000 2000 [table_item; schema_item]).
  - intros n c. eexists. split; [reflexivity|]. right. reflexivity.
  - discriminate.
Defined.

Lemma resolve_tables_stops_at_null_subdir_witness :
  resolve_tables stringify_stub null_subdir_net (getConfig configured_storage)
    [table_item] fresh_run
  = (Returned tt,
     {| results := {[ table_uuid := a_table ]};
        calls := [table_call];
        console_error :=
          ["[S3 Lens BG] Table lookup failed: Cannot read properties of null (reading 'replace')"%string] |}).
Proof.
  destruct (resolve_tables_stops_at_null_subdir stringify_stub null_subdir_net
              (getConfig configured_storage) [table_item] fresh_run
              (json (succeeded_answer [good_row; proto_row; null_row; late_row]))
              [good_row; proto_row] null_row [late_row])
    as (Hrun & _).
  - reflexivity.
  - reflexivity.
  - repeat constructor; by eexists.
  - reflexivity.
  - rewrite Hrun. vm_compute. reflexivity.
Defined.

Lemma only_saveConfig_writes_configuration_witness :
  stored_patToken (storage (onMessage stringify_stub failing_net ClearCache
                              configured_storage 1000 2000).2)
  = stored_patToken configured_storage.
Proof.
  destruct (only_saveConfig_writes_configuration stringify_stub failing_net
              ClearCache configured_storage 1000 2000) as (_ & _ & Htoken).
  - discriminate.
  - exact Htoken.
Defined.

Module MoreExamples.
Import Content.

Lemma parseUnityPath_returns_valid_identifiers_witness :
  [schema_item; table_item] ≠ []
  ∧ UUID_RE_test (uuid table_item) = true.
Proof.
  destruct (ContentMore.parseUnityPath_returns_valid_identifiers
              ("my-bucket/__unitystorage/schemas/" +:+ schema_uuid
                 +:+ "/tables/" +:+ table_uuid)
              [schema_item; table_item]) as (Hne & _ & Hvalid).
  - vm_compute. reflexivity.
  - split; [exact Hne|].
    apply Hvalid, list_elem_of_further, list_elem_of_here.
Defined.

Lemma scan_request_is_canonical_witness :
  normalise [table_item; schema_item] = [table_item; schema_item]
  ∧ valid_uuids [table_item; schema_item] = [table_item; schema_item].
Proof.
  destruct (ContentMore.scan_request_is_canonical a_page [table_item; schema_item])
    as (_ & _ & Hnorm & Hvalid).
  - vm_compute. reflexivity.
  - split; [exact Hnorm|exact Hvalid].
Defined.

Lemma parseUnityPath_documented_shapes_witness :
  parseUnityPath ("my-bucket/" +:+ "__unitystorage/schemas/" +:+ schema_uuid
                    +:+ "/tables/" +:+ table_uuid)
  = Some [{| uuid := schema_uuid; type := "schema" |};
          {| uuid := table_uuid; type := "table" |}].
Proof.
  apply (proj1 (PathShapes.parseUnityPath_documented_shapes "my-bucket/"
                  schema_uuid table_uuid eq_refl eq_refl eq_refl)).
Defined.

End MoreExamples.

Lemma testConnection_shows_witness :
  is_ok_row (json (succeeded_answer [[VStr "1"]])) = true.
Proof.
  apply (proj2 (proj2 (proj2 (testConnection_shows stringify_stub answering_net
                                configured_storage 1000 2000)))
               (json (succeeded_answer [[VStr "1"]]))).
  exists {| state := Some "SUCCEEDED"%string; status_error := None |},
         [VStr "1"], [].
  repeat split; reflexivity.
Defined.

Module MoreExamples2.
Import Content Annotate.

Lemma bestMatch_is_most_specific_witness :
  (typePriority (r_type a_schema) ≤ typePriority (r_type a_table))%nat.
Proof.
  pose proof (ContentMore.bestMatch_is_most_specific a_matchMap
                [schema_item; table_item]) as Hbest.
  assert (bestMatch a_matchMap [schema_item; table_item] = Some a_table) as Heq
    by (vm_compute; reflexivity).
  rewrite Heq in Hbest. destruct Hbest as [_ Hmax].
  apply (Hmax schema_item a_schema).
  - apply list_elem_of_here.
  - vm_compute. reflexivity.
Defined.

Lemma annotated_elements_are_not_rescanned_witness :
  elements (findUnityElements
              (map fst (annotateElements (elements (findUnityElements a_page))
                          a_matchMap)))
  = List.filter (unbadged a_matchMap) (elements (findUnityElements a_page)).
Proof.
  exact (proj1 (ContentMore.annotated_elements_are_not_rescanned a_page a_matchMap)).
Defined.

Lemma scan_badges_come_from_matches_witness :
  (a_span, @None Badge).2 = None
  ∧ ∃ e, e ∈ elements (findUnityElements a_page) ∧ (a_span, @None Badge).1 = e.1.
Proof.
  apply (proj2 (ScanMore.scan_badges_come_from_matches a_page (λ _, None))).
  - discriminate.
  - vm_compute. apply list_elem_of_further, list_elem_of_here.
Defined.

Lemma save_click_stores_witness : Popup.trim "   " = ""%string.
Proof.
  apply (proj2 (PopupMore.save_click_stores stringify_stub failing_net
                  configured_storage "https://example.cloud.databricks.com/"
                  "   " "warehouse-1" 1000 2000)).
  reflexivity.
Defined.

End MoreExamples2.
